(** * Duo broker client of the vehicle-app SDK: value codec, path resolution,
      flattening and the asynchronous facade

    Shallow embedding of
    - [sdk/src/sdk/vdb/grpc/duo/TypeConverter.cpp]
    - [sdk/src/sdk/vdb/grpc/duo/BrokerClient.cpp]
    - [sdk/src/sdk/vdb/grpc/duo/BrokerAsyncGrpcFacade.cpp]
    - [sdk/include/sdk/DataPointReply.h]

    Conventions.
    - [std::string] is [string]; a [std::vector] is a [list].
    - A machine integer of type [T] is a [Z] together with the range of [T].
    - [double] and [float] are IEEE 754 binary64 and binary32 values in the
      representation of the standard library's [SpecFloat]; [long double]
      is taken with a significand of at least 64 bits (x86-64 and AArch64
      Linux), so that every 64-bit integer bound converts to it exactly.
    - A C++ function that may throw returns [Exn + A].
    - [google::protobuf::Struct::fields()] is a map; it is modelled by the
      sequence of its entries in iteration order, [find] being the lookup
      by key. *)

From Stdlib Require Import ZArith List String Ascii Bool Lia PeanoNat.
From Stdlib Require Import Floats.SpecFloat.
From Stdlib Require Import Sorting.Sorted.
From Stdlib Require Import DecimalString.
Import ListNotations.

Set Warnings "-register-all".

Local Open Scope string_scope.
Local Open Scope Z_scope.

(** ** Exceptions and the result of a throwing function *)

(** The SDK's exceptions derive from [std::runtime_error]; the other two
    constructors stand for any other class derived from [std::exception] and
    for a thrown object that is not a [std::exception] at all. *)
Inductive Exn : Type :=
| InvalidValueException (what : string)
| InvalidTypeException (what : string)
| std_exception (what : string)
| foreign_exception.

Definition is_std_exception (e : Exn) : bool :=
  match e with foreign_exception => false | _ => true end.

Definition what (e : Exn) : string :=
  match e with
  | InvalidValueException w | InvalidTypeException w | std_exception w => w
  | foreign_exception => ""
  end.

Definition Result (A : Type) : Type := (Exn + A)%type.

Definition ret {A : Type} (a : A) : Result A := inr a.
Definition throw {A : Type} (e : Exn) : Result A := inl e.

Definition bind {A B : Type} (r : Result A) (k : A -> Result B) : Result B :=
  match r with
  | inl e => inl e
  | inr a => k a
  end.

Declare Scope result_scope.
Delimit Scope result_scope with result.
Notation "x <- r ;; k" := (bind r (fun x => k))
  (at level 61, r at next level, right associativity) : result_scope.

(** ** Numbers of the wire format *)

Definition double : Type := spec_float.
Definition float : Type := spec_float.

Definition dprec : Z := 53.
Definition demax : Z := 1024.
Definition fprec : Z := 24.
Definition femax : Z := 128.
(** [long double] in its x87 extended format. *)
Definition lprec : Z := 64.
Definition lemax : Z := 16384.

(** [static_cast<double>(n)] for an integer [n]. *)
Definition double_of_Z (n : Z) : double := binary_normalize dprec demax n 0 false.

(** ** google::protobuf::Value *)

Inductive Value : Type :=
| kind_not_set
| null_value
| number_value (d : double)
| string_value (s : string)
| bool_value (b : bool)
| struct_value (fields : list (string * Value))
| list_value (values : list Value).

Definition has_struct_value (v : Value) : bool :=
  match v with struct_value _ => true | _ => false end.

Definition has_null_value (v : Value) : bool :=
  match v with null_value => true | _ => false end.

Definition has_list_value (v : Value) : bool :=
  match v with list_value _ => true | _ => false end.

(** [fields().find(key)]: the value stored under [key], if any. *)
Fixpoint fields_find (fields : list (string * Value)) (key : string)
  : option Value :=
  match fields with
  | [] => None
  | (k, v) :: rest => if String.eqb k key then Some v else fields_find rest key
  end.

(** ** TypeConverter.cpp: paths *)

(** [std::replace(s.begin(), s.end(), from, to)]. *)
Fixpoint replace (from to : ascii) (s : string) : string :=
  match s with
  | EmptyString => EmptyString
  | String c rest =>
      String (if Ascii.eqb c from then to else c) (replace from to rest)
  end.

Definition toDuoPath (path : string) : string := replace "." "/" path.
Definition toInternalPath (path : string) : string := replace "/" "." path.

(** The [while (start < path.length())] loop of [splitPath]; every iteration
    either stops or moves [start] past one more dot, so [length path + 1]
    rounds of fuel are never used up. *)
Fixpoint splitPath_loop (fuel : nat) (path : string) (start : nat)
  : list string :=
  match fuel with
  | O => []
  | S fuel' =>
      if (start <? String.length path)%nat then
        match index start "." path with
        | None => [substring start (String.length path - start) path]
        | Some next =>
            (if (start <? next)%nat
             then [substring start (next - start) path] else [])
              ++ splitPath_loop fuel' path (next + 1)
        end
      else []
  end.

Definition splitPath (path : string) : list string :=
  splitPath_loop (S (String.length path)) path 0.

Definition accessField (structure : list (string * Value)) (key : string)
  : option Value :=
  match fields_find structure key with
  | Some v => Some v
  | None =>
      let alternative := replace "." "/" key in
      fields_find structure alternative
  end.

(** The inner loop of [locateLeaf] that appends ["/" + segments[remaining]]
    for every following segment. *)
Fixpoint append_remaining (combined : string) (remaining : list string)
  : string :=
  match remaining with
  | [] => combined
  | s :: rest => append_remaining (combined ++ "/" ++ s) rest
  end.

(** The [for] loop of [locateLeaf]; the second argument is
    [segments[index..]].  [None] is the null pointer. *)
Fixpoint locateLeaf_loop (current : Value) (segments : list string)
  : option Value :=
  match segments with
  | [] => Some current
  | segment :: following =>
      match current with
      | struct_value fields =>
          let next :=
            match accessField fields segment with
            | Some n => Some n
            | None =>
                let combined := append_remaining segment following in
                accessField fields combined
            end in
          match next with
          | None => None
          | Some n => locateLeaf_loop n following
          end
      | _ => Some current
      end
  end.

Definition locateLeaf (root : Value) (segments : list string) : option Value :=
  if negb (has_struct_value root) || (Nat.eqb (List.length segments) 0)
  then Some root
  else locateLeaf_loop root segments.

(** ** BrokerClient.cpp: flattening *)

Definition string_empty (s : string) : bool :=
  match s with EmptyString => true | _ => false end.

Fixpoint joinPathSegments_from (path : string) (segments : list string)
  : string :=
  match segments with
  | [] => path
  | segment :: rest =>
      if string_empty segment then joinPathSegments_from path rest
      else
        let path := if negb (string_empty path) then path ++ "/" else path in
        joinPathSegments_from (path ++ segment) rest
  end.

Definition joinPathSegments (segments : list string) : string :=
  joinPathSegments_from "" segments.

(** [collectValuePaths]: the pairs appended to [leafValues].  [pathList]
    receives the first components of the same pairs, in the same order, and
    [currentPath] is restored by the [pop_back] after each recursive call, so
    the function is determined by the list it returns. *)
Fixpoint collectValuePaths (value : Value) (currentPath : list string)
  {struct value} : list (string * Value) :=
  match value with
  | struct_value fields =>
      (fix visit (fs : list (string * Value)) : list (string * Value) :=
         match fs with
         | [] => []
         | (key, nestedValue) :: rest =>
             (collectValuePaths nestedValue (currentPath ++ [key])
                ++ visit rest)%list
         end) fields
  | _ =>
      match currentPath with
      | [] => []
      | _ :: _ => [(joinPathSegments currentPath, value)]
      end
  end.

(** ** The C and C++ library functions the converter calls *)

(** [std::tolower] in the C locale. *)
Definition tolower (c : ascii) : ascii :=
  let n := nat_of_ascii c in
  if ((65 <=? n) && (n <=? 90))%nat then ascii_of_nat (n + 32) else c.

Fixpoint toLowerCopy (value : string) : string :=
  match value with
  | EmptyString => EmptyString
  | String c rest => String (tolower c) (toLowerCopy rest)
  end.

(** [isspace] in the C locale: space and the controls 9 to 13. *)
Definition isspace (c : ascii) : bool :=
  let n := nat_of_ascii c in
  (Nat.eqb n 32 || ((9 <=? n) && (n <=? 13)))%nat.

(** The value of [c] as a digit, for bases up to 36. *)
Definition digit_value (c : ascii) : option Z :=
  let n := nat_of_ascii c in
  if ((48 <=? n) && (n <=? 57))%nat then Some (Z.of_nat (n - 48))
  else if ((97 <=? n) && (n <=? 122))%nat then Some (Z.of_nat (n - 87))
  else if ((65 <=? n) && (n <=? 90))%nat then Some (Z.of_nat (n - 55))
  else None.

Definition digit_in_base (base : Z) (c : ascii) : option Z :=
  match digit_value c with
  | Some d => if d <? base then Some d else None
  | None => None
  end.

Fixpoint skip_spaces (s : string) : nat * string :=
  match s with
  | String c rest =>
      if isspace c then let '(n, r) := skip_spaces rest in (S n, r) else (O, s)
  | EmptyString => (O, s)
  end.

(** The longest run of digits of [base] at the head of [s]: its value on top
    of [acc], and how many characters it has. *)
Fixpoint read_digits (base : Z) (s : string) (acc : Z) (count : nat)
  : Z * nat :=
  match s with
  | String c rest =>
      match digit_in_base base c with
      | Some d => read_digits base rest (acc * base + d) (S count)
      | None => (acc, count)
      end
  | EmptyString => (acc, count)
  end.

(** The subject sequence of [strtoll]/[strtoull] with base 0 (C11 7.22.1.4):
    white space, an optional sign, then a hexadecimal constant after [0x],
    an octal one after [0], a decimal one otherwise.  The result is the sign,
    the magnitude and the number of characters consumed; [None] when there is
    no digit to convert. *)
Definition subject_sequence (str : string) : option (bool * Z * nat) :=
  let '(nspace, s1) := skip_spaces str in
  let '(negative, nsign, s2) :=
    match s1 with
    | String "-" r => (true, 1%nat, r)
    | String "+" r => (false, 1%nat, r)
    | _ => (false, O, s1)
    end in
  let '(base, nprefix, s3) :=
    match s2 with
    | String "0" (String x (String h r)) =>
        if (Ascii.eqb x "x" || Ascii.eqb x "X")
           && (match digit_in_base 16 h with Some _ => true | None => false end)
        then (16, 2%nat, String h r) else (8, O, s2)
    | String "0" _ => (8, O, s2)
    | _ => (10, O, s2)
    end in
  let '(magnitude, ndigits) := read_digits base s3 0 O in
  match ndigits with
  | O => None
  | S _ => Some (negative, magnitude, (nspace + nsign + nprefix + ndigits)%nat)
  end.

Inductive sto_result : Type :=
| sto_invalid_argument
| sto_out_of_range
| sto_value (parsed : Z) (idx : nat).

Definition ULLONG_MAX : Z := 2 ^ 64 - 1.
Definition LLONG_MAX : Z := 2 ^ 63 - 1.
Definition LLONG_MIN : Z := - 2 ^ 63.

(** [std::stoull(str, &idx, 0)]: [strtoull] negates a value written with a
    minus sign in the return type, and reports a range error only when the
    magnitude itself does not fit. *)
Definition stoull (str : string) : sto_result :=
  match subject_sequence str with
  | None => sto_invalid_argument
  | Some (negative, magnitude, idx) =>
      if ULLONG_MAX <? magnitude then sto_out_of_range
      else sto_value (if negative then (- magnitude) mod 2 ^ 64 else magnitude)
                     idx
  end.

(** [std::stoll(str, &idx, 0)]. *)
Definition stoll (str : string) : sto_result :=
  match subject_sequence str with
  | None => sto_invalid_argument
  | Some (negative, magnitude, idx) =>
      let value := if negative then - magnitude else magnitude in
      if (value <? LLONG_MIN) || (LLONG_MAX <? value) then sto_out_of_range
      else sto_value value idx
  end.

(** What the converter needs from the platform and cannot be read off its
    own text: [std::stod] ([None] when it throws, else the value and the
    number of characters consumed), and the two renderings of a [double] as
    text, [operator<<] on a stream and [fmt::format("{}", ...)]. *)
Record Platform : Type := {
  stod : string -> option (double * nat);
  ostream_double : double -> string;
  fmt_double : double -> string
}.

(** ** Integral types, the template parameter of [convertToIntegral] *)

Inductive IntType : Type :=
| int8_t | int16_t | int32_t | int64_t
| uint8_t | uint16_t | uint32_t | uint64_t.

Definition is_unsigned (T : IntType) : bool :=
  match T with
  | uint8_t | uint16_t | uint32_t | uint64_t => true
  | _ => false
  end.

Definition width (T : IntType) : Z :=
  match T with
  | int8_t | uint8_t => 8
  | int16_t | uint16_t => 16
  | int32_t | uint32_t => 32
  | int64_t | uint64_t => 64
  end.

(** [std::numeric_limits<T>::min()] and [max()]. *)
Definition numeric_min (T : IntType) : Z :=
  if is_unsigned T then 0 else - 2 ^ (width T - 1).

Definition numeric_max (T : IntType) : Z :=
  if is_unsigned T then 2 ^ width T - 1 else 2 ^ (width T - 1) - 1.

Definition in_range (T : IntType) (n : Z) : bool :=
  (numeric_min T <=? n) && (n <=? numeric_max T).

(** ** Floating-point conversions *)

Definition isfinite (d : double) : bool :=
  match d with
  | S754_zero _ | S754_finite _ _ _ => true
  | _ => false
  end.

(** A conversion between binary formats: round to nearest, ties to even. *)
Definition convert_format (prec emax : Z) (x : spec_float) : spec_float :=
  match x with
  | S754_finite s m e => binary_normalize prec emax (cond_Zopp s (Zpos m)) e s
  | _ => x
  end.

(** [static_cast<double>(f)] and [static_cast<float>(d)]. *)
Definition double_of_float (f : float) : double := convert_format dprec demax f.
Definition float_of_double (d : double) : float := convert_format fprec femax d.
Definition long_double_of_double (d : double) : spec_float :=
  convert_format lprec lemax d.

(** The integer nearest to [m * 2^e], ties to even. *)
Definition round_half_even (m e : Z) : Z :=
  match e with
  | Z0 => m
  | Zpos _ => m * 2 ^ e
  | Zneg p =>
      let d := 2 ^ Zpos p in
      let q := m / d in
      let r := m mod d in
      match Z.compare (2 * r) d with
      | Lt => q
      | Gt => q + 1
      | Eq => if Z.even q then q else q + 1
      end
  end.

(** [std::nearbyintl] of a finite number, in the default rounding mode.  The
    result is an integer that [long double] holds exactly, so it is given as
    the integer itself (a negative zero is 0). *)
Definition nearbyintl (number : double) : Z :=
  match number with
  | S754_finite s m e => cond_Zopp s (round_half_even (Zpos m) e)
  | _ => 0
  end.

(** [constexpr long double kEpsilon = 1e-6L]. *)
Definition kEpsilon : spec_float :=
  SFdiv lprec lemax (binary_normalize lprec lemax 1 0 false)
                    (binary_normalize lprec lemax 1000000 0 false).

(** ** DataPointValue *)

(** [DataPointValue::Type]: the 24 kinds the converter handles; [INVALID]
    stands for the enumerators that reach the [default] label. *)
Inductive DataPointValue_Type : Type :=
| INVALID
| BOOL | BOOL_ARRAY
| INT8 | INT8_ARRAY | INT16 | INT16_ARRAY
| INT32 | INT32_ARRAY | INT64 | INT64_ARRAY
| UINT8 | UINT8_ARRAY | UINT16 | UINT16_ARRAY
| UINT32 | UINT32_ARRAY | UINT64 | UINT64_ARRAY
| FLOAT | FLOAT_ARRAY | DOUBLE | DOUBLE_ARRAY
| STRING | STRING_ARRAY.

(** Modelled from the spec: [sdk/DataPointValue.h] is not among the sources.
    The spec gives a typed value a declared type, a path, a timestamp and
    either a concrete value or a failure marker, [NOT_AVAILABLE] being the
    only failure kind it defines. *)
Inductive Failure : Type := NOT_AVAILABLE.

Definition Timestamp : Type := Z.

(** The [T] of [TypedDataPointValue<T>] for each type tag. *)
Definition value_type (t : DataPointValue_Type) : Type :=
  match t with
  | INVALID => unit
  | BOOL => bool
  | BOOL_ARRAY => list bool
  | INT8 | INT16 | INT32 | INT64 | UINT8 | UINT16 | UINT32 | UINT64 => Z
  | INT8_ARRAY | INT16_ARRAY | INT32_ARRAY | INT64_ARRAY
  | UINT8_ARRAY | UINT16_ARRAY | UINT32_ARRAY | UINT64_ARRAY => list Z
  | FLOAT => float
  | FLOAT_ARRAY => list float
  | DOUBLE => double
  | DOUBLE_ARRAY => list double
  | STRING => string
  | STRING_ARRAY => list string
  end.

(** A [TypedDataPointValue<T>] seen through its base class: the type tag
    fixes the type of the payload, so [requireTyped<T>] cannot fail. *)
Record DataPointValue : Type := {
  getType : DataPointValue_Type;
  getPath : string;
  getTimestamp : Timestamp;
  content : Failure + value_type getType
}.

Definition isValid (v : DataPointValue) : bool :=
  match content v with inl _ => false | inr _ => true end.

Definition makeTypedValue (t : DataPointValue_Type) (path : string)
  (data : value_type t) (timestamp : Timestamp) : DataPointValue :=
  {| getType := t; getPath := path; getTimestamp := timestamp;
     content := inr data |}.

Definition makeFailedValue (t : DataPointValue_Type) (path : string)
  (timestamp : Timestamp) (failure : Failure) : DataPointValue :=
  {| getType := t; getPath := path; getTimestamp := timestamp;
     content := inl failure |}.

(** ** TypeConverter.cpp: the converters *)

Section Converters.

Variable platform : Platform.

Local Open Scope result_scope.

Definition convertToDouble (value : Value) : Result double :=
  match value with
  | number_value d => ret d
  | bool_value b => ret (double_of_Z (if b then 1 else 0))
  | string_value s =>
      match stod platform s with
      | Some (dbl, idx) =>
          if Nat.eqb idx (String.length s) then ret dbl
          else throw (InvalidValueException
                        "Failed to parse floating point value from string.")
      | None =>
          throw (InvalidValueException
                   "Failed to parse floating point value from string.")
      end
  | _ =>
      throw (InvalidValueException
               "Unsupported value type for floating point conversion.")
  end.

Definition convertToString (value : Value) : Result string :=
  match value with
  | string_value s => ret s
  | bool_value b => ret (if b then "true" else "false")
  | number_value d => ret (ostream_double platform d)
  | null_value => ret ""
  | _ => throw (InvalidValueException
                  "Unsupported value type for string conversion.")
  end.

Definition convertToIntegral (T : IntType) (value : Value) : Result Z :=
  match value with
  | string_value str =>
      if is_unsigned T then
        match stoull str with
        | sto_value parsed idx =>
            if negb (Nat.eqb idx (String.length str)) then
              throw (InvalidValueException
                "Non numeric characters encountered while parsing integer value.")
            else if numeric_max T <? parsed then
              throw (InvalidValueException
                       "Unsigned integer value out of range.")
            else ret parsed
        | sto_invalid_argument =>
            throw (InvalidValueException
                     "Failed to parse integer value from string.")
        | sto_out_of_range =>
            throw (InvalidValueException "Integer value out of range.")
        end
      else
        match stoll str with
        | sto_value parsed idx =>
            if negb (Nat.eqb idx (String.length str)) then
              throw (InvalidValueException
                "Non numeric characters encountered while parsing integer value.")
            else if (parsed <? numeric_min T) || (numeric_max T <? parsed) then
              throw (InvalidValueException "Signed integer value out of range.")
            else ret parsed
        | sto_invalid_argument =>
            throw (InvalidValueException
                     "Failed to parse integer value from string.")
        | sto_out_of_range =>
            throw (InvalidValueException "Integer value out of range.")
        end
  | bool_value b => ret (if b then 1 else 0)
  | number_value number =>
      if negb (isfinite number) then
        throw (InvalidValueException
                 "Non finite number encountered while converting to integer.")
      else
        let rounded := nearbyintl number in
        if (rounded <? numeric_min T) || (numeric_max T <? rounded) then
          throw (InvalidValueException "Integer value out of range.")
        else ret rounded
  | _ =>
      throw (InvalidValueException
               "Unsupported value type for integer conversion.")
  end.

Definition convertToBool (value : Value) : Result bool :=
  match value with
  | bool_value b => ret b
  | number_value d =>
      ret (SFltb kEpsilon (long_double_of_double (SFabs d)))
  | string_value s =>
      let lowered := toLowerCopy s in
      if String.eqb lowered "true" || String.eqb lowered "1" then ret true
      else if String.eqb lowered "false" || String.eqb lowered "0" then ret false
      else throw (InvalidValueException
                    "Unsupported value type for boolean conversion.")
  | _ => throw (InvalidValueException
                  "Unsupported value type for boolean conversion.")
  end.

(** The loop of [convertList]: the first element that fails aborts the
    conversion. *)
Fixpoint convertList_loop {T : Type} (converter : Value -> Result T)
  (values : list Value) : Result (list T) :=
  match values with
  | [] => ret []
  | element :: rest =>
      x <- converter element ;;
      xs <- convertList_loop converter rest ;;
      ret (x :: xs)
  end.

Definition convertList {T : Type} (value : Value)
  (converter : Value -> Result T) : Result (list T) :=
  match value with
  | list_value values => convertList_loop converter values
  | _ => throw (InvalidValueException
                  "Expected list value for array conversion.")
  end.

Definition convertToFloat (entry : Value) : Result float :=
  d <- convertToDouble entry ;; ret (float_of_double d).

Definition number_list (l : list Z) : Value :=
  list_value (map (fun entry => number_value (double_of_Z entry)) l).

Definition unsupported_type : Exn :=
  InvalidTypeException "Unsupported datapoint type for Duo conversion.".

Definition toDuoValue (dataPointValue : DataPointValue) : Result Value :=
  let '(Build_DataPointValue type _ _ c) := dataPointValue in
  match c with
  | inl _ => ret null_value
  | inr data =>
      match type return value_type type -> Result Value with
      | BOOL => fun b => ret (bool_value b)
      | BOOL_ARRAY => fun l => ret (list_value (map bool_value l))
      | INT8 | INT16 | INT32 | INT64 | UINT8 | UINT16 | UINT32 | UINT64 =>
          fun n => ret (number_value (double_of_Z n))
      | INT8_ARRAY | INT16_ARRAY | INT32_ARRAY | INT64_ARRAY
      | UINT8_ARRAY | UINT16_ARRAY | UINT32_ARRAY | UINT64_ARRAY =>
          fun l => ret (number_list l)
      | FLOAT => fun f => ret (number_value (double_of_float f))
      | FLOAT_ARRAY =>
          fun l =>
            ret (list_value
                   (map (fun entry => number_value (double_of_float entry)) l))
      | DOUBLE => fun d => ret (number_value d)
      | DOUBLE_ARRAY => fun l => ret (list_value (map number_value l))
      | STRING => fun s => ret (string_value s)
      | STRING_ARRAY => fun l => ret (list_value (map string_value l))
      | INVALID => fun _ => throw unsupported_type
      end data
  end.

(** The second [switch] of [fromDuoValue]: the conversion of a leaf that is
    not null. *)
Definition convertLeaf (expectedType : DataPointValue_Type) (leaf : Value)
  : Result (value_type expectedType) :=
  match expectedType return Result (value_type expectedType) with
  | BOOL => convertToBool leaf
  | BOOL_ARRAY => convertList leaf convertToBool
  | INT8 => convertToIntegral int8_t leaf
  | INT8_ARRAY => convertList leaf (convertToIntegral int8_t)
  | INT16 => convertToIntegral int16_t leaf
  | INT16_ARRAY => convertList leaf (convertToIntegral int16_t)
  | INT32 => convertToIntegral int32_t leaf
  | INT32_ARRAY => convertList leaf (convertToIntegral int32_t)
  | INT64 => convertToIntegral int64_t leaf
  | INT64_ARRAY => convertList leaf (convertToIntegral int64_t)
  | UINT8 => convertToIntegral uint8_t leaf
  | UINT8_ARRAY => convertList leaf (convertToIntegral uint8_t)
  | UINT16 => convertToIntegral uint16_t leaf
  | UINT16_ARRAY => convertList leaf (convertToIntegral uint16_t)
  | UINT32 => convertToIntegral uint32_t leaf
  | UINT32_ARRAY => convertList leaf (convertToIntegral uint32_t)
  | UINT64 => convertToIntegral uint64_t leaf
  | UINT64_ARRAY => convertList leaf (convertToIntegral uint64_t)
  | FLOAT => convertToFloat leaf
  | FLOAT_ARRAY => convertList leaf convertToFloat
  | DOUBLE => convertToDouble leaf
  | DOUBLE_ARRAY => convertList leaf convertToDouble
  | STRING => convertToString leaf
  | STRING_ARRAY => convertList leaf convertToString
  | INVALID => throw unsupported_type
  end.

Definition fromDuoValue (path : string) (expectedType : DataPointValue_Type)
  (value : Value) (timestamp : Timestamp) : Result DataPointValue :=
  let segments := splitPath path in
  match locateLeaf value segments with
  | None =>
      throw (InvalidValueException
               ("Requested datapoint path not present in Duo payload: " ++ path))
  | Some leaf =>
      if has_null_value leaf then
        match expectedType with
        | INVALID => throw unsupported_type
        | _ => ret (makeFailedValue expectedType path timestamp NOT_AVAILABLE)
        end
      else
        data <- convertLeaf expectedType leaf ;;
        ret (makeTypedValue expectedType path data timestamp)
  end.

End Converters.

(** ** Messages of the Duo protocol and of gRPC

    [duo.proto] is not among the sources; each message has the fields the
    sources read or write through its accessors. *)

Record grpc_Status : Type := { ok : bool; error_message : string }.

Record GetReportRequest : Type := { get_thing : string; get_path : string }.

(** [item] is [None] when [has_item()] is false. *)
Record GetResponse : Type := { item : option Value }.

Record CreateJobRequest : Type := {
  job_thing : string;
  document : list (string * Value)
}.

(** Modelled from the spec: neither the sources nor the spec give the fields
    of [CreateJobResponse]; the client reads only its text form, so the
    response is represented by that text. *)
Record CreateJobResponse : Type := { CreateJobResponse_DebugString : string }.

Record ListenReportRequest : Type := {
  listen_thing : string;
  needs_initial_value : bool;
  filters : list string
}.

Record ListenResponse : Type := { items : list Value }.

Inductive Rpc : Type :=
| GetReport (request : GetReportRequest)
| CreateJob (request : CreateJobRequest)
| ListenReport (request : ListenReportRequest).

(** ** DataPointReply.h *)

Record DataPointReply : Type := {
  m_dataPointsMap : list (string * DataPointValue);
  m_duoGetResponse : GetResponse
}.

Definition setDuoGetResponse (response : GetResponse) (reply : DataPointReply)
  : DataPointReply :=
  {| m_dataPointsMap := m_dataPointsMap reply; m_duoGetResponse := response |}.

Fixpoint map_find {V : Type} (m : list (string * V)) (key : string) : option V :=
  match m with
  | [] => None
  | (k, v) :: rest => if String.eqb k key then Some v else map_find rest key
  end.

Definition getUntyped (reply : DataPointReply) (path : string)
  : Result DataPointValue :=
  match map_find (m_dataPointsMap reply) path with
  | None => throw (InvalidValueException (path ++ " is not contained in reply!"))
  | Some v => ret v
  end.

Definition empty (reply : DataPointReply) : bool :=
  match m_dataPointsMap reply with [] => true | _ => false end.

(** ** The caller-facing containers *)

Record Status : Type := { errorMessage : string }.

(** Modelled from the spec: [AsyncResult.h] is not among the sources.  The
    spec makes an AsyncResult a single slot, created empty, that goes exactly
    once to a value or to an error and ignores a second resolution. *)
Inductive AsyncResult (T : Type) : Type :=
| Pending
| HasValue (value : T)
| HasError (status : Status).
Arguments Pending {T}.
Arguments HasValue {T} value.
Arguments HasError {T} status.

Definition resolve {T : Type} (new : AsyncResult T) (old : AsyncResult T)
  : AsyncResult T :=
  match old with Pending => new | _ => old end.

(** Modelled from the spec: [AsyncSubscription] is not among the sources.
    The spec makes it a container of items in receipt order with at most one
    terminal error. *)
Record AsyncSubscription (T : Type) : Type := {
  received : list T;
  terminal : option Status
}.
Arguments received {T} _.
Arguments terminal {T} _.

Definition SetErrorMap_t : Type := list (string * string).

(** ** The state the callbacks act on *)

Inductive Level : Type := info | warn | error.

Record State : Type := {
  logger : list (Level * string);
  stdout : list string;
  getResults : list (AsyncResult DataPointReply);
  setResults : list (AsyncResult SetErrorMap_t);
  subscriptions : list (AsyncSubscription DataPointReply)
}.

Definition log (level : Level) (message : string) (s : State) : State :=
  {| logger := logger s ++ [(level, message)]; stdout := stdout s;
     getResults := getResults s; setResults := setResults s;
     subscriptions := subscriptions s |}.

Definition print (text : string) (s : State) : State :=
  {| logger := logger s; stdout := stdout s ++ [text];
     getResults := getResults s; setResults := setResults s;
     subscriptions := subscriptions s |}.

Definition with_getResults (l : list (AsyncResult DataPointReply)) (s : State)
  : State :=
  {| logger := logger s; stdout := stdout s; getResults := l;
     setResults := setResults s; subscriptions := subscriptions s |}.

Definition with_setResults (l : list (AsyncResult SetErrorMap_t)) (s : State)
  : State :=
  {| logger := logger s; stdout := stdout s; getResults := getResults s;
     setResults := l; subscriptions := subscriptions s |}.

Definition with_subscriptions (l : list (AsyncSubscription DataPointReply))
  (s : State) : State :=
  {| logger := logger s; stdout := stdout s; getResults := getResults s;
     setResults := setResults s; subscriptions := l |}.

(** Update of the element at [index], leaving a list that is too short as
    it is. *)
Fixpoint update {A : Type} (index : nat) (f : A -> A) (l : list A) : list A :=
  match l, index with
  | [], _ => []
  | x :: rest, O => f x :: rest
  | x :: rest, S i => x :: update i f rest
  end.

(** What a call of a callback does: it returns, or it throws, in both cases
    after the effects it had on the state. *)
Inductive Outcome : Type :=
| Returned (s : State)
| Threw (e : Exn) (s : State).

Definition state_of (o : Outcome) : State :=
  match o with Returned s | Threw _ s => s end.

Definition Handler (A : Type) : Type := A -> State -> Outcome.

(** ** BrokerAsyncGrpcFacade.cpp *)

(** A call object kept in the facade's list of active calls, with the
    handlers its completion closures captured.  The context modifier only
    adds metadata to the context of the call and is left out. *)
Inductive Call : Type :=
| GetCall (m_request : GetReportRequest)
    (replyHandler : Handler GetResponse) (errorHandler : Handler grpc_Status)
| JobCall (m_request : CreateJobRequest)
    (replyHandler : Handler CreateJobResponse)
    (errorHandler : Handler grpc_Status)
| ListenCall (m_request : ListenReportRequest)
    (streamHandler : Handler ListenResponse)
    (errorHandler : Handler grpc_Status).

Record ActiveCall : Type := { callData : Call; m_isComplete : bool }.

(** The process as the facade sees it: the state the callbacks act on, the
    active calls, the requests handed to the stubs, and the exceptions that
    left one of the facade's closures towards whoever invoked it. *)
Record World : Type := {
  state : State;
  m_activeCalls : list ActiveCall;
  issued : list Rpc;
  escaped : list Exn
}.

Definition with_state (s : State) (w : World) : World :=
  {| state := s; m_activeCalls := m_activeCalls w; issued := issued w;
     escaped := escaped w |}.

Definition addActiveCall (c : Call) (w : World) : World :=
  {| state := state w;
     m_activeCalls := m_activeCalls w ++ [{| callData := c; m_isComplete := false |}];
     issued := issued w; escaped := escaped w |}.

Definition issue (r : Rpc) (w : World) : World :=
  {| state := state w; m_activeCalls := m_activeCalls w;
     issued := issued w ++ [r]; escaped := escaped w |}.

Definition escape (e : Exn) (w : World) : World :=
  {| state := state w; m_activeCalls := m_activeCalls w; issued := issued w;
     escaped := escaped w ++ [e] |}.

Definition set_complete (index : nat) (w : World) : World :=
  {| state := state w;
     m_activeCalls :=
       update index (fun c => {| callData := callData c; m_isComplete := true |})
              (m_activeCalls w);
     issued := issued w; escaped := escaped w |}.

Definition GetDatapoints (datapoints : list string)
  (replyHandler : Handler GetResponse) (errorHandler : Handler grpc_Status)
  (w : World) : World :=
  match datapoints with
  | [] =>
      with_state
        (log error "GetDatapoints called without any datapoint paths." (state w)) w
  | front :: _ =>
      let path := toDuoPath front in
      let w := with_state (log info path (state w)) w in
      let m_request := {| get_thing := "vss"; get_path := path |} in
      let w := addActiveCall (GetCall m_request replyHandler errorHandler) w in
      issue (GetReport m_request) w
  end.

Definition SetDatapoints (datapoints_map : list (string * Value))
  (replyHandler : Handler CreateJobResponse)
  (errorHandler : Handler grpc_Status) (w : World) : World :=
  match datapoints_map with
  | [] => with_state (log warn "SetDatapoints called without payload." (state w)) w
  | (path, value) :: _ =>
      let w := with_state (log info path (state w)) w in
      let m_request :=
        {| job_thing := "vss";
           document := [("action", string_value "set");
                        ("target", string_value path);
                        ("value", value)] |} in
      let w := addActiveCall (JobCall m_request replyHandler errorHandler) w in
      issue (CreateJob m_request) w
  end.

Definition Subscribe (targets : list string)
  (streamHandler : Handler ListenResponse) (errorHandler : Handler grpc_Status)
  (w : World) : World :=
  let request :=
    {| listen_thing := "vss";
       needs_initial_value := true;
       filters := match targets with
                  | [] => []
                  | front :: _ => [toDuoPath front]
                  end |} in
  let w := addActiveCall (ListenCall request streamHandler errorHandler) w in
  issue (ListenReport request) w.

Definition dquote : string := String (ascii_of_nat 34) EmptyString.

(** The [grpcResultHandler] closure of [GetDatapoints] and [SetDatapoints],
    for the call at [index] of the active calls; [name] is the operation named
    in the log line.  An exception that is not a [std::exception] passes the
    handler, and the assignment to [m_isComplete] is then not reached. *)
Definition grpcResultHandler {A : Type} (name : string) (index : nat)
  (replyHandler : Handler A) (errorHandler : Handler grpc_Status)
  (m_response : A) (status : grpc_Status) (w : World) : World :=
  let outcome :=
    if ok status then replyHandler m_response (state w)
    else errorHandler status (state w) in
  match outcome with
  | Returned s => set_complete index (with_state s w)
  | Threw e s =>
      if is_std_exception e then
        set_complete index
          (with_state
             (log error ("GRPC: Exception occurred during " ++ dquote ++ name
                           ++ dquote ++ ": " ++ what e) s) w)
      else escape e (with_state s w)
  end.

(** The closure [Subscribe] passes to [onData]: it calls the stream handler
    and nothing else. *)
Definition Subscribe_onData (streamHandler : Handler ListenResponse)
  (response : ListenResponse) (s : State) : Outcome :=
  streamHandler response s.

(** The closure [Subscribe] passes to [onFinish]. *)
Definition Subscribe_onFinish (index : nat) (errorHandler : Handler grpc_Status)
  (status : grpc_Status) (w : World) : World :=
  if negb (ok status) then
    match errorHandler status (state w) with
    | Returned s => set_complete index (with_state s w)
    | Threw e s => escape e (with_state s w)
    end
  else set_complete index w.

(** ** What the transport does with an active call *)

Inductive TransportEvent : Type :=
| GetReport_done (index : nat) (status : grpc_Status) (response : GetResponse)
| CreateJob_done (index : nat) (status : grpc_Status)
    (response : CreateJobResponse)
| ListenReport_read (index : nat) (response : ListenResponse)
| ListenReport_done (index : nat) (status : grpc_Status).

Definition call_at (w : World) (index : nat) : option Call :=
  match nth_error (m_activeCalls w) index with
  | Some c => Some (callData c)
  | None => None
  end.

(** The transport completes or feeds the call at [index]; an index that
    names no call of the right kind is no event at all.  An exception that
    leaves [Subscribe_onData] goes to the streaming call object, which is not
    among the sources; it is recorded like one that leaves a completion
    closure. *)
Definition deliver (w : World) (ev : TransportEvent) : World :=
  match ev with
  | GetReport_done index status response =>
      match call_at w index with
      | Some (GetCall _ replyHandler errorHandler) =>
          grpcResultHandler "GetDatapoints" index replyHandler errorHandler
            response status w
      | _ => w
      end
  | CreateJob_done index status response =>
      match call_at w index with
      | Some (JobCall _ replyHandler errorHandler) =>
          grpcResultHandler "SetDatapoints" index replyHandler errorHandler
            response status w
      | _ => w
      end
  | ListenReport_read index response =>
      match call_at w index with
      | Some (ListenCall _ streamHandler _) =>
          match Subscribe_onData streamHandler response (state w) with
          | Returned s => with_state s w
          | Threw e s => escape e (with_state s w)
          end
      | _ => w
      end
  | ListenReport_done index status =>
      match call_at w index with
      | Some (ListenCall _ _ errorHandler) =>
          Subscribe_onFinish index errorHandler status w
      | _ => w
      end
  end.

(** ** BrokerClient.cpp *)

Definition newline : string := String (ascii_of_nat 10) EmptyString.

(** A [size_t] as [%zu] prints it. *)
Definition decimal (n : nat) : string :=
  NilEmpty.string_of_uint (Nat.to_uint n).

(** [str.substr(str.find(tgt) + tgt.length())]: when [tgt] does not occur,
    [npos + tgt.length()] wraps around to [tgt.length() - 1]; [substr] throws
    [std::out_of_range] for a position beyond the end, with the text the
    GNU C++ library gives it. *)
Definition substr_after (str tgt : string) : Result string :=
  let pos :=
    match index 0 tgt str with
    | Some n => (n + String.length tgt)%nat
    | None => (String.length tgt - 1)%nat
    end in
  if (String.length str <? pos)%nat
  then throw (std_exception
                ("basic_string::substr: __pos (which is " ++ decimal pos
                   ++ ") > this->size() (which is "
                   ++ decimal (String.length str) ++ ")"))
  else ret (substring pos (String.length str - pos) str).

(** [std::map::emplace] on a map kept in key order: an existing key keeps
    its value. *)
Fixpoint map_emplace {V : Type} (key : string) (value : V)
  (m : list (string * V)) : list (string * V) :=
  match m with
  | [] => [(key, value)]
  | (k, v) :: rest =>
      match String.compare key k with
      | Lt => (key, value) :: m
      | Eq => m
      | Gt => (k, v) :: map_emplace key value rest
      end
  end.

Definition insertNewItem (subscription : nat) (reply : DataPointReply)
  (s : State) : State :=
  with_subscriptions
    (update subscription
       (fun sub => {| received := received sub ++ [reply];
                      terminal := terminal sub |})
       (subscriptions s)) s.

Definition insertSubscriptionError (subscription : nat) (status : Status)
  (s : State) : State :=
  with_subscriptions
    (update subscription
       (fun sub => {| received := received sub;
                      terminal := match terminal sub with
                                  | None => Some status
                                  | Some old => Some old
                                  end |})
       (subscriptions s)) s.

Section BrokerClient.

Variable platform : Platform.

(** [reply.DebugString()], the protobuf text format of a [GetResponse]. *)
Variable DebugString : GetResponse -> string.

Definition valueToString (value : Value) : string :=
  match value with
  | string_value s => s
  | number_value d => fmt_double platform d
  | bool_value b => if b then "true" else "false"
  | null_value => "null"
  | _ => ""
  end.

Definition convertDuoResponseToDataPointValue (path : string) (value : Value)
  : Result DataPointValue :=
  match value with
  | string_value s => ret (makeTypedValue STRING path s 0)
  | bool_value b => ret (makeTypedValue BOOL path b 0)
  | number_value d => ret (makeTypedValue DOUBLE path d 0)
  | null_value => ret (makeFailedValue DOUBLE path 0 NOT_AVAILABLE)
  | _ => throw (InvalidValueException "Unsupported value type in Duo response")
  end.

(** The reply closure of [getDatapoints]; it is only ever called for a
    request that was issued, hence with a first path to take. *)
Definition getDatapoints_replyHandler (result : nat) (datapoints : list string)
  : Handler GetResponse :=
  fun reply s =>
    let path := nth 0 datapoints "" in
    let s := log info (DebugString reply) s in
    match substr_after (DebugString reply) "item " with
    | inl e => Threw e s
    | inr _ =>
        let '(dataPointsMap, s) :=
          match item reply with
          | Some v =>
              match convertDuoResponseToDataPointValue path v with
              | inr convertedValue => ([(path, convertedValue)], s)
              | inl e =>
                  ([], log warn ("Failed to convert Duo response for path "
                                   ++ path ++ ": " ++ what e) s)
              end
          | None => ([], s)
          end in
        let rep := {| m_dataPointsMap := dataPointsMap;
                      m_duoGetResponse := reply |} in
        Returned (with_getResults
                    (update result (resolve (HasValue rep)) (getResults s)) s)
    end.

Definition getDatapoints_errorHandler (result : nat) : Handler grpc_Status :=
  fun status s =>
    let failure :=
      {| errorMessage := "RPC 'GetDatapoints' failed: " ++ error_message status |} in
    Returned (with_getResults
                (update result (resolve (HasError failure)) (getResults s)) s).

(** [getDatapoints]: the new [AsyncResult] is the slot at the end of
    [getResults]; its index is what the caller holds. *)
Definition getDatapoints (datapoints : list string) (w : World) : nat * World :=
  let result := List.length (getResults (state w)) in
  let w := with_state
             (with_getResults (getResults (state w) ++ [Pending]) (state w)) w in
  (result,
   GetDatapoints datapoints
     (getDatapoints_replyHandler result datapoints)
     (getDatapoints_errorHandler result) w).

Definition setDatapoints_replyHandler (result : nat)
  : Handler CreateJobResponse :=
  fun reply s =>
    let s := log info (CreateJobResponse_DebugString reply) s in
    match substr_after (CreateJobResponse_DebugString reply) "item " with
    | inl e => Threw e s
    | inr _ =>
        Returned (with_setResults
                    (update result (resolve (HasValue [])) (setResults s)) s)
    end.

Definition setDatapoints_errorHandler (result : nat) : Handler grpc_Status :=
  fun status s =>
    let failure :=
      {| errorMessage := "RPC 'SetDatapoints' failed: " ++ error_message status |} in
    Returned (with_setResults
                (update result (resolve (HasError failure)) (setResults s)) s).

(** The loop of [setDatapoints] that fills [datapoints_map]. *)
Fixpoint setDatapoints_map (datapoints : list DataPointValue)
  (datapoints_map : list (string * Value)) : Result (list (string * Value)) :=
  match datapoints with
  | [] => ret datapoints_map
  | datapoint :: rest =>
      match toDuoValue datapoint with
      | inl e => throw e
      | inr value =>
          setDatapoints_map rest
            (map_emplace (getPath datapoint) value datapoints_map)
      end
  end.

(** [setDatapoints]; an exception of [toDuoValue] leaves the function before
    anything is handed to the facade. *)
Definition setDatapoints (datapoints : list DataPointValue) (w : World)
  : Result (nat * World) :=
  match setDatapoints_map datapoints [] with
  | inl e => throw e
  | inr datapoints_map =>
      let result := List.length (setResults (state w)) in
      let w := with_state
                 (with_setResults (setResults (state w) ++ [Pending]) (state w))
                 w in
      ret (result,
           SetDatapoints datapoints_map
             (setDatapoints_replyHandler result)
             (setDatapoints_errorHandler result) w)
  end.

(** The first loop of the stream closure of [subscribe]: the pairs appended
    to [pathValueList], and the diagnostic output on the way. *)
Fixpoint subscribe_collect (query : string) (values : list Value)
  (pathValueList : list (string * Value)) (s : State)
  : list (string * Value) * State :=
  match values with
  | [] => (pathValueList, s)
  | value :: rest =>
      match value with
      | number_value d =>
          subscribe_collect query rest
            (pathValueList ++ [(query, value)])%list
            (print ("Number: " ++ ostream_double platform d ++ newline) s)
      | string_value str =>
          subscribe_collect query rest
            (pathValueList ++ [(query, value)])%list
            (print ("String: " ++ str ++ newline) s)
      | struct_value _ =>
          let leafValues := collectValuePaths value [] in
          subscribe_collect query rest
            (pathValueList ++ leafValues)%list
            (fold_left
               (fun s pl =>
                  log info ("Received update. path: " ++ fst pl ++ " value: "
                              ++ valueToString (snd pl)) s)
               leafValues s)
      | _ => subscribe_collect query rest pathValueList s
      end
  end.

(** The reply built for one pair of [pathValueList]: the path is not used. *)
Definition subscribe_reply (pl : string * Value) : DataPointReply :=
  setDuoGetResponse {| item := Some (snd pl) |}
    {| m_dataPointsMap := []; m_duoGetResponse := {| item := None |} |}.

Definition subscribe_streamHandler (subscription : nat) (query : string)
  : Handler ListenResponse :=
  fun response s =>
    let '(pathValueList, s) := subscribe_collect query (items response) [] s in
    Returned (fold_left
                (fun s pl => insertNewItem subscription (subscribe_reply pl) s)
                pathValueList s).

Definition subscribe_errorHandler (subscription : nat) : Handler grpc_Status :=
  fun status s =>
    let failure :=
      {| errorMessage := "RPC 'Subscribe' failed: " ++ error_message status |} in
    Returned (insertSubscriptionError subscription failure s).

Definition subscribe (query : string) (w : World) : nat * World :=
  let subscription := List.length (subscriptions (state w)) in
  let fresh := {| received := []; terminal := None |} in
  let w := with_state
             (with_subscriptions (subscriptions (state w) ++ [fresh]) (state w))
             w in
  let targets := [toDuoPath query] in
  (subscription,
   Subscribe targets
     (subscribe_streamHandler subscription query)
     (subscribe_errorHandler subscription) w).

(** ** The process: calls of the client and events of the transport *)

Inductive Event : Type :=
| call_getDatapoints (datapoints : list string)
| call_setDatapoints (datapoints : list DataPointValue)
| call_subscribe (query : string)
| transport (ev : TransportEvent).

Definition step (w : World) (ev : Event) : World :=
  match ev with
  | call_getDatapoints datapoints => snd (getDatapoints datapoints w)
  | call_setDatapoints datapoints =>
      match setDatapoints datapoints w with
      | inr (_, w') => w'
      | inl _ => w
      end
  | call_subscribe query => snd (subscribe query w)
  | transport ev => deliver w ev
  end.

Definition run (w : World) (events : list Event) : World :=
  fold_left step events w.

End BrokerClient.

(** The process before any call. *)
Definition initial : World :=
  {| state := {| logger := []; stdout := []; getResults := [];
                 setResults := []; subscriptions := [] |};
     m_activeCalls := []; issued := []; escaped := [] |}.

(** A platform for closed examples: [stod] recognises no literal and both
    renderings of a number are empty.  No statement below depends on what
    these functions return. *)
Definition bare_platform : Platform :=
  {| stod := fun _ => None;
     ostream_double := fun _ => "";
     fmt_double := fun _ => "" |}.

(** ** The notions the statements are written with *)

(** The keys tried at a struct node for [segment], in order: the segment,
    the segment with its dots turned into slashes, the remaining path joined
    by slashes, and that composite key with its dots turned into slashes. *)
Definition candidate_keys (segment : string) (following : list string)
  : list string :=
  let composite := String.concat "/" (segment :: following) in
  [segment; replace "." "/" segment; composite; replace "." "/" composite].

Fixpoint first_present (fields : list (string * Value)) (keys : list string)
  : option Value :=
  match keys with
  | [] => None
  | key :: rest =>
      match fields_find fields key with
      | Some v => Some v
      | None => first_present fields rest
      end
  end.

(** A string without a dot, as every segment [splitPath] produces. *)
Fixpoint dot_free (s : string) : bool :=
  match s with
  | EmptyString => true
  | String c rest => negb (Ascii.eqb c ".") && dot_free rest
  end.

(** The keys tried for a segment when no segment contains a dot. *)
Definition two_keys (segment : string) (following : list string) : list string :=
  [segment; String.concat "/" (segment :: following)].

(** The leaves of a value that are not structs, in iteration order, each
    with the keys that lead to it. *)
Fixpoint leaves (value : Value) : list (list string * Value) :=
  match value with
  | struct_value fields =>
      (fix visit (fs : list (string * Value)) : list (list string * Value) :=
         match fs with
         | [] => []
         | (key, nestedValue) :: rest =>
             (map (fun kl => (key :: fst kl, snd kl)) (leaves nestedValue)
                ++ visit rest)%list
         end) fields
  | _ => [([], value)]
  end.

(** A path written from its segments: the non-empty ones, slash-separated. *)
Definition slash_joined (segments : list string) : string :=
  String.concat "/" (filter (fun s => negb (string_empty s)) segments).

Definition flattened (currentPath : list string) (value : Value)
  : list (string * Value) :=
  map (fun kl => (slash_joined (currentPath ++ fst kl), snd kl)) (leaves value).

(** The pairs one value of a streamed item list gives rise to. *)
Definition emitted (query : string) (value : Value) : list (string * Value) :=
  match value with
  | number_value _ | string_value _ => [(query, value)]
  | struct_value _ => flattened [] value
  | _ => []
  end.

(** The values one value of a streamed list is delivered as: itself for a
    number or a text, its leaves for a struct, nothing otherwise. *)
Definition payloads (value : Value) : list Value :=
  match value with
  | number_value _ | string_value _ => [value]
  | struct_value _ => map snd (leaves value)
  | _ => []
  end.

(** The types the two switches of the converter have a case for. *)
Definition supported (t : DataPointValue_Type) : bool :=
  match t with INVALID => false | _ => true end.

(** The number 100.5, that is 201/2. *)
Definition speed_100_5 : double := binary_normalize dprec demax 201 (-1) false.

(** An item carries a path when its map of data points has an entry for it. *)
Definition carries_path (reply : DataPointReply) (path : string) : bool :=
  match map_find (m_dataPointsMap reply) path with
  | Some _ => true
  | None => false
  end.

(** An integer is exactly representable as a [double] when it is an integer
    of less than 53 bits times a power of two. *)
Definition exactly_representable (n : Z) : Prop :=
  exists m k : Z, 0 <= k /\ Z.abs m < 2 ^ 53 /\ n = m * 2 ^ k.

(** A value of the integral type [T] whose conversion to [double] is exact. *)
Definition representable_int (T : IntType) (n : Z) : Prop :=
  in_range T n = true /\ exactly_representable n.

(** A [float] is a binary32 number. *)
Definition is_float (f : float) : Prop := valid_binary fprec femax f = true.

(** The payloads of a typed value that are values of their C++ type and
    whose numeric content is exactly representable as a [double]. *)
Definition representable (t : DataPointValue_Type) : value_type t -> Prop :=
  match t return value_type t -> Prop with
  | INT8 => representable_int int8_t
  | INT8_ARRAY => Forall (representable_int int8_t)
  | INT16 => representable_int int16_t
  | INT16_ARRAY => Forall (representable_int int16_t)
  | INT32 => representable_int int32_t
  | INT32_ARRAY => Forall (representable_int int32_t)
  | INT64 => representable_int int64_t
  | INT64_ARRAY => Forall (representable_int int64_t)
  | UINT8 => representable_int uint8_t
  | UINT8_ARRAY => Forall (representable_int uint8_t)
  | UINT16 => representable_int uint16_t
  | UINT16_ARRAY => Forall (representable_int uint16_t)
  | UINT32 => representable_int uint32_t
  | UINT32_ARRAY => Forall (representable_int uint32_t)
  | UINT64 => representable_int uint64_t
  | UINT64_ARRAY => Forall (representable_int uint64_t)
  | FLOAT => is_float
  | FLOAT_ARRAY => Forall is_float
  | _ => fun _ => True
  end.

(** A mantissa with nothing shifted out of it. *)
Definition exact_record (m : positive) : shr_record :=
  {| shr_m := Zpos m; shr_r := false; shr_s := false |}.

(** What the callback invoked by the completion of a unary call does, when
    the event is such a completion. *)
Definition completion_outcome (w : World) (ev : TransportEvent)
  : option Outcome :=
  match ev with
  | GetReport_done index status response =>
      match call_at w index with
      | Some (GetCall _ replyHandler errorHandler) =>
          Some (if ok status then replyHandler response (state w)
                else errorHandler status (state w))
      | _ => None
      end
  | CreateJob_done index status response =>
      match call_at w index with
      | Some (JobCall _ replyHandler errorHandler) =>
          Some (if ok status then replyHandler response (state w)
                else errorHandler status (state w))
      | _ => None
      end
  | _ => None
  end.

Definition event_index (ev : TransportEvent) : nat :=
  match ev with
  | GetReport_done index _ _ | CreateJob_done index _ _
  | ListenReport_read index _ | ListenReport_done index _ => index
  end.

(** The log line of the completion closure for an exception [e]. *)
Definition completion_log_line (ev : TransportEvent) (e : Exn) : string :=
  "GRPC: Exception occurred during " ++ dquote
    ++ (match ev with
        | GetReport_done _ _ _ => "GetDatapoints"
        | _ => "SetDatapoints"
        end)
    ++ dquote ++ ": " ++ what e.

Definition is_complete (w : World) (index : nat) : option bool :=
  option_map m_isComplete (nth_error (m_activeCalls w) index).

Section Process.

Variable platform : Platform.
Variable DebugString : GetResponse -> string.

(** The worlds the client and the transport can bring about. *)
Definition reachable (w : World) : Prop :=
  exists events : list Event, w = run platform DebugString initial events.

(** The calls the client registers: their handlers are its closures, each
    holding the index of the result or subscription it was created for. *)
Inductive client_call (Pget Pset : nat -> Prop) : Call -> Prop :=
| client_GetCall (request : GetReportRequest) (result : nat)
    (datapoints : list string) :
    Pget result ->
    client_call Pget Pset
      (GetCall request (getDatapoints_replyHandler DebugString result datapoints)
               (getDatapoints_errorHandler result))
| client_JobCall (request : CreateJobRequest) (result : nat) :
    Pset result ->
    client_call Pget Pset
      (JobCall request (setDatapoints_replyHandler result)
               (setDatapoints_errorHandler result))
| client_ListenCall (request : ListenReportRequest) (subscription : nat)
    (query : string) :
    client_call Pget Pset
      (ListenCall request (subscribe_streamHandler platform subscription query)
                  (subscribe_errorHandler subscription)).

(** How a state may differ from an earlier one: each family of results is
    unchanged or changed at one allowed index. *)
Definition changed_within {A : Type} (P : nat -> Prop) (before after : list A)
  : Prop :=
  after = before \/ exists (i : nat) (f : A -> A), P i /\ after = update i f before.

(** Every call holds the index of a result that exists. *)
Definition bounded_calls (w : World) : Prop :=
  Forall (client_call
            (fun i => (i < List.length (getResults (state w)))%nat)
            (fun i => (i < List.length (setResults (state w)))%nat))
         (map callData (m_activeCalls w)).

(** No call holds the index [r] of the get results, which is pending. *)
Definition untouched_get (r : nat) (w : World) : Prop :=
  nth_error (getResults (state w)) r = Some Pending
  /\ Forall (client_call (fun i => i <> r) (fun _ => True))
            (map callData (m_activeCalls w)).

Definition untouched_set (r : nat) (w : World) : Prop :=
  nth_error (setResults (state w)) r = Some Pending
  /\ Forall (client_call (fun _ => True) (fun i => i <> r))
            (map callData (m_activeCalls w)).

End Process.

(** ** Further notions: paths, types, requests and replies *)

Fixpoint slash_free (s : string) : bool :=
  match s with
  | EmptyString => true
  | String c rest => negb (Ascii.eqb c "/") && slash_free rest
  end.

(** A segment as [splitPath] produces them: not empty, and without a dot. *)
Definition proper_segment (s : string) : bool :=
  negb (string_empty s) && dot_free s.

Fixpoint distinct (keys : list string) : bool :=
  match keys with
  | [] => true
  | k :: rest => negb (existsb (String.eqb k) rest) && distinct rest
  end.

(** No struct of the value lists a key twice, as in a protobuf map. *)
Fixpoint unique_keys (value : Value) : bool :=
  match value with
  | struct_value fields =>
      distinct (map fst fields)
      && (fix all (fs : list (string * Value)) : bool :=
            match fs with
            | [] => true
            | (_, nestedValue) :: rest => unique_keys nestedValue && all rest
            end) fields
  | _ => true
  end.

Definition is_array (t : DataPointValue_Type) : bool :=
  match t with
  | BOOL_ARRAY | INT8_ARRAY | INT16_ARRAY | INT32_ARRAY | INT64_ARRAY
  | UINT8_ARRAY | UINT16_ARRAY | UINT32_ARRAY | UINT64_ARRAY
  | FLOAT_ARRAY | DOUBLE_ARRAY | STRING_ARRAY => true
  | _ => false
  end.

Definition is_string_array (t : DataPointValue_Type) : bool :=
  match t with STRING_ARRAY => true | _ => false end.

(** The order of the keys of a [std::map<std::string, V>]. *)
Definition key_lt {V : Type} (a b : string * V) : Prop :=
  String.compare (fst a) (fst b) = Lt.

(** The texts for which [substr(find("item ") + 5)] does not throw: those
    that contain the marker, and those of four characters or more. *)
Definition reply_text_ok (text : string) : bool :=
  match index 0 "item " text with
  | Some _ => true
  | None => (4 <=? String.length text)%nat
  end.

(** The job document that sets [path] to [value]. *)
Definition job_document (path : string) (value : Value)
  : list (string * Value) :=
  [("action", string_value "set"); ("target", string_value path);
   ("value", value)].

(** The shape of the requests the client sends: the thing is always vss; a
    get names one slash-separated path; a job is a set action with a target
    and a value; a listen asks for the initial value and has one
    slash-separated filter. *)
Definition well_formed_rpc (r : Rpc) : bool :=
  match r with
  | GetReport request =>
      String.eqb (get_thing request) "vss" && dot_free (get_path request)
  | CreateJob request =>
      String.eqb (job_thing request) "vss"
      && match document request with
         | [("action", string_value "set"); ("target", string_value _);
            ("value", _)] => true
         | _ => false
         end
  | ListenReport request =>
      String.eqb (listen_thing request) "vss"
      && needs_initial_value request
      && match filters request with
         | [filter] => dot_free filter
         | _ => false
         end
  end.

(** The reply the reply closure of [getDatapoints] builds for the first path
    [front] and a response: the converted item under [front] when there is an
    item and it converts, no data point otherwise, and the response itself. *)
Definition get_reply (front : string) (response : GetResponse)
  : DataPointReply :=
  {| m_dataPointsMap :=
       match item response with
       | Some v =>
           match convertDuoResponseToDataPointValue front v with
           | inr convertedValue => [(front, convertedValue)]
           | inl _ => []
           end
       | None => []
       end;
     m_duoGetResponse := response |}.

(** The status the error closures of the client store for a failed call. *)
Definition failure_of (operation : string) (status : grpc_Status) : Status :=
  {| errorMessage := "RPC '" ++ operation ++ "' failed: "
                       ++ error_message status |}.

(** The SDK's exception for a value that cannot be converted. *)
Definition is_InvalidValueException (e : Exn) : bool :=
  match e with InvalidValueException _ => true | _ => false end.

(** The lines the stream closure of [subscribe] writes for one value of a
    message: to the standard output for a number or a text, to the log for
    each leaf of a struct. *)
Definition printed (platform : Platform) (value : Value) : list string :=
  match value with
  | number_value d => ["Number: " ++ ostream_double platform d ++ newline]
  | string_value str => ["String: " ++ str ++ newline]
  | _ => []
  end.

Definition logged (platform : Platform) (value : Value)
  : list (Level * string) :=
  match value with
  | struct_value _ =>
      map (fun pl => (info, "Received update. path: " ++ fst pl ++ " value: "
                              ++ valueToString platform (snd pl)))
          (flattened [] value)
  | _ => []
  end.

(** [at_depth n v root]: [v] is the value reached from [root] by going [n]
    times from a struct to the value of one of its fields. *)
Inductive at_depth : nat -> Value -> Value -> Prop :=
| at_root (v : Value) : at_depth 0 v v
| at_field (n : nat) (fields : list (string * Value)) (key : string)
    (nested v : Value) :
    In (key, nested) fields ->
    at_depth n v nested ->
    at_depth (S n) v (struct_value fields).

(** * Properties *)

(** ** Strings and values *)

Lemma append_assoc (a b c : string) : (a ++ b) ++ c = a ++ (b ++ c).
Proof. induction a as [|x a IH]; simpl; [reflexivity | now rewrite IH]. Qed.

(** Induction on a value that reaches the values nested in its fields and
    in its list. *)
Lemma Value_nested_ind (P : Value -> Prop) :
  P kind_not_set ->
  P null_value ->
  (forall d, P (number_value d)) ->
  (forall s, P (string_value s)) ->
  (forall b, P (bool_value b)) ->
  (forall fields, Forall (fun kv => P (snd kv)) fields -> P (struct_value fields)) ->
  (forall values, Forall P values -> P (list_value values)) ->
  forall v, P v.
Proof.
  intros Hnot Hnull Hnum Hstr Hbool Hstruct Hlist.
  fix IH 1.
  intros [ | | d | s | b | fields | values ].
  - exact Hnot.
  - exact Hnull.
  - apply Hnum.
  - apply Hstr.
  - apply Hbool.
  - apply Hstruct. revert fields.
    fix IHfields 1.
    intros [ | [k v] rest ]; constructor; [ apply IH | apply IHfields ].
  - apply Hlist. revert values.
    fix IHvalues 1.
    intros [ | v rest ]; constructor; [ apply IH | apply IHvalues ].
Qed.

(** ** Path resolution *)

Lemma prefix_length (s1 s2 : string) :
  prefix s1 s2 = true -> (String.length s1 <= String.length s2)%nat.
Proof.
  revert s2.
  induction s1 as [ | a s1 IH ]; intros s2 H; [ cbn; lia | ].
  destruct s2 as [ | b s2 ]; [ discriminate H | ].
  cbn in H. destruct (ascii_dec a b); [ | discriminate H ].
  cbn. specialize (IH s2 H). lia.
Qed.

Lemma index_bounds (s1 s2 : string) :
  forall n m : nat,
    index n s1 s2 = Some m ->
    (n <= m /\ m + String.length s1 <= String.length s2)%nat.
Proof.
  induction s2 as [ | b s2 IH ]; intros n m H.
  - destruct n; cbn in H; [ | discriminate H ].
    destruct s1; [ | discriminate H ].
    injection H as <-. cbn. lia.
  - destruct n as [ | n ].
    + cbn [index] in H.
      destruct (prefix s1 (String b s2)) eqn:Hprefix.
      * injection H as <-. apply prefix_length in Hprefix. lia.
      * destruct (index 0 s1 s2) as [ k | ] eqn:Hk; [ | discriminate H ].
        injection H as <-. apply IH in Hk. cbn [String.length]. lia.
    + cbn [index] in H.
      destruct (index n s1 s2) as [ k | ] eqn:Hk; [ | discriminate H ].
      injection H as <-. apply IH in Hk. cbn [String.length]. lia.
Qed.

(** The fuel of [splitPath] is enough: more of it changes nothing. *)
Lemma splitPath_loop_fuel (path : string) :
  forall (fuel fuel' start : nat),
    (String.length path - start < fuel)%nat ->
    (String.length path - start < fuel')%nat ->
    splitPath_loop fuel path start = splitPath_loop fuel' path start.
Proof.
  induction fuel as [ | fuel IH ]; intros fuel' start Hfuel Hfuel'; [ lia | ].
  destruct fuel' as [ | fuel' ]; [ lia | ].
  cbn [splitPath_loop].
  destruct (start <? String.length path)%nat eqn:Hstart; [ | reflexivity ].
  apply Nat.ltb_lt in Hstart.
  destruct (index start "." path) as [ next | ] eqn:Hnext; [ | reflexivity ].
  apply index_bounds in Hnext. cbn [String.length] in Hnext.
  f_equal. apply IH; lia.
Qed.

Lemma splitPath_fuel (path : string) (fuel : nat) :
  (String.length path < fuel)%nat ->
  splitPath_loop fuel path 0 = splitPath path.
Proof.
  intros H. unfold splitPath. apply splitPath_loop_fuel; lia.
Qed.


Lemma append_remaining_concat (combined : string) (following : list string) :
  append_remaining combined following = String.concat "/" (combined :: following).
Proof.
  revert combined.
  induction following as [ | s rest IH ]; intros combined.
  - reflexivity.
  - cbn [append_remaining]. rewrite IH.
    destruct rest as [ | t rest ].
    + reflexivity.
    + change (String.concat "/" ((combined ++ "/" ++ s) :: t :: rest))
        with ((combined ++ "/" ++ s) ++ "/" ++ String.concat "/" (t :: rest)).
      change (String.concat "/" (combined :: s :: t :: rest))
        with (combined ++ "/" ++ s ++ "/" ++ String.concat "/" (t :: rest)).
      now rewrite !append_assoc.
Qed.

(** The guard at the head of [locateLeaf] decides nothing the loop would not
    decide the same way. *)
Lemma locateLeaf_loop_eq (root : Value) (segments : list string) :
  locateLeaf_loop root segments = locateLeaf root segments.
Proof.
  unfold locateLeaf.
  destruct root, segments; reflexivity.
Qed.

Lemma accessField_first_present (fields : list (string * Value))
  (segment : string) (following : list string) :
  match accessField fields segment with
  | Some n => Some n
  | None => accessField fields (append_remaining segment following)
  end = first_present fields (candidate_keys segment following).
Proof.
  unfold accessField, candidate_keys. cbn [first_present].
  rewrite append_remaining_concat.
  destruct (fields_find fields segment); [ reflexivity | ].
  destruct (fields_find fields (replace "." "/" segment)); [ reflexivity | ].
  destruct (fields_find fields (String.concat "/" (segment :: following)));
    [ reflexivity | ].
  destruct (fields_find fields
              (replace "." "/" (String.concat "/" (segment :: following))));
    reflexivity.
Qed.

(** One round of [locateLeaf] at a struct node. *)
Lemma locateLeaf_struct_step (fields : list (string * Value))
  (segment : string) (following : list string) :
  locateLeaf (struct_value fields) (segment :: following) =
    match first_present fields (candidate_keys segment following) with
    | Some next => locateLeaf next following
    | None => None
    end.
Proof.
  unfold locateLeaf at 1. cbn [has_struct_value negb orb List.length Nat.eqb].
  cbn [locateLeaf_loop].
  rewrite accessField_first_present.
  destruct (first_present fields (candidate_keys segment following));
    [ apply locateLeaf_loop_eq | reflexivity ].
Qed.

(** C4, as amended.  [locateLeaf] returns the node it stands on when that
    node is not a struct or no segment is left; at a struct node it takes the
    value under the first key present among the segment, the segment with
    dots replaced by slashes, the remaining path joined by slashes, and that
    composite key with dots replaced by slashes, and goes on from there with
    the following segments; with none of the four present the result is
    NotFound.  For the root with 5 under "a" then "b", the segments a, b give
    5 and a, c give NotFound; for the scalar root 5, the segment a gives 5. *)
Theorem locateLeaf_resolution :
  (forall (root : Value) (segments : list string),
      locateLeaf root segments =
        match root, segments with
        | struct_value fields, segment :: following =>
            match first_present fields (candidate_keys segment following) with
            | Some next => locateLeaf next following
            | None => None
            end
        | _, _ => Some root
        end)
  /\ (let five := number_value (double_of_Z 5) in
      let root := struct_value [("a", struct_value [("b", five)])] in
      locateLeaf root ["a"; "b"] = Some five
      /\ locateLeaf root ["a"; "c"] = None
      /\ locateLeaf five ["a"] = Some five).
Proof.
  split.
  - intros root segments.
    destruct root as [ | | d | s | b | fields | values ];
      try (destruct segments; reflexivity).
    destruct segments as [ | segment following ]; [ reflexivity | ].
    apply locateLeaf_struct_step.
  - cbv zeta. repeat split; reflexivity.
Qed.

(** C4, as stated, fails: with the value 5 stored under the key a/b/c and
    the segments a.b and c, none of the three keys of the claim is present
    (the segment, the segment with slashes, the composite key a.b/c), and
    [locateLeaf] still finds 5, under the composite key with slashes. *)
Lemma locateLeaf_three_keys_counterexample :
  let five := number_value (double_of_Z 5) in
  let fields := [("a/b/c", five)] in
  fields_find fields "a.b" = None
  /\ fields_find fields (replace "." "/" "a.b") = None
  /\ fields_find fields (String.concat "/" ["a.b"; "c"]) = None
  /\ locateLeaf (struct_value fields) ["a.b"; "c"] = Some five
  /\ locateLeaf (struct_value fields) ["a.b"; "c"] <> None.
Proof.
  cbv zeta. repeat split; try reflexivity. discriminate.
Qed.

Lemma replace_dot_free (s : string) :
  dot_free s = true -> replace "." "/" s = s.
Proof.
  induction s as [ | c s IH ]; [ reflexivity | ].
  cbn [dot_free replace]. intros H. apply andb_prop in H.
  destruct H as [Hc Hs]. apply negb_true_iff in Hc.
  now rewrite Hc, IH.
Qed.

Lemma dot_free_append (a b : string) :
  dot_free (a ++ b) = dot_free a && dot_free b.
Proof.
  induction a as [ | c a IH ]; [ reflexivity | ].
  cbn [append dot_free]. now rewrite IH, andb_assoc.
Qed.

Lemma dot_free_concat (l : list string) :
  forallb dot_free l = true -> dot_free (String.concat "/" l) = true.
Proof.
  induction l as [ | s l IH ]; [ reflexivity | ].
  cbn [forallb]. intros H. apply andb_prop in H. destruct H as [Hs Hl].
  destruct l as [ | t l ]; [ exact Hs | ].
  change (String.concat "/" (s :: t :: l))
    with (s ++ "/" ++ String.concat "/" (t :: l)).
  rewrite !dot_free_append, Hs, (IH Hl). reflexivity.
Qed.

(** With segments free of dots, the keys tried at a struct node are the
    segment and the remaining path joined by slashes. *)
Lemma locateLeaf_dot_free_segments (fields : list (string * Value))
  (segment : string) (following : list string) :
  forallb dot_free (segment :: following) = true ->
  locateLeaf (struct_value fields) (segment :: following) =
    match first_present fields (two_keys segment following) with
    | Some next => locateLeaf next following
    | None => None
    end.
Proof.
  intros Hfree.
  rewrite locateLeaf_struct_step.
  unfold candidate_keys, two_keys. cbn [first_present].
  rewrite (replace_dot_free (String.concat "/" (segment :: following)))
    by now apply dot_free_concat.
  cbn [forallb] in Hfree. apply andb_prop in Hfree. destruct Hfree as [Hs _].
  rewrite (replace_dot_free segment Hs).
  destruct (fields_find fields segment); [ reflexivity | ].
  destruct (fields_find fields (String.concat "/" (segment :: following)));
    reflexivity.
Qed.

Lemma substring_0_0 (s : string) : substring 0 0 s = "".
Proof. destruct s; reflexivity. Qed.

Lemma dot_free_substring (s : string) :
  forall n m : nat,
    (forall p : nat, (n <= p)%nat -> (p < n + m)%nat -> substring p 1 s <> ".") ->
    dot_free (substring n m s) = true.
Proof.
  induction s as [ | c s IH ]; intros n m H.
  - destruct n, m; reflexivity.
  - destruct n as [ | n ].
    + destruct m as [ | m ]; [ reflexivity | ].
      cbn [substring dot_free].
      apply andb_true_intro. split.
      * apply negb_true_iff. apply Ascii.eqb_neq. intros ->.
        apply (H 0%nat); [ lia | lia | ].
        cbn [substring]. now rewrite substring_0_0.
      * apply IH. intros p Hp1 Hp2.
        apply (H (S p)); lia.
    + cbn [substring]. apply IH. intros p Hp1 Hp2.
      apply (H (S p)); lia.
Qed.

Lemma splitPath_loop_dot_free (path : string) :
  forall fuel start : nat,
    forallb dot_free (splitPath_loop fuel path start) = true.
Proof.
  induction fuel as [ | fuel IH ]; intros start; [ reflexivity | ].
  cbn [splitPath_loop].
  destruct (start <? String.length path)%nat; [ | reflexivity ].
  destruct (index start "." path) as [ next | ] eqn:Hnext.
  - rewrite forallb_app, IH, andb_true_r.
    destruct (start <? next)%nat eqn:Hlt; [ | reflexivity ].
    apply Nat.ltb_lt in Hlt.
    cbn [forallb]. rewrite andb_true_r.
    apply dot_free_substring. intros p Hp1 Hp2.
    apply (index_correct2 start next "." path Hnext p); lia.
  - cbn [forallb]. rewrite andb_true_r.
    apply dot_free_substring. intros p Hp1 Hp2.
    apply (index_correct3 start p "." path Hnext); [ discriminate | lia ].
Qed.

(** The segments [fromDuoValue] passes to [locateLeaf] are free of dots. *)
Lemma splitPath_dot_free (path : string) :
  forallb dot_free (splitPath path) = true.
Proof. apply splitPath_loop_dot_free. Qed.

(** ** Flattening *)

Lemma joinPathSegments_from_spec (path : string) (segments : list string) :
  joinPathSegments_from path segments =
    match filter (fun s => negb (string_empty s)) segments with
    | [] => path
    | kept =>
        if string_empty path then String.concat "/" kept
        else path ++ "/" ++ String.concat "/" kept
    end.
Proof.
  revert path.
  induction segments as [ | segment rest IH ]; intros path.
  - reflexivity.
  - cbn [joinPathSegments_from filter].
    destruct segment as [ | c segment ].
    + cbn [string_empty negb]. apply IH.
    + cbn [string_empty negb]. rewrite IH.
      set (kept := filter (fun s => negb (string_empty s)) rest).
      destruct path as [ | p path ].
      * cbn [string_empty negb append]. destruct kept; reflexivity.
      * cbn [string_empty negb].
        destruct kept as [ | k kept ].
        -- cbn [String.concat]. now rewrite append_assoc.
        -- change (String.concat "/" (String c segment :: k :: kept))
             with (String c segment ++ "/" ++ String.concat "/" (k :: kept)).
           cbn [append string_empty]. now rewrite !append_assoc.
Qed.

Lemma joinPathSegments_slash_joined (segments : list string) :
  joinPathSegments segments = slash_joined segments.
Proof.
  unfold joinPathSegments, slash_joined.
  rewrite joinPathSegments_from_spec.
  destruct (filter (fun s => negb (string_empty s)) segments); reflexivity.
Qed.

Lemma collectValuePaths_flattened (value : Value) :
  forall currentPath : list string,
    collectValuePaths value currentPath =
      match value, currentPath with
      | struct_value _, _ | _, _ :: _ => flattened currentPath value
      | _, [] => []
      end.
Proof.
  induction value as [ | | d | s | b | fields IH | values IH ]
    using Value_nested_ind; intros currentPath;
    try (destruct currentPath; cbn [collectValuePaths];
         [ reflexivity
         | unfold flattened; cbn [leaves map fst snd];
           now rewrite app_nil_r, joinPathSegments_slash_joined ]).
  unfold flattened. cbn [collectValuePaths leaves].
  induction IH as [ | [key nested] rest Hnested _ IHrest ].
  - destruct currentPath; reflexivity.
  - cbn [snd] in Hnested.
    rewrite map_app, map_map. cbn [fst snd].
    transitivity
      ((flattened (currentPath ++ [key]) nested ++
        map (fun kl => (slash_joined (currentPath ++ fst kl), snd kl))
          ((fix visit (fs : list (string * Value)) : list (list string * Value) :=
              match fs with
              | [] => []
              | (key0, nestedValue) :: rest0 =>
                  map (fun kl => (key0 :: fst kl, snd kl)) (leaves nestedValue)
                    ++ visit rest0
              end) rest))%list).
    + f_equal.
      * rewrite Hnested.
        destruct nested; try reflexivity;
          destruct currentPath; reflexivity.
      * destruct currentPath; exact IHrest.
    + destruct currentPath; f_equal; unfold flattened;
        apply map_ext; intros [ks l]; cbn [fst snd];
        now rewrite <- app_assoc.
Qed.

Lemma leaves_not_struct (value : Value) :
  Forall (fun kl => has_struct_value (snd kl) = false) (leaves value).
Proof.
  induction value as [ | | d | s | b | fields IH | values IH ]
    using Value_nested_ind;
    try (repeat constructor).
  cbn [leaves].
  induction IH as [ | [key nested] rest Hnested _ IHrest ].
  - constructor.
  - apply Forall_app. split; [ | exact IHrest ].
    apply Forall_map. cbn [snd] in *. exact Hnested.
Qed.

(** C5, as amended.  [collectValuePaths] descends through struct nodes,
    appending each key to the accumulated path, and emits one pair per leaf
    that is not a struct, in the iteration order of the fields; the path of a
    pair is the accumulated path followed by the keys leading to the leaf,
    empty segments dropped, joined by slashes.  A value that is not a struct
    is emitted only under an accumulated path that is not empty.  The struct
    with 1 under x, y and 2 under x, z, flattened under p, gives exactly
    (p/x/y, 1) and (p/x/z, 2). *)
Theorem collectValuePaths_flatten :
  (forall (value : Value) (currentPath : list string),
      collectValuePaths value currentPath =
        match value, currentPath with
        | struct_value _, _ | _, _ :: _ => flattened currentPath value
        | _, [] => []
        end)
  /\ (forall value : Value,
         Forall (fun kl => has_struct_value (snd kl) = false) (leaves value))
  /\ (let one := number_value (double_of_Z 1) in
      let two := number_value (double_of_Z 2) in
      collectValuePaths
        (struct_value [("x", struct_value [("y", one); ("z", two)])]) ["p"]
      = [("p/x/y", one); ("p/x/z", two)]).
Proof.
  split; [ | split ].
  - intros value currentPath. apply collectValuePaths_flattened.
  - apply leaves_not_struct.
  - reflexivity.
Qed.

(** C5, as stated, fails: flattening the struct of the claim under the
    prefix p gives no pair with the dotted path p.x.y or p.x.z; the paths are
    joined by slashes. *)
Lemma collectValuePaths_dotted_counterexample :
  let one := number_value (double_of_Z 1) in
  let two := number_value (double_of_Z 2) in
  let pairs :=
    collectValuePaths
      (struct_value [("x", struct_value [("y", one); ("z", two)])]) ["p"] in
  pairs <> [("p.x.y", one); ("p.x.z", two)]
  /\ ~ In "p.x.y" (map fst pairs)
  /\ ~ In "p.x.z" (map fst pairs).
Proof.
  cbv zeta. split; [ | split ].
  - cbn. intros H. discriminate H.
  - cbn. intros [H | [H | []]]; discriminate H.
  - cbn. intros [H | [H | []]]; discriminate H.
Qed.

(** ** The get request *)

Lemma get_replace (from to : ascii) (s : string) (i : nat) :
  String.get i (replace from to s) =
    option_map (fun c => if Ascii.eqb c from then to else c) (String.get i s).
Proof.
  revert i.
  induction s as [ | c s IH ]; intros i.
  - reflexivity.
  - destruct i as [ | i ]; cbn [replace String.get option_map];
      [ reflexivity | apply IH ].
Qed.

Lemma length_replace (from to : ascii) (s : string) :
  String.length (replace from to s) = String.length s.
Proof.
  induction s as [ | c s IH ]; cbn [replace String.length];
    [ reflexivity | now rewrite IH ].
Qed.

(** C7.  For a list of paths that is not empty, the facade hands exactly one
    request to the stub, with thing vss and as path the first requested path
    with every dot replaced by a slash; the paths after the first do not
    enter the request, nor anything else the facade does. *)
Theorem GetDatapoints_first_path_only :
  forall (front : string) (others : list string)
         (replyHandler : Handler GetResponse)
         (errorHandler : Handler grpc_Status) (w : World),
    issued (GetDatapoints (front :: others) replyHandler errorHandler w)
      = (issued w ++ [GetReport {| get_thing := "vss";
                                   get_path := toDuoPath front |}])%list
    /\ GetDatapoints (front :: others) replyHandler errorHandler w
       = GetDatapoints [front] replyHandler errorHandler w
    /\ String.length (toDuoPath front) = String.length front
    /\ (forall i : nat,
           String.get i (toDuoPath front) =
             option_map (fun c => if Ascii.eqb c "." then "/"%char else c)
                        (String.get i front)).
Proof.
  intros front others replyHandler errorHandler w.
  split; [ reflexivity | split; [ reflexivity | split ] ].
  - apply length_replace.
  - intros i. apply get_replace.
Qed.

(** ** The stream closure of subscribe *)

Lemma update_ext {A : Type} (f g : A -> A) (i : nat) (l : list A) :
  (forall x, f x = g x) -> update i f l = update i g l.
Proof.
  intros Hfg. revert i.
  induction l as [ | x l IH ]; intros [ | i ]; cbn [update];
    try reflexivity.
  - now rewrite Hfg.
  - now rewrite IH.
Qed.

Lemma update_id {A : Type} (i : nat) (l : list A) :
  update i (fun x => x) l = l.
Proof.
  revert i.
  induction l as [ | x l IH ]; intros [ | i ]; cbn [update];
    try reflexivity.
  now rewrite IH.
Qed.

Lemma update_update {A : Type} (f g : A -> A) (i : nat) (l : list A) :
  update i g (update i f l) = update i (fun x => g (f x)) l.
Proof.
  revert i.
  induction l as [ | x l IH ]; intros [ | i ]; cbn [update];
    try reflexivity.
  now rewrite IH.
Qed.

Lemma length_update {A : Type} (f : A -> A) (i : nat) (l : list A) :
  List.length (update i f l) = List.length l.
Proof.
  revert i.
  induction l as [ | x l IH ]; intros [ | i ]; cbn [update List.length];
    try reflexivity.
  now rewrite IH.
Qed.

Lemma nth_error_update_other {A : Type} (f : A -> A) (i j : nat) (l : list A) :
  i <> j -> nth_error (update i f l) j = nth_error l j.
Proof.
  revert i j.
  induction l as [ | x l IH ]; intros [ | i ] [ | j ] Hij;
    cbn [update nth_error]; try reflexivity.
  - now contradiction Hij.
  - apply IH. intros ->. now apply Hij.
Qed.

Lemma insertNewItem_all (subscription : nat) (replies : list DataPointReply)
  (s : State) :
  fold_left (fun s r => insertNewItem subscription r s) replies s =
    with_subscriptions
      (update subscription
         (fun sub => {| received := received sub ++ replies;
                        terminal := terminal sub |})
         (subscriptions s)) s.
Proof.
  revert s.
  induction replies as [ | r replies IH ]; intros s.
  - cbn [fold_left].
    rewrite (update_ext _ (fun x => x)).
    + rewrite update_id. now destruct s.
    + intros [items err]. cbn. now rewrite app_nil_r.
  - cbn [fold_left]. rewrite IH.
    unfold insertNewItem, with_subscriptions. cbn.
    rewrite update_update. f_equal.
    apply update_ext. intros [items err]. cbn.
    now rewrite <- app_assoc.
Qed.

Lemma fold_left_through_map {A B C : Type} (g : C -> B -> C) (f : A -> B)
  (l : list A) (c : C) :
  fold_left (fun c x => g c (f x)) l c = fold_left g (map f l) c.
Proof.
  revert c.
  induction l as [ | x l IH ]; intros c; [ reflexivity | apply IH ].
Qed.

Section SubscribeFacts.

Variable platform : Platform.

Lemma subscribe_collect_pairs (query : string) (values : list Value) :
  forall (pathValueList : list (string * Value)) (s : State),
    fst (subscribe_collect platform query values pathValueList s) =
      (pathValueList ++ flat_map (emitted query) values)%list.
Proof.
  induction values as [ | value rest IH ]; intros pathValueList s.
  - cbn. now rewrite app_nil_r.
  - destruct value; cbn [subscribe_collect flat_map emitted];
      rewrite IH; cbn [app]; try reflexivity;
      try (now rewrite <- app_assoc).
    rewrite <- app_assoc. do 2 f_equal.
    apply collectValuePaths_flattened.
Qed.

Lemma fold_left_log_state (f : string * Value -> string)
  (l : list (string * Value)) (s : State) :
  let s' := fold_left (fun s pl => log info (f pl) s) l s in
  subscriptions s' = subscriptions s
  /\ getResults s' = getResults s
  /\ setResults s' = setResults s.
Proof.
  revert s.
  induction l as [ | pl l IH ]; intros s; [ cbn; auto | ].
  cbn [fold_left]. apply (IH (log info (f pl) s)).
Qed.

Lemma subscribe_collect_state (query : string) (values : list Value) :
  forall (pathValueList : list (string * Value)) (s : State),
    let s' := snd (subscribe_collect platform query values pathValueList s) in
    subscriptions s' = subscriptions s
    /\ getResults s' = getResults s
    /\ setResults s' = setResults s.
Proof.
  induction values as [ | value rest IH ]; intros pathValueList s.
  - cbn. auto.
  - destruct value; cbn [subscribe_collect]; try apply IH.
    + apply (IH _ (print _ s)).
    + apply (IH _ (print _ s)).
    + match goal with
      | |- context [ subscribe_collect _ _ _ ?acc ?st ] =>
          destruct (IH acc st) as (H1 & H2 & H3);
          destruct (fold_left_log_state
                      (fun pl => "Received update. path: " ++ fst pl
                                   ++ " value: " ++ valueToString platform (snd pl))
                      (collectValuePaths (struct_value fields) []) s)
            as (G1 & G2 & G3)
      end.
      cbv zeta in *. rewrite H1, H2, H3. auto.
Qed.

Lemma emitted_payloads (query : string) (values : list Value) :
  map snd (flat_map (emitted query) values) = flat_map payloads values.
Proof.
  induction values as [ | value rest IH ]; [ reflexivity | ].
  cbn [flat_map]. rewrite map_app, IH. f_equal.
  destruct value; try reflexivity.
  cbn [emitted payloads]. unfold flattened. now rewrite map_map.
Qed.

Lemma subscribe_streamHandler_received (subscription : nat) (query : string)
  (response : ListenResponse) (s : State) :
  exists s' : State,
    subscribe_streamHandler platform subscription query response s
    = Returned s'
    /\ subscriptions s' =
         update subscription
           (fun sub =>
              {| received :=
                   (received sub
                      ++ map (fun leaf =>
                                {| m_dataPointsMap := [];
                                   m_duoGetResponse := {| item := Some leaf |} |})
                             (flat_map payloads (items response)))%list;
                 terminal := terminal sub |})
           (subscriptions s).
Proof.
  pose proof (subscribe_collect_pairs query (items response) [] s) as Hpairs.
  pose proof (subscribe_collect_state query (items response) [] s) as Hstate.
  cbn [app] in Hpairs. cbv zeta in Hstate.
  unfold subscribe_streamHandler.
  destruct (subscribe_collect platform query (items response) [] s)
    as [pathValueList s1] eqn:Hcollect.
  cbn [fst snd] in Hpairs, Hstate. destruct Hstate as (Hsubs & _ & _).
  eexists. split; [ reflexivity | ].
  rewrite (fold_left_through_map
             (fun s r => insertNewItem subscription r s) subscribe_reply).
  rewrite insertNewItem_all. cbn [subscriptions with_subscriptions].
  rewrite Hsubs, Hpairs, <- (emitted_payloads query), map_map. reflexivity.
Qed.

(** C10, as amended.  Of the values of a streamed message only numbers,
    texts and structs produce items of the subscription: a number or a text
    one item, a struct one item per leaf that is not a struct, in the order
    of the values and of the leaves; a bool, a null or any other value
    produces none.  A delivered item holds the value, or the leaf, as its
    response payload and nothing else: its map of data points is empty, it
    carries no path, and the items are the same whatever query was
    subscribed.  A path is paired with a value only in the list the closure
    collects on the way: the subscribed query for a number or a text, and for
    the leaf of a struct its own keys joined by slashes, the query taking no
    part. *)
Theorem subscribe_streamHandler_delivers :
  forall (subscription : nat) (query other : string)
         (response : ListenResponse) (s : State),
    let delivered :=
      map (fun leaf => {| m_dataPointsMap := [];
                          m_duoGetResponse := {| item := Some leaf |} |})
          (flat_map payloads (items response)) in
    (exists s' : State,
        subscribe_streamHandler platform subscription query response s
        = Returned s'
        /\ subscriptions s' =
             update subscription
               (fun sub => {| received := received sub ++ delivered;
                              terminal := terminal sub |})
               (subscriptions s))
    /\ (forall (b : bool), payloads (bool_value b) = [])
    /\ payloads null_value = []
    /\ payloads kind_not_set = []
    /\ (forall values, payloads (list_value values) = [])
    /\ (forall d, payloads (number_value d) = [number_value d])
    /\ (forall t, payloads (string_value t) = [string_value t])
    /\ (forall fields,
           payloads (struct_value fields)
           = map snd (leaves (struct_value fields)))
    /\ (forall path : string,
           forallb (fun reply => empty reply && negb (carries_path reply path))
                   delivered = true)
    /\ subscriptions
         (state_of (subscribe_streamHandler platform subscription other
                      response s))
       = subscriptions
           (state_of (subscribe_streamHandler platform subscription query
                        response s))
    /\ fst (subscribe_collect platform query (items response) [] s)
       = flat_map
           (fun value =>
              match value with
              | number_value _ | string_value _ => [(query, value)]
              | struct_value _ =>
                  map (fun kl => (slash_joined (fst kl), snd kl)) (leaves value)
              | _ => []
              end)
           (items response).
Proof.
  intros subscription query other response s delivered.
  destruct (subscribe_streamHandler_received subscription query response s)
    as (s1 & Hreturns & Hsubs).
  destruct (subscribe_streamHandler_received subscription other response s)
    as (s2 & Hreturns' & Hsubs').
  split; [ exists s1; split; [ exact Hreturns | exact Hsubs ] | ].
  repeat (split; [ reflexivity | ]).
  split; [ | split ].
  - intros path. apply forallb_forall. intros reply Hin.
    apply in_map_iff in Hin. destruct Hin as (leaf & <- & _). reflexivity.
  - rewrite Hreturns, Hreturns'. cbn [state_of]. now rewrite Hsubs, Hsubs'.
  - rewrite (subscribe_collect_pairs query (items response) [] s).
    reflexivity.
Qed.

End SubscribeFacts.

(** C6, as amended.  [subscribe] for Vehicle.Speed issues one listen request
    with thing vss, [needs_initial_value] set and the filter Vehicle/Speed;
    when the stream then delivers the struct with 100.5 under Speed, the
    subscription receives exactly one item, whose response payload is the
    number 100.5 and whose map of data points is empty; the path the closure
    pairs with the leaf while flattening is Speed.  [fromDuoValue], asked for
    the subscribed path at the type DOUBLE, decodes that payload to 100.5. *)
Theorem subscribe_Vehicle_Speed_item :
  forall platform : Platform,
    let leaf := number_value speed_100_5 in
    let response := {| items := [struct_value [("Speed", leaf)]] |} in
    let w1 := snd (subscribe platform "Vehicle.Speed" initial) in
    let w2 := deliver w1 (ListenReport_read 0 response) in
    issued w1 = [ListenReport {| listen_thing := "vss";
                                 needs_initial_value := true;
                                 filters := ["Vehicle/Speed"] |}]
    /\ fst (subscribe_collect platform "Vehicle.Speed" (items response) []
              (state w1)) = [("Speed", leaf)]
    /\ map received (subscriptions (state w2))
       = [[ {| m_dataPointsMap := [];
               m_duoGetResponse := {| item := Some leaf |} |} ]]
    /\ escaped w2 = []
    /\ (forall timestamp : Timestamp,
           fromDuoValue platform "Vehicle.Speed" DOUBLE leaf timestamp
           = ret (makeTypedValue DOUBLE "Vehicle.Speed" speed_100_5 timestamp)).
Proof.
  intros platform. cbv zeta. repeat split; reflexivity.
Qed.

(** C6, as stated, fails: the one item delivered for the streamed struct
    carries no path at all, so not Vehicle.Speed, and the path paired with
    its leaf is Speed. *)
Lemma subscribe_item_path_counterexample :
  let leaf := number_value speed_100_5 in
  let response := {| items := [struct_value [("Speed", leaf)]] |} in
  let w1 := snd (subscribe bare_platform "Vehicle.Speed" initial) in
  let w2 := deliver w1 (ListenReport_read 0 response) in
  exists delivered : DataPointReply,
    map received (subscriptions (state w2)) = [[delivered]]
    /\ carries_path delivered "Vehicle.Speed" = false
    /\ getUntyped delivered "Vehicle.Speed"
       = throw (InvalidValueException
                  "Vehicle.Speed is not contained in reply!")
    /\ map fst (fst (subscribe_collect bare_platform "Vehicle.Speed"
                       (items response) [] (state w1)))
       <> ["Vehicle.Speed"].
Proof.
  cbv zeta. eexists. split; [ reflexivity | ].
  split; [ reflexivity | split; [ reflexivity | ] ].
  cbn. intros H. discriminate H.
Qed.

(** C10, as stated, fails: the item delivered for a streamed number, and the
    one for a streamed text, carry no path, so not the subscribed query
    either; asking such an item for the query throws, and a subscription for
    another query receives the very same items. *)
Lemma subscribe_item_query_counterexample :
  let response := {| items := [number_value speed_100_5; string_value "fast"] |} in
  let after (query : string) :=
    deliver (snd (subscribe bare_platform query initial))
            (ListenReport_read 0 response) in
  exists number_item text_item : DataPointReply,
    map received (subscriptions (state (after "Vehicle.Speed")))
    = [[number_item; text_item]]
    /\ carries_path number_item "Vehicle.Speed" = false
    /\ carries_path text_item "Vehicle.Speed" = false
    /\ getUntyped number_item "Vehicle.Speed"
       = throw (InvalidValueException
                  "Vehicle.Speed is not contained in reply!")
    /\ map received (subscriptions (state (after "Vehicle.Width")))
       = map received (subscriptions (state (after "Vehicle.Speed"))).
Proof.
  cbv zeta. do 2 eexists. split; [ reflexivity | ].
  repeat split; reflexivity.
Qed.

(** ** Decoding an absent value *)

(** C2.  For each of the 24 supported types, when the leaf located for the
    requested path is null, [fromDuoValue] returns, without throwing, a value
    of the expected type in the failure state [NOT_AVAILABLE], with the
    requested path and the given timestamp. *)
Theorem fromDuoValue_null_leaf :
  forall (platform : Platform) (path : string)
         (expectedType : DataPointValue_Type) (value : Value)
         (timestamp : Timestamp),
    supported expectedType = true ->
    locateLeaf value (splitPath path) = Some null_value ->
    fromDuoValue platform path expectedType value timestamp
      = ret (makeFailedValue expectedType path timestamp NOT_AVAILABLE).
Proof.
  intros platform path expectedType value timestamp Hsupported Hleaf.
  unfold fromDuoValue. rewrite Hleaf. cbn [has_null_value].
  destruct expectedType; first [ discriminate Hsupported | reflexivity ].
Qed.

Lemma fromDuoValue_null_leaf_witness :
  let value := struct_value [("Vehicle", struct_value [("Speed", null_value)])] in
  supported FLOAT_ARRAY = true
  /\ locateLeaf value (splitPath "Vehicle.Speed") = Some null_value
  /\ fromDuoValue bare_platform "Vehicle.Speed" FLOAT_ARRAY value 7
     = ret (makeFailedValue FLOAT_ARRAY "Vehicle.Speed" 7 NOT_AVAILABLE).
Proof.
  cbv zeta. split; [ reflexivity | split; [ reflexivity | ] ].
  apply (fromDuoValue_null_leaf bare_platform "Vehicle.Speed" FLOAT_ARRAY);
    reflexivity.
Defined.

(** ** Conversion to an integral type *)

Lemma digit_value_nonneg (c : ascii) (d : Z) :
  digit_value c = Some d -> 0 <= d.
Proof.
  unfold digit_value.
  repeat match goal with
         | |- context [ if ?b then _ else _ ] => destruct b
         end; intros [= <-]; lia.
Qed.

Lemma read_digits_nonneg (base : Z) (s : string) :
  forall (acc : Z) (count : nat),
    0 <= base -> 0 <= acc -> 0 <= fst (read_digits base s acc count).
Proof.
  induction s as [ | c s IH ]; intros acc count Hbase Hacc; [ exact Hacc | ].
  cbn [read_digits]. unfold digit_in_base.
  destruct (digit_value c) as [ d | ] eqn:Hd; [ | exact Hacc ].
  destruct (d <? base); [ | exact Hacc ].
  apply IH; [ exact Hbase | ].
  apply digit_value_nonneg in Hd. nia.
Qed.

Lemma subject_sequence_nonneg (str : string) (negative : bool)
  (magnitude : Z) (idx : nat) :
  subject_sequence str = Some (negative, magnitude, idx) -> 0 <= magnitude.
Proof.
  unfold subject_sequence.
  destruct (skip_spaces str) as [nspace s1].
  destruct (match s1 with
            | String "-" r => (true, 1%nat, r)
            | String "+" r => (false, 1%nat, r)
            | _ => (false, 0%nat, s1)
            end) as [[neg nsign] s2].
  destruct (match s2 with
            | String "0" (String x (String h r)) =>
                if (Ascii.eqb x "x" || Ascii.eqb x "X")
                   && (match digit_in_base 16 h with
                       | Some _ => true
                       | None => false
                       end)
                then (16, 2%nat, String h r) else (8, 0%nat, s2)
            | String "0" _ => (8, 0%nat, s2)
            | _ => (10, 0%nat, s2)
            end) as [[base nprefix] s3] eqn:Hbase.
  assert (0 <= base) as Hnonneg.
  { destruct s2 as [ | c [ | x [ | h r ] ] ];
      repeat match type of Hbase with
             | context [ if ?b then _ else _ ] => destruct b
             | context [ match ?c with Ascii _ _ _ _ _ _ _ _ => _ end ] =>
                 destruct c
             end; injection Hbase as <- _ _; lia. }
  pose proof (read_digits_nonneg base s3 0 0%nat Hnonneg (Z.le_refl 0)) as Hm.
  destruct (read_digits base s3 0 0) as [m ndigits].
  destruct ndigits; [ discriminate | ].
  intros [= _ <- _]. exact Hm.
Qed.

(** What [convertToIntegral] returns is in the range of its type. *)
Lemma convertToIntegral_in_range (T : IntType) (value : Value) (n : Z) :
  convertToIntegral T value = ret n -> in_range T n = true.
Proof.
  unfold convertToIntegral, in_range, ret, throw.
  destruct value as [ | | d | str | b | fields | values ];
    try discriminate.
  - destruct (negb (isfinite d)); [ discriminate | ].
    destruct (_ || _) eqn:Hrange; [ discriminate | ].
    intros [= <-]. apply orb_false_elim in Hrange.
    destruct Hrange as [Hmin Hmax].
    apply Z.ltb_ge in Hmin, Hmax.
    apply andb_true_intro. split; apply Z.leb_le; assumption.
  - destruct (is_unsigned T) eqn:Hsign.
    + unfold stoull.
      destruct (subject_sequence str) as [ [[negative magnitude] idx] | ]
        eqn:Hsubject; [ | discriminate ].
      apply subject_sequence_nonneg in Hsubject.
      destruct (ULLONG_MAX <? magnitude); [ discriminate | ].
      destruct (negb _); [ discriminate | ].
      destruct (numeric_max T <? _) eqn:Hmax; [ discriminate | ].
      intros [= <-]. apply Z.ltb_ge in Hmax.
      assert (numeric_min T = 0) as -> by (unfold numeric_min; now rewrite Hsign).
      apply andb_true_intro. split; apply Z.leb_le; [ | exact Hmax ].
      destruct negative; [ | exact Hsubject ].
      apply Z.mod_pos_bound. lia.
    + destruct (stoll str) as [ | | parsed idx ]; try discriminate.
      destruct (negb _); [ discriminate | ].
      destruct (_ || _) eqn:Hrange; [ discriminate | ].
      intros [= <-]. apply orb_false_elim in Hrange.
      destruct Hrange as [Hmin Hmax].
      apply Z.ltb_ge in Hmin, Hmax.
      apply andb_true_intro. split; apply Z.leb_le; assumption.
  - destruct b, T; intros [= <-]; reflexivity.
Qed.

(** The two literals of the claim: 42 converts to 42 for every integral
    type, and 99999999999999999999 is rejected for every integral type. *)
Lemma convertToIntegral_literals (T : IntType) :
  convertToIntegral T (string_value "42") = ret 42
  /\ convertToIntegral T (string_value "99999999999999999999")
     = throw (InvalidValueException "Integer value out of range.").
Proof. destruct T; split; reflexivity. Qed.

(** Text is accepted only when the conversion consumed all of it. *)
Lemma convertToIntegral_whole_text (T : IntType) (str : string) (n : Z) :
  convertToIntegral T (string_value str) = ret n ->
  exists parsed,
    (if is_unsigned T then stoull str else stoll str)
      = sto_value parsed (String.length str).
Proof.
  unfold convertToIntegral, ret, throw.
  destruct (is_unsigned T).
  - destruct (stoull str) as [ | | parsed idx ]; try discriminate.
    destruct (Nat.eqb idx (String.length str)) eqn:Hidx; [ | discriminate ].
    apply Nat.eqb_eq in Hidx. subst idx. intros _. now exists parsed.
  - destruct (stoll str) as [ | | parsed idx ]; try discriminate.
    destruct (Nat.eqb idx (String.length str)) eqn:Hidx; [ | discriminate ].
    apply Nat.eqb_eq in Hidx. subst idx. intros _. now exists parsed.
Qed.

(** A number is converted exactly when it is finite and the integer nearest
    to it, ties to even, is in the range of the type; that integer is the
    result. *)
Lemma convertToIntegral_number (T : IntType) (number : double) :
  convertToIntegral T (number_value number) =
    if isfinite number && in_range T (nearbyintl number)
    then ret (nearbyintl number)
    else throw (InvalidValueException
                  (if isfinite number then "Integer value out of range."
                   else "Non finite number encountered while converting to integer.")).
Proof.
  unfold convertToIntegral, in_range.
  destruct (isfinite number); cbn [negb andb]; [ | reflexivity ].
  rewrite !Z.leb_antisym, <- negb_orb.
  now destruct (_ || _).
Qed.

(** C3: the code at the failing inputs.  Text with a minus sign is not
    rejected for an unsigned type when the negated value, taken modulo 2^64
    as [strtoull] does, is within the range of the type: -1 converts to
    18446744073709551615 for the unsigned 64-bit type, and
    -18446744073709551615 converts to 1 for the unsigned 8-bit type. *)
Theorem convertToIntegral_minus_sign_unsigned :
  convertToIntegral uint64_t (string_value "-1") = ret 18446744073709551615
  /\ convertToIntegral uint8_t (string_value "-18446744073709551615") = ret 1.
Proof. split; reflexivity. Qed.

(** ** Conversions between binary formats that lose nothing *)

Lemma iter_pos_iter {A : Type} (f : A -> A) (n : positive) (x : A) :
  SpecFloat.iter_pos f n x = Pos.iter f x n.
Proof.
  revert x.
  induction n as [ n IH | n IH | ]; intros x; cbn [SpecFloat.iter_pos Pos.iter].
  - now rewrite !IH, !Pos.iter_swap.
  - now rewrite !IH.
  - reflexivity.
Qed.

Lemma digits2_pos_iter_xO (q j : positive) :
  digits2_pos (Pos.iter xO q j) = (digits2_pos q + j)%positive.
Proof.
  induction j as [ | j IH ] using Pos.peano_ind.
  - cbn. now rewrite Pos.add_1_r.
  - rewrite Pos.iter_succ. cbn [digits2_pos]. rewrite IH. lia.
Qed.

Lemma Zpos_iter_xO (q j : positive) :
  Zpos (Pos.iter xO q j) = Zpos q * 2 ^ Zpos j.
Proof.
  induction j as [ | j IH ] using Pos.peano_ind.
  - cbn. lia.
  - rewrite Pos.iter_succ, Pos2Z.inj_xO, IH, Pos2Z.inj_succ, Z.pow_succ_r; lia.
Qed.

Lemma iter_shr_1_xO (q j : positive) :
  Pos.iter shr_1 (exact_record (Pos.iter xO q j)) j = exact_record q.
Proof.
  revert q.
  induction j as [ | j IH ] using Pos.peano_ind; intros q.
  - reflexivity.
  - rewrite Pos.iter_succ_r, Pos.iter_succ.
    cbn [shr_1 exact_record orb]. apply IH.
Qed.

Lemma binary_round_aux_canonical (prec emax : Z) (s : bool) (q : positive) (c : Z) :
  bounded prec emax q c = true ->
  binary_round_aux prec emax s (Zpos q) c loc_Exact = S754_finite s q c.
Proof.
  unfold bounded, canonical_mantissa. intros H.
  apply andb_prop in H. destruct H as [Hcanon Hmax].
  apply Z.eqb_eq in Hcanon.
  unfold binary_round_aux, shr_fexp.
  cbn [Zdigits2 shr_record_of_loc]. rewrite Hcanon, Z.sub_diag.
  cbn [shr shr_m loc_of_shr_record round_nearest_even Zdigits2 shr_record_of_loc].
  rewrite Hcanon, Z.sub_diag. cbn [shr shr_m]. now rewrite Hmax.
Qed.

Lemma binary_round_same (prec emax : Z) (s : bool) (q : positive) (c : Z) :
  bounded prec emax q c = true ->
  binary_round prec emax s q c = S754_finite s q c.
Proof.
  intros H. unfold binary_round.
  assert (fexp prec emax (Zpos (digits2_pos q) + c) = c) as ->.
  { unfold bounded, canonical_mantissa in H.
    apply andb_prop in H. now apply Z.eqb_eq. }
  unfold shl_align. rewrite Z.sub_diag.
  now apply binary_round_aux_canonical.
Qed.

Lemma binary_round_widen (prec emax : Z) (s : bool) (m j : positive) (e : Z) :
  bounded prec emax (Pos.iter xO m j) (e - Zpos j) = true ->
  binary_round prec emax s m e = S754_finite s (Pos.iter xO m j) (e - Zpos j).
Proof.
  intros H. unfold binary_round.
  assert (fexp prec emax (Zpos (digits2_pos m) + e) = e - Zpos j) as ->.
  { unfold bounded, canonical_mantissa in H.
    apply andb_prop in H. destruct H as [H _]. apply Z.eqb_eq in H.
    rewrite digits2_pos_iter_xO in H.
    replace (Zpos (digits2_pos m) + e)
      with (Zpos (digits2_pos m + j) + (e - Zpos j)) by lia.
    exact H. }
  unfold shl_align.
  replace (e - Zpos j - e) with (Zneg j) by lia.
  now apply binary_round_aux_canonical.
Qed.

Lemma binary_round_narrow (prec emax : Z) (s : bool) (q j : positive) (c : Z) :
  bounded prec emax q c = true ->
  binary_round prec emax s (Pos.iter xO q j) (c - Zpos j) = S754_finite s q c.
Proof.
  intros H. unfold binary_round.
  assert (fexp prec emax (Zpos (digits2_pos q) + c) = c) as Hcanon.
  { unfold bounded, canonical_mantissa in H.
    apply andb_prop in H. now apply Z.eqb_eq. }
  assert (fexp prec emax (Zpos (digits2_pos (Pos.iter xO q j)) + (c - Zpos j)) = c)
    as Hfexp.
  { rewrite digits2_pos_iter_xO.
    replace (Zpos (digits2_pos q + j) + (c - Zpos j))
      with (Zpos (digits2_pos q) + c) by lia.
    exact Hcanon. }
  rewrite Hfexp.
  unfold shl_align.
  replace (c - (c - Zpos j)) with (Zpos j) by lia.
  unfold binary_round_aux, shr_fexp.
  cbn [Zdigits2 shr_record_of_loc]. rewrite Hfexp.
  replace (c - (c - Zpos j)) with (Zpos j) by lia.
  cbn [shr]. rewrite iter_pos_iter.
  change {| shr_m := Zpos (Pos.iter xO q j); shr_r := false; shr_s := false |}
    with (exact_record (Pos.iter xO q j)).
  rewrite iter_shr_1_xO.
  cbn [exact_record shr_m loc_of_shr_record round_nearest_even Zdigits2
       shr_record_of_loc].
  replace (c - Zpos j + Zpos j) with c by lia.
  rewrite Hcanon, Z.sub_diag. cbn [shr shr_m].
  unfold bounded in H. apply andb_prop in H. destruct H as [_ Hmax].
  now rewrite Hmax.
Qed.

Lemma digits2_pos_le (x : positive) :
  forall n : Z, 0 <= n -> Zpos x < 2 ^ n -> Zpos (digits2_pos x) <= n.
Proof.
  induction x as [ x IH | x IH | ]; intros n Hn Hlt.
  - assert (n <> 0) by (intros ->; cbn in Hlt; lia).
    replace n with (Z.succ (n - 1)) in Hlt by lia.
    rewrite Z.pow_succ_r in Hlt by lia.
    specialize (IH (n - 1)). cbn [digits2_pos]. lia.
  - assert (n <> 0) by (intros ->; cbn in Hlt; lia).
    replace n with (Z.succ (n - 1)) in Hlt by lia.
    rewrite Z.pow_succ_r in Hlt by lia.
    specialize (IH (n - 1)). cbn [digits2_pos]. lia.
  - assert (n <> 0) by (intros ->; cbn in Hlt; lia).
    cbn. lia.
Qed.

Lemma float_roundtrip (f : float) :
  is_float f ->
  float_of_double (double_of_float f) = f.
Proof.
  destruct f as [ s | s | | s m e ]; try reflexivity.
  unfold is_float. cbn [valid_binary]. intros Hbounded.
  assert (Zpos (digits2_pos m) <= 24 /\ -149 <= e <= 104) as [Hd He].
  { unfold bounded, canonical_mantissa, fexp, emin, fprec, femax in Hbounded.
    apply andb_prop in Hbounded. destruct Hbounded as [H1 H2].
    apply Z.eqb_eq in H1. apply Z.leb_le in H2. lia. }
  set (j := Z.to_pos (53 - Zpos (digits2_pos m))).
  assert (Zpos j = 53 - Zpos (digits2_pos m)) as Hj by (unfold j; lia).
  assert (double_of_float (S754_finite s m e)
          = S754_finite s (Pos.iter xO m j) (e - Zpos j)) as ->.
  { unfold double_of_float, convert_format.
    replace (binary_normalize dprec demax (cond_Zopp s (Zpos m)) e s)
      with (binary_round dprec demax s m e) by (now destruct s).
    apply binary_round_widen.
    unfold bounded, canonical_mantissa, fexp, emin, dprec, demax.
    rewrite digits2_pos_iter_xO.
    apply andb_true_intro. split; [ apply Z.eqb_eq | apply Z.leb_le ]; lia. }
  unfold float_of_double, convert_format.
  replace (binary_normalize fprec femax (cond_Zopp s (Zpos (Pos.iter xO m j)))
             (e - Zpos j) s)
    with (binary_round fprec femax s (Pos.iter xO m j) (e - Zpos j))
    by (now destruct s).
  now apply binary_round_narrow.
Qed.

Lemma round_half_even_shifted (p j : positive) :
  round_half_even (Zpos (Pos.iter xO p j)) (0 - Zpos j) = Zpos p.
Proof.
  cbn [Z.sub Z.add Z.opp]. unfold round_half_even.
  rewrite Zpos_iter_xO.
  assert (0 < 2 ^ Zpos j) by (apply Z.pow_pos_nonneg; lia).
  cbv zeta. rewrite Z.mod_mul, Z.div_mul by lia.
  rewrite Z.mul_0_r.
  destruct (Z.compare_spec 0 (2 ^ Zpos j)); [ lia | reflexivity | lia ].
Qed.

Lemma split_mantissa (p : positive) :
  exactly_representable (Zpos p) ->
  53 < Zpos (digits2_pos p) ->
  exists q : positive,
    digits2_pos q = 53%positive
    /\ p = Pos.iter xO q (Z.to_pos (Zpos (digits2_pos p) - 53)).
Proof.
  intros (m & k & Hk & Hm & Hp) Hd.
  assert (0 < 2 ^ k) as Hpow by (apply Z.pow_pos_nonneg; lia).
  destruct m as [ | m | m ]; [ lia | | lia ].
  pose proof (digits2_pos_le m 53 ltac:(lia) ltac:(lia)) as Hdm.
  destruct k as [ | k | k ]; [ | | lia ].
  - rewrite Z.pow_0_r, Z.mul_1_r in Hp. injection Hp as ->. lia.
  - rewrite <- Zpos_iter_xO in Hp. injection Hp as ->.
    rewrite digits2_pos_iter_xO in *.
    set (j := Z.to_pos (Zpos (digits2_pos m + k) - 53)).
    assert (Zpos j = Zpos (digits2_pos m) + Zpos k - 53) as Hj by (unfold j; lia).
    destruct (Z.eq_dec (Zpos (digits2_pos m)) 53) as [Heq | Hne].
    + exists m. split; [ lia | ]. f_equal. lia.
    + exists (Pos.iter xO m (Z.to_pos (53 - Zpos (digits2_pos m)))).
      split.
      * rewrite digits2_pos_iter_xO. lia.
      * rewrite <- Pos.iter_add. f_equal. lia.
Qed.

Lemma binary_round_integer (s : bool) (p : positive) :
  exactly_representable (Zpos p) ->
  Zpos p < 2 ^ 1024 ->
  exists (q : positive) (c : Z),
    binary_round dprec demax s p 0 = S754_finite s q c
    /\ round_half_even (Zpos q) c = Zpos p.
Proof.
  intros Hrep Hbound.
  pose proof (digits2_pos_le p 1024 ltac:(lia) Hbound) as Hd.
  destruct (Z.compare_spec (Zpos (digits2_pos p)) 53) as [Heq | Hlt | Hgt].
  - exists p, 0. split; [ | reflexivity ].
    apply binary_round_same.
    unfold bounded, canonical_mantissa. rewrite Heq. reflexivity.
  - set (j := Z.to_pos (53 - Zpos (digits2_pos p))).
    assert (Zpos j = 53 - Zpos (digits2_pos p)) as Hj by (unfold j; lia).
    exists (Pos.iter xO p j), (0 - Zpos j). split.
    + apply binary_round_widen.
      unfold bounded, canonical_mantissa, fexp, emin, dprec, demax.
      rewrite digits2_pos_iter_xO.
      apply andb_true_intro. split; [ apply Z.eqb_eq | apply Z.leb_le ]; lia.
    + apply round_half_even_shifted.
  - destruct (split_mantissa p Hrep Hgt) as (q & Hq & Hp).
    set (j := Z.to_pos (Zpos (digits2_pos p) - 53)) in *.
    assert (Zpos j = Zpos (digits2_pos p) - 53) as Hj by (unfold j; lia).
    exists q, (Zpos j). split.
    + rewrite Hp at 1.
      replace 0 with (Zpos j - Zpos j) by lia.
      apply binary_round_narrow.
      unfold bounded, canonical_mantissa, fexp, emin, dprec, demax.
      rewrite Hq.
      apply andb_true_intro. split; [ apply Z.eqb_eq | apply Z.leb_le ]; lia.
    + cbn [round_half_even]. rewrite <- Zpos_iter_xO. now rewrite <- Hp.
Qed.

Lemma exactly_representable_opp (n : Z) :
  exactly_representable n -> exactly_representable (- n).
Proof.
  intros (m & k & Hk & Hm & ->). exists (- m), k.
  repeat split; [ exact Hk | now rewrite Z.abs_opp | lia ].
Qed.

Lemma double_of_Z_exact (n : Z) :
  exactly_representable n ->
  Z.abs n < 2 ^ 1024 ->
  isfinite (double_of_Z n) = true /\ nearbyintl (double_of_Z n) = n.
Proof.
  intros Hrep Hbound.
  destruct n as [ | p | p ].
  - split; reflexivity.
  - destruct (binary_round_integer false p Hrep Hbound) as (q & c & Hround & Hq).
    unfold double_of_Z, binary_normalize. rewrite Hround.
    split; [ reflexivity | exact Hq ].
  - apply exactly_representable_opp in Hrep. cbn [Z.opp] in Hrep.
    destruct (binary_round_integer true p Hrep Hbound) as (q & c & Hround & Hq).
    unfold double_of_Z, binary_normalize. rewrite Hround.
    split; [ reflexivity | ]. cbn [nearbyintl cond_Zopp]. now rewrite Hq.
Qed.

(** ** Encoding, then decoding *)

Lemma in_range_bound (T : IntType) (n : Z) :
  in_range T n = true -> Z.abs n < 2 ^ 1024.
Proof.
  intros H. apply andb_prop in H. destruct H as [Hmin Hmax].
  apply Z.leb_le in Hmin, Hmax.
  assert (2 ^ 64 <= 2 ^ 1024) as Hpow by (apply Z.pow_le_mono_r; lia).
  change (2 ^ 64) with 18446744073709551616 in Hpow.
  destruct T; cbn in Hmin, Hmax; lia.
Qed.

(** For the types of at most 32 bits, every value is exactly representable. *)
Lemma small_int_representable (T : IntType) (n : Z) :
  width T <= 32 -> in_range T n = true -> representable_int T n.
Proof.
  intros Hwidth Hrange. split; [ exact Hrange | ].
  exists n, 0. split; [ lia | split; [ | lia ] ].
  apply andb_prop in Hrange. destruct Hrange as [Hmin Hmax].
  apply Z.leb_le in Hmin, Hmax.
  change (2 ^ 53) with 9007199254740992.
  destruct T; cbn in Hwidth, Hmin, Hmax; lia.
Qed.

Lemma convertToIntegral_roundtrip (T : IntType) (n : Z) :
  representable_int T n ->
  convertToIntegral T (number_value (double_of_Z n)) = ret n.
Proof.
  intros [Hrange Hrep].
  destruct (double_of_Z_exact n Hrep (in_range_bound T n Hrange))
    as [Hfinite Hrounded].
  rewrite convertToIntegral_number, Hfinite, Hrounded, Hrange.
  reflexivity.
Qed.

Lemma convertList_loop_map {A : Type} (converter : Value -> Result A)
  (encode : A -> Value) (P : A -> Prop) (l : list A) :
  (forall x, P x -> converter (encode x) = ret x) ->
  Forall P l ->
  convertList_loop converter (map encode l) = ret l.
Proof.
  intros Hconv Hall.
  induction Hall as [ | x l Hx _ IH ]; [ reflexivity | ].
  cbn [map convertList_loop]. rewrite (Hconv x Hx). cbn [bind ret].
  rewrite IH. reflexivity.
Qed.

Section RoundTrip.

Variable platform : Platform.

Lemma fromDuoValue_leaf (path : string) (t : DataPointValue_Type) (v : Value)
  (timestamp : Timestamp) :
  has_struct_value v = false ->
  has_null_value v = false ->
  fromDuoValue platform path t v timestamp =
    bind (convertLeaf platform t v)
         (fun data => ret (makeTypedValue t path data timestamp)).
Proof.
  intros Hstruct Hnull. unfold fromDuoValue, locateLeaf.
  rewrite Hstruct. cbn [negb orb]. now rewrite Hnull.
Qed.

Lemma convertToFloat_roundtrip (f : float) :
  is_float f ->
  convertToFloat platform (number_value (double_of_float f)) = ret f.
Proof.
  intros Hf. unfold convertToFloat. cbn [convertToDouble bind ret].
  now rewrite float_roundtrip.
Qed.

Lemma convertLeaf_roundtrip (t : DataPointValue_Type) (data : value_type t)
  (path : string) (timestamp : Timestamp) (encoded : Value) :
  representable t data ->
  toDuoValue (makeTypedValue t path data timestamp) = ret encoded ->
  has_struct_value encoded = false
  /\ has_null_value encoded = false
  /\ convertLeaf platform t encoded = ret data.
Proof.
  intros Hrep Hencoded.
  destruct t; cbn in data, Hrep, Hencoded; try discriminate Hencoded;
    injection Hencoded as <-;
    (split; [ reflexivity | split; [ reflexivity | ] ]);
    cbn [convertLeaf convertList number_list];
    first
      [ reflexivity
      | now apply convertToIntegral_roundtrip
      | now apply convertToFloat_roundtrip
      | eapply (convertList_loop_map _ _ (representable_int _));
        [ intros x Hx; apply convertToIntegral_roundtrip; exact Hx
        | exact Hrep ]
      | apply (convertList_loop_map _ _ is_float);
        [ intros x Hx; now apply convertToFloat_roundtrip | exact Hrep ]
      | apply (convertList_loop_map _ _ (fun _ => True));
        [ intros x _; reflexivity | now apply Forall_forall ] ].
Qed.

(** C1.  For each of the 24 supported types and every payload of that type
    whose numeric content is exactly representable as a [double] (any bool,
    string and double; any integer of at most 32 bits; a 64-bit integer that
    is an integer of less than 53 bits times a power of two; any binary32
    float), scalar or array, [toDuoValue] succeeds and [fromDuoValue], asked
    for the type of the value, gives back a valid value of that type with the
    same payload, the elements of an array in their order. *)
Theorem toDuoValue_fromDuoValue_roundtrip :
  forall (t : DataPointValue_Type) (data : value_type t)
         (path0 path : string) (timestamp0 timestamp : Timestamp),
    supported t = true ->
    representable t data ->
    exists encoded : Value,
      toDuoValue (makeTypedValue t path0 data timestamp0) = ret encoded
      /\ fromDuoValue platform path t encoded timestamp
         = ret (makeTypedValue t path data timestamp).
Proof.
  intros t data path0 path timestamp0 timestamp Hsupported Hrep.
  assert (exists encoded,
             toDuoValue (makeTypedValue t path0 data timestamp0) = ret encoded)
    as [encoded Hencoded].
  { destruct t; first [ discriminate Hsupported | eexists; reflexivity ]. }
  exists encoded. split; [ exact Hencoded | ].
  destruct (convertLeaf_roundtrip t data path0 timestamp0 encoded Hrep Hencoded)
    as (Hstruct & Hnull & Hleaf).
  rewrite (fromDuoValue_leaf path t encoded timestamp Hstruct Hnull), Hleaf.
  reflexivity.
Qed.

(** A value in the failure state is encoded as null and decoded, at its own
    type, as a value in the failure state again. *)
Lemma toDuoValue_fromDuoValue_failure (t : DataPointValue_Type)
  (path0 path : string) (timestamp0 timestamp : Timestamp) :
  supported t = true ->
  toDuoValue (makeFailedValue t path0 timestamp0 NOT_AVAILABLE) = ret null_value
  /\ fromDuoValue platform path t null_value timestamp
     = ret (makeFailedValue t path timestamp NOT_AVAILABLE).
Proof.
  intros Hsupported. split; [ reflexivity | ].
  unfold fromDuoValue, locateLeaf. cbn [has_struct_value negb orb has_null_value].
  destruct t; first [ discriminate Hsupported | reflexivity ].
Qed.

End RoundTrip.

Lemma toDuoValue_fromDuoValue_roundtrip_witness :
  let data : value_type INT64_ARRAY := [4611686018427387904; -5; 0] in
  supported INT64_ARRAY = true
  /\ representable INT64_ARRAY data
  /\ exists encoded : Value,
       toDuoValue (makeTypedValue INT64_ARRAY "Vehicle.Trip" data 3) = ret encoded
       /\ fromDuoValue bare_platform "Vehicle.Trip" INT64_ARRAY encoded 3
          = ret (makeTypedValue INT64_ARRAY "Vehicle.Trip" data 3).
Proof.
  cbv zeta.
  assert (representable INT64_ARRAY [4611686018427387904; -5; 0]) as Hrep.
  { repeat constructor.
    - exists 1, 62. lia.
    - exists (-5), 0. lia.
    - exists 0, 0. lia. }
  split; [ reflexivity | split; [ exact Hrep | ] ].
  apply (toDuoValue_fromDuoValue_roundtrip bare_platform INT64_ARRAY
           [4611686018427387904; -5; 0] "Vehicle.Trip" "Vehicle.Trip" 3 3);
    [ reflexivity | exact Hrep ].
Defined.

(** ** Exceptions of a callback at the completion of a call *)

Lemma nth_error_update_same {A : Type} (f : A -> A) (i : nat) (l : list A) :
  nth_error (update i f l) i = option_map f (nth_error l i).
Proof.
  revert i.
  induction l as [ | x l IH ]; intros [ | i ]; cbn [update nth_error option_map];
    try reflexivity.
  apply IH.
Qed.

Lemma call_at_is_complete (w : World) (index : nat) (c : Call) :
  call_at w index = Some c ->
  exists b, nth_error (m_activeCalls w) index
            = Some {| callData := c; m_isComplete := b |}.
Proof.
  unfold call_at.
  destruct (nth_error (m_activeCalls w) index) as [ [c' b] | ];
    [ | discriminate ].
  intros [= <-]. now exists b.
Qed.

Lemma grpcResultHandler_catches {A : Type} (name : string) (index : nat)
  (replyHandler : Handler A) (errorHandler : Handler grpc_Status)
  (m_response : A) (status : grpc_Status) (w : World) (e : Exn) (s : State) :
  (if ok status then replyHandler m_response (state w)
   else errorHandler status (state w)) = Threw e s ->
  is_std_exception e = true ->
  grpcResultHandler name index replyHandler errorHandler m_response status w
    = set_complete index
        (with_state
           (log error ("GRPC: Exception occurred during " ++ dquote ++ name
                         ++ dquote ++ ": " ++ what e) s) w).
Proof.
  intros Houtcome Hstd. unfold grpcResultHandler.
  now rewrite Houtcome, Hstd.
Qed.

(** C8, as amended.  At the completion of a Get or of a Set call, when the
    handler the completion invokes (the reply handler for an OK status, the
    error handler otherwise) throws an exception derived from
    [std::exception], the completion closure catches it: no exception leaves
    the closure, the state is the one the handler left with one error line
    added to the log, the call is marked complete, and nothing is issued. *)
Theorem completion_catches_std_exception :
  forall (w : World) (ev : TransportEvent) (e : Exn) (s : State),
    completion_outcome w ev = Some (Threw e s) ->
    is_std_exception e = true ->
    escaped (deliver w ev) = escaped w
    /\ state (deliver w ev) = log error (completion_log_line ev e) s
    /\ is_complete (deliver w ev) (event_index ev) = Some true
    /\ issued (deliver w ev) = issued w.
Proof.
  intros w ev e s Houtcome Hstd.
  destruct ev as [ index status response | index status response
                 | index response | index status ];
    cbn [completion_outcome] in Houtcome; try discriminate Houtcome;
    cbn [deliver event_index];
    destruct (call_at w index) as [ [ req rh eh | req rh eh | req sh eh ] | ]
      eqn:Hcall; try discriminate Houtcome;
    injection Houtcome as Houtcome;
    rewrite (grpcResultHandler_catches _ index rh eh response status w e s
               Houtcome Hstd);
    destruct (call_at_is_complete w index _ Hcall) as [b Hnth];
    (repeat split; try reflexivity);
    unfold is_complete, set_complete; cbn [m_activeCalls with_state];
    rewrite nth_error_update_same, Hnth; reflexivity.
Qed.

Lemma completion_catches_std_exception_witness :
  let failing : Handler GetResponse :=
    fun _ s => Threw (InvalidValueException "no such signal") s in
  let quiet : Handler grpc_Status := fun _ s => Returned s in
  let w := GetDatapoints ["Vehicle.Speed"] failing quiet initial in
  let ev := GetReport_done 0 {| ok := true; error_message := "" |}
                           {| item := None |} in
  completion_outcome w ev
    = Some (Threw (InvalidValueException "no such signal") (state w))
  /\ is_std_exception (InvalidValueException "no such signal") = true
  /\ escaped (deliver w ev) = escaped w
  /\ state (deliver w ev)
     = log error (completion_log_line ev (InvalidValueException "no such signal"))
           (state w)
  /\ is_complete (deliver w ev) (event_index ev) = Some true
  /\ issued (deliver w ev) = issued w.
Proof.
  cbv zeta. split; [ reflexivity | split; [ reflexivity | ] ].
  apply (completion_catches_std_exception
           (GetDatapoints ["Vehicle.Speed"]
              (fun _ s => Threw (InvalidValueException "no such signal") s)
              (fun _ s => Returned s) initial)
           (GetReport_done 0 {| ok := true; error_message := "" |}
                           {| item := None |}));
    reflexivity.
Defined.

(** C8, as stated, fails.  The closure [Subscribe] gives to [onData] calls
    the stream handler without a handler for exceptions, so a
    [std::exception] thrown by the stream handler for a streamed item leaves
    the closure, and nothing is logged.  And the completion closure of a Get
    call catches [std::exception] only: an exception of another type thrown
    by the reply handler leaves it, and the call is not marked complete. *)
Lemma callback_exception_counterexample :
  let quiet : Handler grpc_Status := fun _ s => Returned s in
  let done := {| ok := true; error_message := "" |} in
  (let failing : Handler ListenResponse :=
     fun _ s => Threw (std_exception "bad item") s in
   let w := Subscribe ["Vehicle.Speed"] failing quiet initial in
   let response := {| items := [] |} in
   call_at w 0 = Some (ListenCall {| listen_thing := "vss";
                                     needs_initial_value := true;
                                     filters := ["Vehicle/Speed"] |}
                                  failing quiet)
   /\ Subscribe_onData failing response (state w)
      = Threw (std_exception "bad item") (state w)
   /\ escaped (deliver w (ListenReport_read 0 response))
      = [std_exception "bad item"]
   /\ logger (state (deliver w (ListenReport_read 0 response))) = [])
  /\ (let failing : Handler GetResponse := fun _ s => Threw foreign_exception s in
      let w := GetDatapoints ["Vehicle.Speed"] failing quiet initial in
      let ev := GetReport_done 0 done {| item := None |} in
      escaped (deliver w ev) = [foreign_exception]
      /\ is_complete (deliver w ev) 0 = Some false).
Proof.
  cbv zeta. repeat split; reflexivity.
Qed.

(** ** A request with nothing to ask for *)

Lemma changed_within_length {A : Type} (P : nat -> Prop) (before after : list A) :
  changed_within P before after -> List.length after = List.length before.
Proof.
  intros [ -> | (i & f & _ & ->) ]; [ reflexivity | apply length_update ].
Qed.

Lemma changed_within_nth_error {A : Type} (P : nat -> Prop)
  (before after : list A) (r : nat) :
  changed_within P before after ->
  (forall i, P i -> i <> r) ->
  nth_error after r = nth_error before r.
Proof.
  intros [ -> | (i & f & Hi & ->) ] Hother; [ reflexivity | ].
  apply nth_error_update_other. now apply Hother.
Qed.

Lemma changed_within_refl {A : Type} (P : nat -> Prop) (l : list A) :
  changed_within P l l.
Proof. now left. Qed.

Lemma changed_within_update {A : Type} (P : nat -> Prop) (l : list A)
  (i : nat) (f : A -> A) :
  P i -> changed_within P l (update i f l).
Proof. intros Hi. right. now exists i, f. Qed.

Lemma map_callData_update (index : nat) (l : list ActiveCall) :
  map callData
    (update index (fun c => {| callData := callData c; m_isComplete := true |}) l)
  = map callData l.
Proof.
  revert index.
  induction l as [ | c l IH ]; intros [ | index ]; cbn [update map];
    try reflexivity.
  now rewrite IH.
Qed.

Lemma call_at_In (w : World) (index : nat) (c : Call) :
  call_at w index = Some c -> In c (map callData (m_activeCalls w)).
Proof.
  unfold call_at.
  destruct (nth_error (m_activeCalls w) index) as [ a | ] eqn:Hnth;
    [ | discriminate ].
  intros [= <-]. apply in_map. eapply nth_error_In. exact Hnth.
Qed.

Section ProcessFacts.

Variable platform : Platform.
Variable DebugString : GetResponse -> string.



Lemma client_call_impl (Pget Pset Qget Qset : nat -> Prop) (c : Call) :
  (forall i, Pget i -> Qget i) ->
  (forall i, Pset i -> Qset i) ->
  client_call platform DebugString Pget Pset c -> client_call platform DebugString Qget Qset c.
Proof.
  intros Hget Hset [ request result datapoints H | request result H
                   | request subscription query ];
    constructor; auto.
Qed.

(** What the handlers of the client do to the results. *)

Lemma getDatapoints_replyHandler_effect (result : nat)
  (datapoints : list string) (reply : GetResponse) (s : State) :
  let s' := state_of (getDatapoints_replyHandler DebugString result datapoints
                        reply s) in
  (getResults s' = getResults s
   \/ exists f, getResults s' = update result f (getResults s))
  /\ setResults s' = setResults s.
Proof.
  unfold getDatapoints_replyHandler.
  destruct (substr_after (DebugString reply) "item ") as [ e | rest ].
  - cbn. auto.
  - destruct (item reply) as [ v | ];
      [ destruct (convertDuoResponseToDataPointValue (nth 0 datapoints "") v) | ];
      cbn; (split; [ right; eexists; reflexivity | reflexivity ]).
Qed.

Lemma setDatapoints_replyHandler_effect (result : nat)
  (reply : CreateJobResponse) (s : State) :
  let s' := state_of (setDatapoints_replyHandler result reply s) in
  getResults s' = getResults s
  /\ (setResults s' = setResults s
      \/ exists f, setResults s' = update result f (setResults s)).
Proof.
  unfold setDatapoints_replyHandler.
  destruct (substr_after (CreateJobResponse_DebugString reply) "item ")
    as [ e | rest ]; cbn.
  - auto.
  - split; [ reflexivity | right; eexists; reflexivity ].
Qed.

Lemma subscribe_streamHandler_effect (subscription : nat) (query : string)
  (response : ListenResponse) (s : State) :
  let s' := state_of (subscribe_streamHandler platform subscription query
                        response s) in
  getResults s' = getResults s /\ setResults s' = setResults s.
Proof.
  unfold subscribe_streamHandler.
  pose proof (subscribe_collect_state platform query (items response) [] s)
    as Hcollect.
  destruct (subscribe_collect platform query (items response) [] s)
    as [pathValueList s1].
  cbv zeta in Hcollect. cbn [snd] in Hcollect.
  destruct Hcollect as (_ & Hget & Hset).
  cbn [state_of].
  rewrite (fold_left_through_map
             (fun s r => insertNewItem subscription r s) subscribe_reply).
  rewrite insertNewItem_all. cbn. auto.
Qed.

Lemma deliver_effect (Pget Pset : nat -> Prop) (w : World) (ev : TransportEvent) :
  Forall (client_call platform DebugString Pget Pset) (map callData (m_activeCalls w)) ->
  changed_within Pget (getResults (state w)) (getResults (state (deliver w ev)))
  /\ changed_within Pset (setResults (state w))
       (setResults (state (deliver w ev)))
  /\ map callData (m_activeCalls (deliver w ev)) = map callData (m_activeCalls w)
  /\ issued (deliver w ev) = issued w.
Proof.
  intros Hcalls.
  assert (forall index c, call_at w index = Some c -> client_call platform DebugString Pget Pset c)
    as Hat.
  { intros index c Hc. apply call_at_In in Hc.
    revert c Hc. now apply Forall_forall. }
  assert (changed_within Pget (getResults (state w)) (getResults (state w))
          /\ changed_within Pset (setResults (state w)) (setResults (state w))
          /\ map callData (m_activeCalls w) = map callData (m_activeCalls w)
          /\ issued w = issued w) as Hsame
      by (repeat split; apply changed_within_refl).
  destruct ev as [ index status response | index status response
                 | index response | index status ];
    cbn [deliver];
    destruct (call_at w index) as [ c | ] eqn:Hcall; try exact Hsame;
    specialize (Hat index c Hcall);
    destruct Hat as [ request result datapoints H | request result H
                    | request subscription query ];
    try exact Hsame.
  - unfold grpcResultHandler.
    destruct (ok status).
    + pose proof (getDatapoints_replyHandler_effect result datapoints response
                    (state w)) as Heffect.
      destruct (getDatapoints_replyHandler DebugString result datapoints
                  response (state w)) as [ s | e s ];
        cbv zeta in Heffect; cbn [state_of] in Heffect;
        destruct Heffect as [ [Hget | [f Hget]] Hset ];
        try destruct (is_std_exception e);
        cbn; rewrite ?map_callData_update, Hget, Hset;
        repeat split;
        first [ apply changed_within_refl | now apply changed_within_update ].
    + cbn. rewrite map_callData_update.
      repeat split;
        first [ apply changed_within_refl | now apply changed_within_update ].
  - unfold grpcResultHandler.
    destruct (ok status).
    + pose proof (setDatapoints_replyHandler_effect result response (state w))
        as Heffect.
      destruct (setDatapoints_replyHandler result response (state w))
        as [ s | e s ];
        cbv zeta in Heffect; cbn [state_of] in Heffect;
        destruct Heffect as [ Hget [Hset | [f Hset]] ];
        try destruct (is_std_exception e);
        cbn; rewrite ?map_callData_update, Hget, Hset;
        repeat split;
        first [ apply changed_within_refl | now apply changed_within_update ].
    + cbn. rewrite map_callData_update.
      repeat split;
        first [ apply changed_within_refl | now apply changed_within_update ].
  - unfold Subscribe_onData.
    pose proof (subscribe_streamHandler_effect subscription query response
                  (state w)) as Heffect.
    destruct (subscribe_streamHandler platform subscription query response
                (state w)) as [ s | e s ];
      cbv zeta in Heffect; cbn [state_of] in Heffect;
      destruct Heffect as [Hget Hset];
      cbn; rewrite Hget, Hset;
      repeat split; apply changed_within_refl.
  - unfold Subscribe_onFinish.
    destruct (negb (ok status)); cbn; rewrite map_callData_update;
      repeat split; apply changed_within_refl.
Qed.
End ProcessFacts.

Section Invariants.

Variable platform : Platform.
Variable DebugString : GetResponse -> string.

Lemma Forall_client_call_impl (Pget Pset Qget Qset : nat -> Prop)
  (l : list Call) :
  (forall i, Pget i -> Qget i) ->
  (forall i, Pset i -> Qset i) ->
  Forall (client_call platform DebugString Pget Pset) l ->
  Forall (client_call platform DebugString Qget Qset) l.
Proof.
  intros Hget Hset. apply Forall_impl. intros c.
  now apply client_call_impl.
Qed.

Lemma setDatapoints_cases (datapoints : list DataPointValue) (w : World) :
  match setDatapoints datapoints w with
  | inl _ => True
  | inr (result, w') =>
      result = List.length (setResults (state w))
      /\ getResults (state w') = getResults (state w)
      /\ setResults (state w') = (setResults (state w) ++ [Pending])%list
      /\ (map callData (m_activeCalls w') = map callData (m_activeCalls w)
          \/ exists request,
               map callData (m_activeCalls w')
               = (map callData (m_activeCalls w)
                    ++ [JobCall request (setDatapoints_replyHandler result)
                                (setDatapoints_errorHandler result)])%list)
  end.
Proof.
  unfold setDatapoints.
  destruct (setDatapoints_map datapoints []) as [ e | datapoints_map ];
    [ exact I | ].
  cbn [ret]. unfold SetDatapoints.
  destruct datapoints_map as [ | [path value] rest ]; cbn.
  - repeat split; auto.
  - repeat split; auto. right. eexists. rewrite map_app. reflexivity.
Qed.

Lemma getDatapoints_cases (datapoints : list string) (w : World) :
  let result := fst (getDatapoints DebugString datapoints w) in
  let w' := snd (getDatapoints DebugString datapoints w) in
  result = List.length (getResults (state w))
  /\ getResults (state w') = (getResults (state w) ++ [Pending])%list
  /\ setResults (state w') = setResults (state w)
  /\ (map callData (m_activeCalls w') = map callData (m_activeCalls w)
      \/ exists request,
           map callData (m_activeCalls w')
           = (map callData (m_activeCalls w)
                ++ [GetCall request
                      (getDatapoints_replyHandler DebugString result datapoints)
                      (getDatapoints_errorHandler result)])%list).
Proof.
  unfold getDatapoints, GetDatapoints.
  destruct datapoints as [ | front others ]; cbn.
  - repeat split; auto.
  - repeat split; auto. right. eexists. rewrite map_app. reflexivity.
Qed.

Lemma subscribe_cases (query : string) (w : World) :
  let w' := snd (subscribe platform query w) in
  getResults (state w') = getResults (state w)
  /\ setResults (state w') = setResults (state w)
  /\ exists request subscription,
       map callData (m_activeCalls w')
       = (map callData (m_activeCalls w)
            ++ [ListenCall request
                  (subscribe_streamHandler platform subscription query)
                  (subscribe_errorHandler subscription)])%list.
Proof.
  unfold subscribe, Subscribe. cbn.
  repeat split. do 2 eexists. rewrite map_app. reflexivity.
Qed.

Lemma step_bounded_calls (w : World) (ev : Event) :
  bounded_calls platform DebugString w ->
  bounded_calls platform DebugString (step platform DebugString w ev).
Proof.
  unfold bounded_calls. intros Hcalls.
  destruct ev as [ datapoints | datapoints | query | ev ]; cbn [step].
  - destruct (getDatapoints_cases datapoints w) as (Hresult & Hget & Hset & Hnew).
    cbv zeta in *. rewrite Hget, Hset, length_app. cbn [List.length].
    destruct Hnew as [ -> | [request ->] ].
    + eapply Forall_client_call_impl; [ | | exact Hcalls ]; cbn; intros; lia.
    + apply Forall_app. split.
      * eapply Forall_client_call_impl; [ | | exact Hcalls ]; cbn; intros; lia.
      * repeat constructor. rewrite Hresult. lia.
  - pose proof (setDatapoints_cases datapoints w) as Hcases.
    destruct (setDatapoints datapoints w) as [ e | [result w'] ];
      [ exact Hcalls | ].
    destruct Hcases as (Hresult & Hget & Hset & Hnew).
    rewrite Hget, Hset, length_app. cbn [List.length].
    destruct Hnew as [ -> | [request ->] ].
    + eapply Forall_client_call_impl; [ | | exact Hcalls ]; cbn; intros; lia.
    + apply Forall_app. split.
      * eapply Forall_client_call_impl; [ | | exact Hcalls ]; cbn; intros; lia.
      * repeat constructor. rewrite Hresult. lia.
  - destruct (subscribe_cases query w)
      as (Hget & Hset & request & subscription & Hnew).
    cbv zeta in *. rewrite Hget, Hset, Hnew.
    apply Forall_app. split; [ exact Hcalls | repeat constructor ].
  - destruct (deliver_effect platform DebugString _ _ w ev Hcalls)
      as (Hget & Hset & Hsame & _).
    rewrite Hsame.
    rewrite (changed_within_length _ _ _ Hget),
            (changed_within_length _ _ _ Hset).
    exact Hcalls.
Qed.

Lemma reachable_bounded_calls (w : World) :
  reachable platform DebugString w -> bounded_calls platform DebugString w.
Proof.
  intros [events ->].
  induction events as [ | ev events IH ] using rev_ind.
  - constructor.
  - unfold run. rewrite fold_left_app. cbn [fold_left].
    now apply step_bounded_calls.
Qed.

Lemma nth_error_app_left {A : Type} (l l' : list A) (r : nat) (x : A) :
  nth_error l r = Some x -> nth_error (l ++ l') r = Some x.
Proof.
  intros H. rewrite nth_error_app1; [ exact H | ].
  apply nth_error_Some. now rewrite H.
Qed.

Lemma step_untouched_get (r : nat) (w : World) (ev : Event) :
  untouched_get platform DebugString r w -> untouched_get platform DebugString r (step platform DebugString w ev).
Proof.
  unfold untouched_get. intros [Hpending Hcalls].
  assert (r < List.length (getResults (state w)))%nat as Hr
    by (apply nth_error_Some; now rewrite Hpending).
  destruct ev as [ datapoints | datapoints | query | ev ]; cbn [step].
  - destruct (getDatapoints_cases datapoints w) as (Hresult & Hget & Hset & Hnew).
    cbv zeta in *. rewrite Hget.
    split; [ now apply nth_error_app_left | ].
    destruct Hnew as [ -> | [request ->] ]; [ exact Hcalls | ].
    apply Forall_app. split; [ exact Hcalls | ].
    repeat constructor. rewrite Hresult. lia.
  - pose proof (setDatapoints_cases datapoints w) as Hcases.
    destruct (setDatapoints datapoints w) as [ e | [result w'] ];
      [ now split | ].
    destruct Hcases as (Hresult & Hget & Hset & Hnew).
    rewrite Hget. split; [ exact Hpending | ].
    destruct Hnew as [ -> | [request ->] ]; [ exact Hcalls | ].
    apply Forall_app. split; [ exact Hcalls | repeat constructor ].
  - destruct (subscribe_cases query w)
      as (Hget & Hset & request & subscription & Hnew).
    cbv zeta in *. rewrite Hget, Hnew. split; [ exact Hpending | ].
    apply Forall_app. split; [ exact Hcalls | repeat constructor ].
  - destruct (deliver_effect platform DebugString _ _ w ev Hcalls)
      as (Hget & _ & Hsame & _).
    rewrite Hsame. split; [ | exact Hcalls ].
    rewrite (changed_within_nth_error _ _ _ r Hget); [ exact Hpending | ].
    intros i Hi. exact Hi.
Qed.

Lemma step_untouched_set (r : nat) (w : World) (ev : Event) :
  untouched_set platform DebugString r w -> untouched_set platform DebugString r (step platform DebugString w ev).
Proof.
  unfold untouched_set. intros [Hpending Hcalls].
  assert (r < List.length (setResults (state w)))%nat as Hr
    by (apply nth_error_Some; now rewrite Hpending).
  destruct ev as [ datapoints | datapoints | query | ev ]; cbn [step].
  - destruct (getDatapoints_cases datapoints w) as (Hresult & Hget & Hset & Hnew).
    cbv zeta in *. rewrite Hset. split; [ exact Hpending | ].
    destruct Hnew as [ -> | [request ->] ]; [ exact Hcalls | ].
    apply Forall_app. split; [ exact Hcalls | repeat constructor ].
  - pose proof (setDatapoints_cases datapoints w) as Hcases.
    destruct (setDatapoints datapoints w) as [ e | [result w'] ];
      [ now split | ].
    destruct Hcases as (Hresult & Hget & Hset & Hnew).
    rewrite Hset. split; [ now apply nth_error_app_left | ].
    destruct Hnew as [ -> | [request ->] ]; [ exact Hcalls | ].
    apply Forall_app. split; [ exact Hcalls | ].
    repeat constructor. rewrite Hresult. lia.
  - destruct (subscribe_cases query w)
      as (Hget & Hset & request & subscription & Hnew).
    cbv zeta in *. rewrite Hset, Hnew. split; [ exact Hpending | ].
    apply Forall_app. split; [ exact Hcalls | repeat constructor ].
  - destruct (deliver_effect platform DebugString _ _ w ev Hcalls)
      as (_ & Hset & Hsame & _).
    rewrite Hsame. split; [ | exact Hcalls ].
    rewrite (changed_within_nth_error _ _ _ r Hset); [ exact Hpending | ].
    intros i Hi. exact Hi.
Qed.

Lemma run_untouched_get (r : nat) (events : list Event) :
  forall w, untouched_get platform DebugString r w ->
            untouched_get platform DebugString r (run platform DebugString w events).
Proof.
  induction events as [ | ev events IH ]; intros w Hw; [ exact Hw | ].
  cbn [run fold_left]. apply IH. now apply step_untouched_get.
Qed.

Lemma run_untouched_set (r : nat) (events : list Event) :
  forall w, untouched_set platform DebugString r w ->
            untouched_set platform DebugString r (run platform DebugString w events).
Proof.
  induction events as [ | ev events IH ]; intros w Hw; [ exact Hw | ].
  cbn [run fold_left]. apply IH. now apply step_untouched_set.
Qed.

(** C9.  In a world the client and the transport have brought about, a call
    of [getDatapoints] with no path makes the facade log an error and return:
    nothing is issued, no call is registered, no exception is raised, and the
    new result is pending; whatever the client and the transport do
    afterwards, that result stays pending.  The same holds for a call of
    [setDatapoints] with no value, the log line being a warning. *)
Theorem empty_request_never_resolved :
  forall (w : World) (events : list Event),
    reachable platform DebugString w ->
    (let result := fst (getDatapoints DebugString [] w) in
     let w' := snd (getDatapoints DebugString [] w) in
     issued w' = issued w
     /\ m_activeCalls w' = m_activeCalls w
     /\ escaped w' = escaped w
     /\ state w'
        = log error "GetDatapoints called without any datapoint paths."
            (with_getResults (getResults (state w) ++ [Pending]) (state w))
     /\ nth_error (getResults (state (run platform DebugString w' events))) result
        = Some Pending)
    /\ (exists (result : nat) (w' : World),
           setDatapoints [] w = ret (result, w')
           /\ issued w' = issued w
           /\ m_activeCalls w' = m_activeCalls w
           /\ escaped w' = escaped w
           /\ state w'
              = log warn "SetDatapoints called without payload."
                  (with_setResults (setResults (state w) ++ [Pending]) (state w))
           /\ nth_error (setResults (state (run platform DebugString w' events)))
                result = Some Pending).
Proof.
  intros w events Hreach.
  pose proof (reachable_bounded_calls w Hreach) as Hbounded.
  unfold bounded_calls in Hbounded.
  split.
  - cbv zeta. repeat (split; [ reflexivity | ]).
    apply (run_untouched_get (List.length (getResults (state w))) events).
    split.
    + cbn. rewrite nth_error_app2 by lia. now rewrite Nat.sub_diag.
    + cbn. eapply Forall_client_call_impl; [ | | exact Hbounded ];
        cbn; intros; lia.
  - do 2 eexists. split; [ reflexivity | ].
    repeat (split; [ reflexivity | ]).
    apply (run_untouched_set (List.length (setResults (state w))) events).
    split.
    + cbn. rewrite nth_error_app2 by lia. now rewrite Nat.sub_diag.
    + cbn. eapply Forall_client_call_impl; [ | | exact Hbounded ];
        cbn; intros; auto; lia.
Qed.

End Invariants.

Lemma empty_request_never_resolved_witness :
  let DebugString : GetResponse -> string := fun _ => "item {}" in
  let done := {| ok := true; error_message := "" |} in
  let events :=
    [call_getDatapoints ["Vehicle.Speed"];
     transport (GetReport_done 0 done {| item := Some (number_value speed_100_5) |});
     transport (GetReport_done 1 done {| item := None |})] in
  reachable bare_platform DebugString initial
  /\ nth_error
       (getResults
          (state (run bare_platform DebugString
                    (snd (getDatapoints DebugString [] initial)) events)))
       (fst (getDatapoints DebugString [] initial))
     = Some Pending.
Proof.
  cbv zeta.
  assert (reachable bare_platform (fun _ => "item {}") initial) as Hreach
    by (exists []; reflexivity).
  split; [ exact Hreach | ].
  destruct (empty_request_never_resolved bare_platform (fun _ => "item {}")
              initial
              [call_getDatapoints ["Vehicle.Speed"];
               transport (GetReport_done 0 {| ok := true; error_message := "" |}
                            {| item := Some (number_value speed_100_5) |});
               transport (GetReport_done 1 {| ok := true; error_message := "" |}
                            {| item := None |})]
              Hreach)
    as [ (_ & _ & _ & _ & Hpending) _ ].
  exact Hpending.
Defined.

(** * Further properties of the code *)

(** ** The segments of a path *)

Lemma length_substring (s : string) :
  forall n m : nat,
    (n + m <= String.length s)%nat -> String.length (substring n m s) = m.
Proof.
  induction s as [ | c s IH ]; intros n m H.
  - cbn in H. destruct n, m; try reflexivity; lia.
  - destruct n as [ | n ].
    + destruct m as [ | m ]; [ reflexivity | ].
      cbn [substring String.length]. rewrite IH; [ reflexivity | ].
      cbn [String.length] in H. lia.
    + cbn [substring]. apply IH. cbn [String.length] in H. lia.
Qed.

Lemma string_empty_length (s : string) :
  string_empty s = false <-> (0 < String.length s)%nat.
Proof. destruct s; cbn; split; intros; try discriminate; try lia; reflexivity. Qed.

Lemma splitPath_loop_nonempty (path : string) :
  forall fuel start : nat,
    forallb (fun s => negb (string_empty s)) (splitPath_loop fuel path start) = true.
Proof.
  induction fuel as [ | fuel IH ]; intros start; [ reflexivity | ].
  cbn [splitPath_loop].
  destruct (start <? String.length path)%nat eqn:Hstart; [ | reflexivity ].
  apply Nat.ltb_lt in Hstart.
  destruct (index start "." path) as [ next | ] eqn:Hnext.
  - rewrite forallb_app, IH, andb_true_r.
    destruct (start <? next)%nat eqn:Hlt; [ | reflexivity ].
    apply Nat.ltb_lt in Hlt. apply index_bounds in Hnext.
    cbn [String.length] in Hnext.
    cbn [forallb]. rewrite andb_true_r. apply negb_true_iff.
    apply string_empty_length. rewrite length_substring; lia.
  - cbn [forallb]. rewrite andb_true_r. apply negb_true_iff.
    apply string_empty_length. rewrite length_substring; lia.
Qed.

(** X1.  Every segment [splitPath] returns is non-empty and contains no dot:
    leading, trailing and repeated dots of the path leave no empty segment. *)
Theorem splitPath_proper_segments (path : string) :
  forallb proper_segment (splitPath path) = true.
Proof.
  unfold splitPath.
  pose proof (splitPath_loop_nonempty path (S (String.length path)) 0) as Hne.
  pose proof (splitPath_loop_dot_free path (S (String.length path)) 0) as Hdf.
  revert Hne Hdf.
  generalize (splitPath_loop (S (String.length path)) path 0).
  induction l as [ | s l IH ]; [ reflexivity | ].
  cbn [forallb]. unfold proper_segment at 1. intros Hne Hdf.
  apply andb_prop in Hne. apply andb_prop in Hdf.
  destruct Hne as [-> Hne]. destruct Hdf as [-> Hdf].
  cbn. now apply IH.
Qed.

Lemma length_append (a b : string) :
  String.length (a ++ b) = (String.length a + String.length b)%nat.
Proof. induction a as [ | c a IH ]; cbn; [ reflexivity | now rewrite IH ]. Qed.

Lemma index_shift (pre s1 s : string) (k : nat) :
  index (String.length pre + k) s1 (pre ++ s)
  = option_map (Nat.add (String.length pre)) (index k s1 s).
Proof.
  induction pre as [ | c pre IH ].
  - cbn. now destruct (index k s1 s).
  - cbn [String.length Nat.add append index]. rewrite IH.
    now destruct (index k s1 s).
Qed.

Lemma substring_shift (pre s : string) (k m : nat) :
  substring (String.length pre + k) m (pre ++ s) = substring k m s.
Proof.
  induction pre as [ | c pre IH ]; [ reflexivity | ].
  cbn [String.length Nat.add append substring]. exact IH.
Qed.

Lemma splitPath_loop_shift (pre s : string) :
  forall fuel k : nat,
    splitPath_loop fuel (pre ++ s) (String.length pre + k)
    = splitPath_loop fuel s k.
Proof.
  induction fuel as [ | fuel IH ]; intros k; [ reflexivity | ].
  cbn [splitPath_loop].
  rewrite length_append, index_shift.
  replace (String.length pre + k <? String.length pre + String.length s)%nat
    with (k <? String.length s)%nat
    by (destruct (Nat.ltb_spec k (String.length s));
        destruct (Nat.ltb_spec (String.length pre + k)
                    (String.length pre + String.length s)); lia || reflexivity).
  destruct (k <? String.length s)%nat; [ | reflexivity ].
  destruct (index k "." s) as [ next | ]; cbn [option_map].
  - replace (String.length pre + k <? String.length pre + next)%nat
      with (k <? next)%nat
      by (destruct (Nat.ltb_spec k next);
          destruct (Nat.ltb_spec (String.length pre + k)
                      (String.length pre + next)); lia || reflexivity).
    replace (String.length pre + next - (String.length pre + k))%nat
      with (next - k)%nat by lia.
    rewrite substring_shift.
    replace (String.length pre + next + 1)%nat
      with (String.length pre + (next + 1))%nat by lia.
    now rewrite IH.
  - replace (String.length pre + String.length s - (String.length pre + k))%nat
      with (String.length s - k)%nat by lia.
    now rewrite substring_shift.
Qed.

Lemma index_dot_free (s : string) :
  dot_free s = true -> index 0 "." s = None.
Proof.
  induction s as [ | c s IH ]; [ reflexivity | ].
  cbn [dot_free]. intros H. apply andb_prop in H. destruct H as [Hc Hs].
  apply negb_true_iff, Ascii.eqb_neq in Hc.
  cbn [index prefix].
  destruct (ascii_dec "." c) as [ <- | _ ]; [ now contradiction Hc | ].
  now rewrite (IH Hs).
Qed.

Lemma index_first_dot (seg r : string) :
  dot_free seg = true ->
  index 0 "." (seg ++ String "." r) = Some (String.length seg).
Proof.
  induction seg as [ | c seg IH ].
  - intros _. cbn. now destruct r.
  - cbn [dot_free]. intros H. apply andb_prop in H. destruct H as [Hc Hs].
    apply negb_true_iff, Ascii.eqb_neq in Hc.
    cbn [append index prefix].
    destruct (ascii_dec "." c) as [ <- | _ ]; [ now contradiction Hc | ].
    now rewrite (IH Hs).
Qed.

Lemma append_empty_right (a : string) : a ++ "" = a.
Proof. induction a as [ | c a IH ]; cbn; [ reflexivity | now rewrite IH ]. Qed.

Lemma substring_prefix (a b : string) :
  substring 0 (String.length a) (a ++ b) = a.
Proof.
  induction a as [ | c a IH ].
  - cbn. now destruct b.
  - cbn [String.length append substring]. now rewrite IH.
Qed.

(** X2.  [splitPath] undoes the joining of segments by dots: for segments
    that are non-empty and free of dots, splitting their dot-joined path
    gives the segments back, in order. *)
Theorem splitPath_of_joined (segments : list string) :
  forallb proper_segment segments = true ->
  splitPath (String.concat "." segments) = segments.
Proof.
  induction segments as [ | seg rest IH ]; [ reflexivity | ].
  cbn [forallb]. intros H. apply andb_prop in H. destruct H as [Hseg Hrest].
  unfold proper_segment in Hseg. apply andb_prop in Hseg.
  destruct Hseg as [Hne Hdf]. apply negb_true_iff, string_empty_length in Hne.
  destruct rest as [ | seg' rest ].
  - cbn [String.concat]. unfold splitPath. cbn [splitPath_loop].
    destruct (0 <? String.length seg)%nat eqn:H0;
      [ | apply Nat.ltb_ge in H0; lia ].
    rewrite (index_dot_free seg Hdf), Nat.sub_0_r.
    f_equal. rewrite <- (append_empty_right seg) at 2.
    apply substring_prefix.
  - change (String.concat "." (seg :: seg' :: rest))
      with (seg ++ String "." (String.concat "." (seg' :: rest))).
    set (tail := String.concat "." (seg' :: rest)) in *.
    unfold splitPath. cbn [splitPath_loop].
    rewrite length_append. cbn [String.length].
    destruct (0 <? String.length seg + S (String.length tail))%nat eqn:H0;
      [ | apply Nat.ltb_ge in H0; lia ].
    rewrite (index_first_dot seg tail Hdf).
    destruct (0 <? String.length seg)%nat eqn:H1;
      [ | apply Nat.ltb_ge in H1; lia ].
    rewrite Nat.sub_0_r, substring_prefix. cbn [app]. f_equal.
    replace (seg ++ String "." tail) with ((seg ++ ".") ++ tail)
      by (rewrite append_assoc; reflexivity).
    replace (String.length seg + 1)%nat
      with (String.length (seg ++ ".") + 0)%nat
      by (rewrite length_append; cbn; lia).
    rewrite splitPath_loop_shift.
    rewrite <- (IH Hrest). unfold splitPath.
    apply splitPath_loop_fuel; lia.
Qed.

Lemma splitPath_of_joined_witness :
  forallb proper_segment ["Vehicle"; "Cabin"; "Seat"] = true
  /\ splitPath (String.concat "." ["Vehicle"; "Cabin"; "Seat"])
     = ["Vehicle"; "Cabin"; "Seat"].
Proof.
  split; [ reflexivity | ].
  apply (splitPath_of_joined ["Vehicle"; "Cabin"; "Seat"]). reflexivity.
Defined.

(** ** The two notations of a path *)

Lemma replace_removes (from to : ascii) (s : string) (i : nat) :
  from <> to -> String.get i (replace from to s) <> Some from.
Proof.
  intros Hne. rewrite get_replace.
  destruct (String.get i s) as [ c | ]; cbn; [ | discriminate ].
  destruct (Ascii.eqb c from) eqn:Hc.
  - intros [= H]. now apply Hne.
  - apply Ascii.eqb_neq in Hc. intros [= H]. now apply Hc.
Qed.

Lemma toDuoPath_dot_free (path : string) : dot_free (toDuoPath path) = true.
Proof.
  unfold toDuoPath.
  induction path as [ | c path IH ]; [ reflexivity | ].
  cbn [replace dot_free]. rewrite IH, andb_true_r.
  destruct (Ascii.eqb c ".") eqn:Hc; [ reflexivity | now rewrite Hc ].
Qed.

Lemma toInternalPath_slash_free (path : string) :
  slash_free (toInternalPath path) = true.
Proof.
  unfold toInternalPath.
  induction path as [ | c path IH ]; [ reflexivity | ].
  cbn [replace slash_free]. rewrite IH, andb_true_r.
  destruct (Ascii.eqb c "/") eqn:Hc; [ reflexivity | now rewrite Hc ].
Qed.

Lemma toInternalPath_toDuoPath (path : string) :
  slash_free path = true -> toInternalPath (toDuoPath path) = path.
Proof.
  unfold toInternalPath, toDuoPath.
  induction path as [ | c path IH ]; [ reflexivity | ].
  cbn [slash_free replace]. intros H. apply andb_prop in H.
  destruct H as [Hc Hpath]. apply negb_true_iff in Hc.
  rewrite (IH Hpath).
  destruct (Ascii.eqb c ".") eqn:Hdot.
  - apply Ascii.eqb_eq in Hdot. subst c. reflexivity.
  - now rewrite Hc.
Qed.

Lemma toDuoPath_toInternalPath (path : string) :
  dot_free path = true -> toDuoPath (toInternalPath path) = path.
Proof.
  unfold toInternalPath, toDuoPath.
  induction path as [ | c path IH ]; [ reflexivity | ].
  cbn [dot_free replace]. intros H. apply andb_prop in H.
  destruct H as [Hc Hpath]. apply negb_true_iff in Hc.
  rewrite (IH Hpath).
  destruct (Ascii.eqb c "/") eqn:Hslash.
  - apply Ascii.eqb_eq in Hslash. subst c. reflexivity.
  - now rewrite Hc.
Qed.

(** X3.  [toDuoPath] leaves no dot and [toInternalPath] leaves no slash, for
    any path; each of the two is idempotent, and each undoes the other on
    the other's results. *)
Theorem path_conversion_normal_form :
  forall path : string,
    dot_free (toDuoPath path) = true
    /\ slash_free (toInternalPath path) = true
    /\ toDuoPath (toDuoPath path) = toDuoPath path
    /\ toInternalPath (toInternalPath path) = toInternalPath path
    /\ toDuoPath (toInternalPath (toDuoPath path)) = toDuoPath path
    /\ toInternalPath (toDuoPath (toInternalPath path)) = toInternalPath path.
Proof.
  intros path.
  pose proof (toDuoPath_dot_free path) as Hd.
  pose proof (toInternalPath_slash_free path) as Hs.
  repeat split; try assumption.
  - unfold toDuoPath at 1. now apply replace_dot_free.
  - clear. unfold toInternalPath.
    induction path as [ | c path IH ]; [ reflexivity | ].
    cbn [replace]. rewrite IH.
    destruct (Ascii.eqb c "/") eqn:Hc; [ reflexivity | now rewrite Hc ].
  - now apply toDuoPath_toInternalPath.
  - now apply toInternalPath_toDuoPath.
Qed.

(** X4.  The two conversions are inverse to each other exactly where no
    separator is lost: a dotted path without a slash survives the way to the
    Duo notation and back, and a slash-separated path without a dot survives
    the way to the internal notation and back. *)
Theorem path_conversion_roundtrip :
  forall internal duo : string,
    slash_free internal = true ->
    dot_free duo = true ->
    toInternalPath (toDuoPath internal) = internal
    /\ toDuoPath (toInternalPath duo) = duo.
Proof.
  intros internal duo Hinternal Hduo. split.
  - now apply toInternalPath_toDuoPath.
  - now apply toDuoPath_toInternalPath.
Qed.

Lemma path_conversion_roundtrip_witness :
  slash_free "Vehicle.Speed" = true
  /\ dot_free "Vehicle/Cabin/Seat" = true
  /\ toInternalPath (toDuoPath "Vehicle.Speed") = "Vehicle.Speed"
  /\ toDuoPath (toInternalPath "Vehicle/Cabin/Seat") = "Vehicle/Cabin/Seat".
Proof.
  split; [ reflexivity | split; [ reflexivity | ] ].
  apply (path_conversion_roundtrip "Vehicle.Speed" "Vehicle/Cabin/Seat");
    reflexivity.
Defined.

(** ** Resolution of the paths that flattening lists *)

Lemma fields_find_distinct (fields : list (string * Value)) (key : string)
  (v : Value) :
  distinct (map fst fields) = true ->
  In (key, v) fields ->
  fields_find fields key = Some v.
Proof.
  induction fields as [ | [k w] rest IH ]; intros Hd Hin; [ contradiction | ].
  cbn [map fst distinct] in Hd. apply andb_prop in Hd.
  destruct Hd as [Hfresh Hrest]. apply negb_true_iff in Hfresh.
  cbn [fields_find].
  destruct Hin as [ [= -> ->] | Hin ].
  - now rewrite String.eqb_refl.
  - destruct (String.eqb k key) eqn:Hk; [ | now apply IH ].
    apply String.eqb_eq in Hk. subst k.
    assert (existsb (String.eqb key) (map fst rest) = true) as Hex.
    { apply existsb_exists. exists key. split; [ | apply String.eqb_refl ].
      change key with (fst (key, v)). now apply in_map. }
    rewrite Hex in Hfresh. discriminate.
Qed.

Lemma locateLeaf_direct_key (fields : list (string * Value)) (key : string)
  (next : Value) (following : list string) :
  fields_find fields key = Some next ->
  locateLeaf (struct_value fields) (key :: following) = locateLeaf next following.
Proof.
  intros H. rewrite locateLeaf_struct_step.
  unfold candidate_keys. cbn [first_present]. now rewrite H.
Qed.

(** X5.  Resolution finds what flattening lists: in a value whose structs
    list no key twice, every leaf that [leaves] lists under a sequence of
    keys is the leaf [locateLeaf] resolves that sequence to, also when keys
    contain dots or slashes. *)
Theorem locateLeaf_finds_flattened_leaf :
  forall (root : Value) (keys : list string) (leaf : Value),
    unique_keys root = true ->
    In (keys, leaf) (leaves root) ->
    locateLeaf root keys = Some leaf.
Proof.
  intros root.
  induction root as [ | | d | s | b | fields IH | values IH ]
    using Value_nested_ind; intros keys leaf Hunique Hin;
    try (cbn in Hin; destruct Hin as [ [= <- <-] | [] ]; reflexivity).
  cbn [unique_keys] in Hunique. apply andb_prop in Hunique.
  destruct Hunique as [Hdistinct Hnested].
  cbn [leaves] in Hin.
  assert (exists key nested ks,
             In (key, nested) fields /\ unique_keys nested = true
             /\ keys = key :: ks /\ In (ks, leaf) (leaves nested)
             /\ (forall ks' leaf',
                    unique_keys nested = true ->
                    In (ks', leaf') (leaves nested) ->
                    locateLeaf nested ks' = Some leaf'))
    as (key & nested & ks & Hfield & Hun & -> & Hleaf & IHnested).
  { clear Hdistinct.
    induction IH as [ | [k n] rest Hn _ IHrest ]; [ contradiction | ].
    apply andb_prop in Hnested. destruct Hnested as [Hun Hrest].
    apply in_app_or in Hin. destruct Hin as [Hin | Hin].
    - apply in_map_iff in Hin. destruct Hin as ([ks l] & [= <- <-] & Hl).
      exists k, n, ks. cbn [fst snd] in *.
      repeat split; auto. now left.
    - destruct (IHrest Hrest Hin) as (key & nested & ks & Hf & H1 & H2 & H3 & H4).
      exists key, nested, ks. repeat split; auto. now right. }
  rewrite (locateLeaf_direct_key fields key nested ks).
  - now apply IHnested.
  - now apply fields_find_distinct.
Qed.

Lemma locateLeaf_finds_flattened_leaf_witness :
  let root :=
    struct_value
      [("Vehicle", struct_value [("Speed", string_value "fast");
                                 ("Cabin.Door", bool_value true)])] in
  unique_keys root = true
  /\ In (["Vehicle"; "Cabin.Door"], bool_value true) (leaves root)
  /\ locateLeaf root ["Vehicle"; "Cabin.Door"] = Some (bool_value true).
Proof.
  cbv zeta.
  assert (In (["Vehicle"; "Cabin.Door"], bool_value true)
             (leaves
                (struct_value
                   [("Vehicle", struct_value [("Speed", string_value "fast");
                                              ("Cabin.Door", bool_value true)])])))
    as Hin by (simpl; right; left; reflexivity).
  split; [ reflexivity | split; [ exact Hin | ] ].
  apply (locateLeaf_finds_flattened_leaf
           (struct_value
              [("Vehicle", struct_value [("Speed", string_value "fast");
                                         ("Cabin.Door", bool_value true)])])
           ["Vehicle"; "Cabin.Door"] (bool_value true));
    [ reflexivity | exact Hin ].
Defined.

Lemma fields_find_In (fields : list (string * Value)) (key : string)
  (v : Value) :
  fields_find fields key = Some v -> In (key, v) fields.
Proof.
  induction fields as [ | [k w] rest IH ]; [ discriminate | ].
  cbn [fields_find].
  destruct (String.eqb k key) eqn:Hk.
  - apply String.eqb_eq in Hk. subst k. intros [= ->]. now left.
  - intros H. right. now apply IH.
Qed.

Lemma first_present_In (fields : list (string * Value)) (keys : list string)
  (v : Value) :
  first_present fields keys = Some v ->
  exists key, In key keys /\ In (key, v) fields.
Proof.
  induction keys as [ | key keys IH ]; [ discriminate | ].
  cbn [first_present].
  destruct (fields_find fields key) as [ found | ] eqn:Hfind.
  - intros [= ->]. exists key. split; [ now left | now apply fields_find_In ].
  - intros H. destruct (IH H) as (k & Hk & Hin). exists k. split; auto.
    now right.
Qed.

(** X28.  What [locateLeaf] returns is a value of the payload itself: the
    root, or a value reached from it by going from struct to field at most
    once per segment.  A struct is returned only when every segment was
    used up on the way to it. *)
Theorem locateLeaf_descends :
  forall (segments : list string) (root leaf : Value),
    locateLeaf root segments = Some leaf ->
    exists n : nat,
      (n <= List.length segments)%nat
      /\ at_depth n leaf root
      /\ (has_struct_value leaf = false \/ n = List.length segments).
Proof.
  induction segments as [ | segment following IH ]; intros root leaf Hlocate.
  - unfold locateLeaf in Hlocate. cbn [List.length Nat.eqb] in Hlocate.
    rewrite orb_true_r in Hlocate. injection Hlocate as <-.
    exists 0%nat. split; [ cbn; lia | split; [ constructor | now right ] ].
  - destruct root as [ | | d | s | b | fields | values ];
      try (injection Hlocate as <-; exists 0%nat;
           split; [ cbn; lia | split; [ constructor | now left ] ]).
    rewrite locateLeaf_struct_step in Hlocate.
    destruct (first_present fields (candidate_keys segment following))
      as [ next | ] eqn:Hnext; [ | discriminate ].
    destruct (first_present_In _ _ _ Hnext) as (key & _ & Hin).
    destruct (IH next leaf Hlocate) as (n & Hn & Hdepth & Hleaf).
    exists (S n). split; [ | split ].
    + cbn [List.length]. lia.
    + now apply (at_field n fields key next).
    + destruct Hleaf as [ Hleaf | -> ]; [ now left | now right ].
Qed.

Lemma locateLeaf_descends_witness :
  let root := struct_value [("Vehicle", struct_value [("Speed", null_value)])] in
  locateLeaf root ["Vehicle"] = Some (struct_value [("Speed", null_value)])
  /\ exists n : nat,
       (n <= List.length ["Vehicle"])%nat
       /\ at_depth n (struct_value [("Speed", null_value)]) root
       /\ (has_struct_value (struct_value [("Speed", null_value)]) = false
           \/ n = List.length ["Vehicle"]).
Proof.
  cbv zeta. split; [ reflexivity | ].
  apply (locateLeaf_descends ["Vehicle"]
           (struct_value [("Vehicle", struct_value [("Speed", null_value)])])).
  reflexivity.
Defined.

(** ** Conversion to an integer and to a bool *)

(** X6.  What [convertToIntegral] accepts.  A result is always within the
    range of the integer type asked for.  It comes from a number, which is
    then finite and whose nearest integer (ties to even) is the result; or
    from text, which the C library conversion then consumed to its last
    character; or from a bool, giving 1 or 0.  Null, list, struct and unset
    values are never accepted. *)
Theorem convertToIntegral_accepts :
  forall (T : IntType) (value : Value) (n : Z),
    convertToIntegral T value = ret n ->
    in_range T n = true
    /\ match value with
       | number_value d => isfinite d = true /\ n = nearbyintl d
       | string_value str =>
           exists parsed,
             (if is_unsigned T then stoull str else stoll str)
             = sto_value parsed (String.length str)
       | bool_value b => n = if b then 1 else 0
       | _ => False
       end.
Proof.
  intros T value n H.
  split; [ now apply (convertToIntegral_in_range T value) | ].
  destruct value as [ | | d | str | b | fields | values ];
    try discriminate H.
  - rewrite convertToIntegral_number in H.
    destruct (isfinite d); [ | discriminate H ].
    destruct (in_range T (nearbyintl d)); [ | discriminate H ].
    injection H as <-. now split.
  - now apply (convertToIntegral_whole_text T str n).
  - destruct b; cbn in H; now injection H as <-.
Qed.

Lemma convertToIntegral_accepts_witness :
  convertToIntegral int8_t (string_value " -0x7f") = ret (-127)
  /\ in_range int8_t (-127) = true
  /\ exists parsed,
       (if is_unsigned int8_t then stoull " -0x7f" else stoll " -0x7f")
       = sto_value parsed (String.length " -0x7f").
Proof.
  split; [ reflexivity | ].
  apply (convertToIntegral_accepts int8_t (string_value " -0x7f") (-127)).
  reflexivity.
Defined.

(** X7.  An integer that the wire encoding holds exactly is decoded for any
    integer type by its range alone: the number that encodes it converts to it
    when it is in the range of the type asked for, and is rejected as out of
    range otherwise, whatever type it was encoded from. *)
Theorem convertToIntegral_of_encoded_integer :
  forall (T : IntType) (n : Z),
    exactly_representable n ->
    Z.abs n < 2 ^ 1024 ->
    convertToIntegral T (number_value (double_of_Z n)) =
      if in_range T n then ret n
      else throw (InvalidValueException "Integer value out of range.").
Proof.
  intros T n Hrep Hbound.
  destruct (double_of_Z_exact n Hrep Hbound) as [Hfinite Hrounded].
  rewrite convertToIntegral_number, Hfinite, Hrounded.
  reflexivity.
Qed.

Lemma convertToIntegral_of_encoded_integer_witness :
  exactly_representable 300
  /\ Z.abs 300 < 2 ^ 1024
  /\ convertToIntegral uint8_t (number_value (double_of_Z 300))
     = (if in_range uint8_t 300 then ret 300
        else throw (InvalidValueException "Integer value out of range.")).
Proof.
  assert (exactly_representable 300) as Hrep by (exists 300, 0; lia).
  assert (Z.abs 300 < 2 ^ 1024) as Hbound by (vm_compute; reflexivity).
  split; [ exact Hrep | split; [ exact Hbound | ] ].
  apply (convertToIntegral_of_encoded_integer uint8_t 300 Hrep Hbound).
Defined.

Lemma tolower_idempotent (c : ascii) : tolower (tolower c) = tolower c.
Proof.
  destruct c as [[] [] [] [] [] [] [] []]; reflexivity.
Qed.

Lemma toLowerCopy_idempotent (s : string) :
  toLowerCopy (toLowerCopy s) = toLowerCopy s.
Proof.
  induction s as [ | c s IH ]; [ reflexivity | ].
  cbn [toLowerCopy]. now rewrite tolower_idempotent, IH.
Qed.

(** X8.  [convertToBool] does not depend on the case of a text nor on the
    sign of a number; a zero of either sign is false, an infinity of either
    sign is true, and a NaN is false. *)
Theorem convertToBool_case_and_sign :
    (forall s : string,
        convertToBool (string_value (toLowerCopy s))
        = convertToBool (string_value s))
    /\ (forall d : double,
           convertToBool (number_value (SFopp d))
           = convertToBool (number_value d))
    /\ (forall sign : bool,
           convertToBool (number_value (S754_zero sign)) = ret false
           /\ convertToBool (number_value (S754_infinity sign)) = ret true)
    /\ convertToBool (number_value S754_nan) = ret false.
Proof.
  split; [ | split; [ | split ] ].
  - intros s. cbn [convertToBool]. now rewrite toLowerCopy_idempotent.
  - intros d. destruct d; reflexivity.
  - intros sign. split; reflexivity.
  - reflexivity.
Qed.

Lemma binary_round_integer_normal (s : bool) (p : positive) :
  exactly_representable (Zpos p) ->
  Zpos p < 2 ^ 1024 ->
  exists (q : positive) (c : Z),
    binary_round dprec demax s p 0 = S754_finite s q c
    /\ digits2_pos q = 53%positive
    /\ -52 <= c <= 971.
Proof.
  intros Hrep Hbound.
  pose proof (digits2_pos_le p 1024 ltac:(lia) Hbound) as Hd.
  destruct (Z.compare_spec (Zpos (digits2_pos p)) 53) as [Heq | Hlt | Hgt].
  - exists p, 0. split; [ | split; [ lia | lia ] ].
    apply binary_round_same.
    unfold bounded, canonical_mantissa. rewrite Heq. reflexivity.
  - set (j := Z.to_pos (53 - Zpos (digits2_pos p))).
    assert (Zpos j = 53 - Zpos (digits2_pos p)) as Hj by (unfold j; lia).
    exists (Pos.iter xO p j), (0 - Zpos j). split; [ | split ].
    + apply binary_round_widen.
      unfold bounded, canonical_mantissa, fexp, emin, dprec, demax.
      rewrite digits2_pos_iter_xO.
      apply andb_true_intro. split; [ apply Z.eqb_eq | apply Z.leb_le ]; lia.
    + rewrite digits2_pos_iter_xO. lia.
    + lia.
  - destruct (split_mantissa p Hrep Hgt) as (q & Hq & Hp).
    set (j := Z.to_pos (Zpos (digits2_pos p) - 53)) in *.
    assert (Zpos j = Zpos (digits2_pos p) - 53) as Hj by (unfold j; lia).
    exists q, (Zpos j). split; [ | split; [ exact Hq | lia ] ].
    rewrite Hp at 1.
    replace 0 with (Zpos j - Zpos j) by lia.
    apply binary_round_narrow.
    unfold bounded, canonical_mantissa, fexp, emin, dprec, demax.
    rewrite Hq.
    apply andb_true_intro. split; [ apply Z.eqb_eq | apply Z.leb_le ]; lia.
Qed.

Lemma long_double_of_normal (q : positive) (c : Z) :
  digits2_pos q = 53%positive ->
  -52 <= c <= 971 ->
  long_double_of_double (S754_finite false q c)
  = S754_finite false (Pos.iter xO q 11) (c - 11).
Proof.
  intros Hq Hc.
  unfold long_double_of_double, convert_format. cbn [cond_Zopp binary_normalize].
  apply binary_round_widen.
  unfold bounded, canonical_mantissa, fexp, emin, lprec, lemax.
  rewrite digits2_pos_iter_xO, Hq.
  apply andb_true_intro. split; [ apply Z.eqb_eq | apply Z.leb_le ]; lia.
Qed.

Lemma kEpsilon_value :
  kEpsilon = S754_finite false 9671406556917033398 (-83).
Proof. vm_compute. reflexivity. Qed.

(** X9.  The number that encodes an integer converts to the bool that says
    whether the integer is not zero: the threshold of [convertToBool] is below
    every whole number other than zero. *)
Theorem convertToBool_of_encoded_integer :
  forall n : Z,
    exactly_representable n ->
    Z.abs n < 2 ^ 1024 ->
    convertToBool (number_value (double_of_Z n)) = ret (negb (n =? 0)).
Proof.
  intros n Hrep Hbound.
  destruct n as [ | p | p ]; [ reflexivity | | ].
  - destruct (binary_round_integer_normal false p Hrep Hbound)
      as (q & c & Hround & Hq & Hc).
    unfold double_of_Z, binary_normalize. rewrite Hround.
    cbn [convertToBool SFabs]. rewrite (long_double_of_normal q c Hq Hc).
    rewrite kEpsilon_value. unfold SFltb, SFcompare.
    destruct (Z.compare_spec (-83) (c - 11)); [ lia | reflexivity | lia ].
  - apply exactly_representable_opp in Hrep. cbn [Z.opp] in Hrep.
    destruct (binary_round_integer_normal true p Hrep Hbound)
      as (q & c & Hround & Hq & Hc).
    unfold double_of_Z, binary_normalize. rewrite Hround.
    cbn [convertToBool SFabs]. rewrite (long_double_of_normal q c Hq Hc).
    rewrite kEpsilon_value. unfold SFltb, SFcompare.
    destruct (Z.compare_spec (-83) (c - 11)); [ lia | reflexivity | lia ].
Qed.

Lemma convertToBool_of_encoded_integer_witness :
  exactly_representable (-7)
  /\ Z.abs (-7) < 2 ^ 1024
  /\ convertToBool (number_value (double_of_Z (-7))) = ret (negb (-7 =? 0)).
Proof.
  assert (exactly_representable (-7)) as Hrep by (exists (-7), 0; lia).
  assert (Z.abs (-7) < 2 ^ 1024) as Hbound by (vm_compute; reflexivity).
  split; [ exact Hrep | split; [ exact Hbound | ] ].
  apply (convertToBool_of_encoded_integer (-7) Hrep Hbound).
Defined.

(** ** Lists and the shape of the converted values *)

(** X10.  [convertList] converts all elements or none: a result has one
    converted element per element of the list, in order; a failure is the
    failure of the first element that does not convert, or, for a value
    that is no list, the exception for a missing list. *)
Theorem convertList_all_or_nothing :
  forall (A : Type) (converter : Value -> Result A) (value : Value),
    match convertList value converter with
    | inr l =>
        exists values,
          value = list_value values
          /\ Forall2 (fun v x => converter v = ret x) values l
    | inl e =>
        match value with
        | list_value values =>
            exists before v after,
              values = (before ++ v :: after)%list
              /\ Forall (fun v => exists x, converter v = ret x) before
              /\ converter v = throw e
        | _ => e = InvalidValueException
                     "Expected list value for array conversion."
        end
    end.
Proof.
  intros A converter value.
  destruct value as [ | | d | s | b | fields | values ];
    try reflexivity.
  cbn [convertList].
  induction values as [ | v values IH ].
  - cbn. exists []. split; [ reflexivity | constructor ].
  - cbn [convertList_loop].
    destruct (converter v) as [ e | x ] eqn:Hv; cbn [bind].
    + exists [], v, values. repeat split; [ constructor | exact Hv ].
    + destruct (convertList_loop converter values) as [ e | l ]; cbn [bind ret].
      * destruct IH as (before & w & after & -> & Hbefore & Hw).
        exists (v :: before), w, after.
        repeat split; [ | exact Hw ].
        constructor; [ now exists x | exact Hbefore ].
      * destruct IH as (values' & [= <-] & Hall).
        exists (v :: values). split; [ reflexivity | ].
        constructor; [ exact Hv | exact Hall ].
Qed.

(** X11.  What [fromDuoValue] returns carries the type, path and timestamp
    it was called with, the type is one of the supported ones, and it is
    valid exactly when the leaf the path resolves to is not null. *)
Theorem fromDuoValue_result_shape :
  forall (platform : Platform) (path : string) (t : DataPointValue_Type)
         (value : Value) (timestamp : Timestamp) (r : DataPointValue),
    fromDuoValue platform path t value timestamp = ret r ->
    getType r = t /\ getPath r = path /\ getTimestamp r = timestamp
    /\ supported t = true
    /\ exists leaf : Value,
         locateLeaf value (splitPath path) = Some leaf
         /\ isValid r = negb (has_null_value leaf).
Proof.
  intros platform path t value timestamp r. unfold fromDuoValue.
  destruct (locateLeaf value (splitPath path)) as [ leaf | ];
    [ | discriminate ].
  destruct (has_null_value leaf) eqn:Hnull.
  - destruct t; try discriminate; intros [= <-];
      (repeat split; try reflexivity); exists leaf; now rewrite Hnull.
  - destruct (convertLeaf platform t leaf) as [ e | data ] eqn:Hleaf;
      [ discriminate | ].
    cbn [bind ret]. intros [= <-].
    repeat split; try reflexivity.
    + destruct t; try reflexivity. discriminate Hleaf.
    + exists leaf. now rewrite Hnull.
Qed.

Lemma fromDuoValue_result_shape_witness :
  let value := struct_value [("Vehicle", struct_value [("Speed", null_value)])] in
  let r := makeFailedValue INT32 "Vehicle.Speed" 7 NOT_AVAILABLE in
  fromDuoValue bare_platform "Vehicle.Speed" INT32 value 7 = ret r
  /\ getType r = INT32 /\ getPath r = "Vehicle.Speed" /\ getTimestamp r = 7
  /\ supported INT32 = true
  /\ exists leaf : Value,
       locateLeaf value (splitPath "Vehicle.Speed") = Some leaf
       /\ isValid r = negb (has_null_value leaf).
Proof.
  cbv zeta. split; [ reflexivity | ].
  apply (fromDuoValue_result_shape bare_platform "Vehicle.Speed" INT32
           (struct_value [("Vehicle", struct_value [("Speed", null_value)])]) 7).
  reflexivity.
Defined.

Lemma convertList_loop_fails (A : Type) (converter : Value -> Result A)
  (bad : Value) (values : list Value) :
  (exists e, converter bad = throw e) ->
  In bad values ->
  exists e, convertList_loop converter values = throw e.
Proof.
  intros [e He] Hin.
  induction values as [ | v values IH ]; [ contradiction | ].
  cbn [convertList_loop].
  destruct Hin as [ -> | Hin ].
  - rewrite He. now exists e.
  - destruct (converter v) as [ e1 | x ]; cbn [bind]; [ now exists e1 | ].
    destruct (IH Hin) as [e2 ->]. now exists e2.
Qed.

(** X12.  A null among the elements of a list fails the conversion to any
    array type other than the array of strings: an array has no place for a
    missing element. *)
Theorem fromDuoValue_null_element :
  forall (platform : Platform) (path : string) (t : DataPointValue_Type)
         (values : list Value) (timestamp : Timestamp),
    is_array t = true ->
    is_string_array t = false ->
    In null_value values ->
    exists e : Exn,
      fromDuoValue platform path t (list_value values) timestamp = throw e.
Proof.
  intros platform path t values timestamp Harray Hstring Hin.
  rewrite (fromDuoValue_leaf platform path t (list_value values) timestamp)
    by reflexivity.
  assert (exists e, convertLeaf platform t (list_value values) = throw e)
    as [e ->].
  { destruct t; try discriminate Harray; try discriminate Hstring;
      cbn [convertLeaf convertList];
      apply (convertList_loop_fails _ _ null_value); try exact Hin;
      eexists; reflexivity. }
  now exists e.
Qed.

Lemma fromDuoValue_null_element_witness :
  is_array INT32_ARRAY = true
  /\ is_string_array INT32_ARRAY = false
  /\ In null_value [string_value "1"; null_value]
  /\ exists e : Exn,
       fromDuoValue bare_platform "Vehicle.Trip" INT32_ARRAY
         (list_value [string_value "1"; null_value]) 0 = throw e.
Proof.
  assert (In null_value [string_value "1"; null_value]) as Hin
      by (simpl; right; left; reflexivity).
  split; [ reflexivity | split; [ reflexivity | split; [ exact Hin | ] ] ].
  apply (fromDuoValue_null_element bare_platform "Vehicle.Trip" INT32_ARRAY
           [string_value "1"; null_value] 0);
    [ reflexivity | reflexivity | exact Hin ].
Defined.

(** X13.  In an array of strings a null element is not an error: a list of
    nulls converts to as many empty strings. *)
Theorem fromDuoValue_null_strings :
  forall (platform : Platform) (path : string) (n : nat) (timestamp : Timestamp),
    fromDuoValue platform path STRING_ARRAY
      (list_value (repeat null_value n)) timestamp
    = ret (makeTypedValue STRING_ARRAY path (repeat "" n) timestamp).
Proof.
  intros platform path n timestamp.
  rewrite (fromDuoValue_leaf platform path) by reflexivity.
  cbn [convertLeaf convertList].
  assert (convertList_loop (convertToString platform) (repeat null_value n)
          = ret (repeat "" n)) as ->.
  { induction n as [ | n IH ]; [ reflexivity | ].
    cbn [repeat convertList_loop convertToString bind ret]. rewrite IH.
    reflexivity. }
  reflexivity.
Qed.

(** X14.  What [toDuoValue] produces is never a struct and never without a
    kind; it is null exactly for a data point that is not valid, and a list
    exactly for a valid data point of an array type.  The only failure is a
    valid data point of the type INVALID. *)
Theorem toDuoValue_kind :
  forall v : DataPointValue,
    match toDuoValue v with
    | inr encoded =>
        has_struct_value encoded = false
        /\ encoded <> kind_not_set
        /\ has_null_value encoded = negb (isValid v)
        /\ has_list_value encoded = isValid v && is_array (getType v)
    | inl e =>
        isValid v = true /\ getType v = INVALID /\ e = unsupported_type
    end.
Proof.
  intros [t path timestamp [ failure | data ]].
  - cbn. repeat split. discriminate.
  - destruct t; cbn in data |- *; repeat split; discriminate.
Qed.

(** ** Joining of segments *)

(** X15.  [joinPathSegments] joins the non-empty segments by slashes, in
    order: an empty segment adds neither text nor a separator. *)
Theorem joinPathSegments_skips_empty :
  forall segments : list string,
    joinPathSegments segments
    = String.concat "/" (filter (fun s => negb (string_empty s)) segments).
Proof.
  intros segments. rewrite joinPathSegments_slash_joined. reflexivity.
Qed.

(** ** The map of a set request *)

Lemma ascii_compare_lt_trans (a b c : ascii) :
  Ascii.compare a b = Lt -> Ascii.compare b c = Lt -> Ascii.compare a c = Lt.
Proof.
  unfold Ascii.compare. rewrite !N.compare_lt_iff. lia.
Qed.

Lemma string_compare_lt_trans (a : string) :
  forall b c : string,
    String.compare a b = Lt -> String.compare b c = Lt ->
    String.compare a c = Lt.
Proof.
  induction a as [ | x a IH ]; intros [ | y b ] [ | z c ]; cbn;
    try discriminate; try reflexivity.
  destruct (Ascii.compare x y) eqn:Hxy; try discriminate;
    destruct (Ascii.compare y z) eqn:Hyz; try discriminate; intros Hab Hbc.
  - apply Ascii.compare_eq_iff in Hxy, Hyz. subst y z.
    assert (Ascii.compare x x = Eq) as -> by (apply N.compare_refl).
    now apply (IH b c).
  - apply Ascii.compare_eq_iff in Hxy. subst y. now rewrite Hyz.
  - apply Ascii.compare_eq_iff in Hyz. subst z. now rewrite Hxy.
  - now rewrite (ascii_compare_lt_trans x y z Hxy Hyz).
Qed.

Lemma string_compare_refl (a : string) : String.compare a a = Eq.
Proof.
  induction a as [ | x a IH ]; [ reflexivity | ].
  cbn. unfold Ascii.compare. now rewrite N.compare_refl.
Qed.

Lemma map_emplace_In {V : Type} (key : string) (value : V)
  (m : list (string * V)) (x : string * V) :
  In x (map_emplace key value m) -> x = (key, value) \/ In x m.
Proof.
  induction m as [ | [k v] rest IH ]; cbn [map_emplace].
  - intros [ <- | [] ]. now left.
  - destruct (String.compare key k).
    + now right.
    + intros [ <- | H ]; [ now left | now right ].
    + intros [ <- | H ]; [ right; now left | ].
      destruct (IH H) as [ -> | H' ]; [ now left | right; now right ].
Qed.

Lemma map_emplace_keeps {V : Type} (key : string) (value : V)
  (m : list (string * V)) (x : string * V) :
  In x m -> In x (map_emplace key value m).
Proof.
  induction m as [ | [k v] rest IH ]; [ contradiction | ].
  cbn [map_emplace]. intros Hin.
  destruct (String.compare key k); [ exact Hin | now right | ].
  destruct Hin as [ <- | Hin ]; [ now left | right; now apply IH ].
Qed.

Lemma map_emplace_has_key {V : Type} (key : string) (value : V)
  (m : list (string * V)) :
  In key (map fst (map_emplace key value m)).
Proof.
  induction m as [ | [k v] rest IH ]; cbn [map_emplace].
  - now left.
  - destruct (String.compare key k) eqn:Hk.
    + apply String.compare_eq_iff in Hk. subst k. now left.
    + now left.
    + right. exact IH.
Qed.

Lemma map_emplace_sorted {V : Type} (key : string) (value : V)
  (m : list (string * V)) :
  StronglySorted key_lt m -> StronglySorted key_lt (map_emplace key value m).
Proof.
  induction m as [ | [k v] rest IH ]; intros Hsorted; cbn [map_emplace].
  - repeat constructor.
  - inversion Hsorted as [ | ? ? Hrest Hall ]; subst.
    destruct (String.compare key k) eqn:Hk.
    + exact Hsorted.
    + constructor; [ exact Hsorted | ].
      constructor; [ exact Hk | ].
      eapply Forall_impl; [ | exact Hall ].
      intros [k' v'] Hlt. unfold key_lt in *. cbn [fst] in *.
      now apply (string_compare_lt_trans key k k').
    + constructor; [ now apply IH | ].
      apply Forall_forall. intros x Hx.
      apply map_emplace_In in Hx. destruct Hx as [ -> | Hx ].
      * unfold key_lt. cbn [fst].
        rewrite String.compare_antisym, Hk. reflexivity.
      * revert x Hx. now apply Forall_forall.
Qed.

Lemma setDatapoints_map_spec (datapoints : list DataPointValue) :
  forall m0 m : list (string * Value),
    setDatapoints_map datapoints m0 = ret m ->
    StronglySorted key_lt m0 ->
    StronglySorted key_lt m
    /\ (forall d, In d datapoints -> In (getPath d) (map fst m))
    /\ (forall x, In x m0 -> In x m)
    /\ (forall x, In x m ->
                  In x m0
                  \/ exists d, In d datapoints /\ getPath d = fst x
                               /\ toDuoValue d = ret (snd x)).
Proof.
  induction datapoints as [ | d rest IH ]; intros m0 m Hmap Hsorted.
  - cbn in Hmap. injection Hmap as <-.
    repeat split; auto. intros d [].
  - cbn [setDatapoints_map] in Hmap.
    destruct (toDuoValue d) as [ e | value ] eqn:Hd; [ discriminate | ].
    destruct (IH _ _ Hmap (map_emplace_sorted (getPath d) value m0 Hsorted))
      as (Hs & Hkeys & Hkeep & Horigin).
    repeat split.
    + exact Hs.
    + intros d' [ <- | Hin ]; [ | now apply Hkeys ].
      pose proof (map_emplace_has_key (getPath d) value m0) as Hk.
      apply in_map_iff in Hk. destruct Hk as (x & Hx & Hin).
      rewrite <- Hx. apply in_map. now apply Hkeep.
    + intros x Hx. apply Hkeep. now apply map_emplace_keeps.
    + intros x Hx. destruct (Horigin x Hx) as [ Hin | (d' & Hd' & Hp & Hv) ].
      * apply map_emplace_In in Hin. destruct Hin as [ -> | Hin ];
          [ right; exists d; repeat split; [ now left | exact Hd ] | now left ].
      * right. exists d'. repeat split; auto. now right.
Qed.

(** X16.  Of the data points given to [setDatapoints] only one is sent: the
    one job issued has as target the path that is least in the order of
    strings among the paths given, unconverted, with the encoding of a data
    point of that path as value; the other data points take no part in the
    request. *)
Theorem setDatapoints_targets_least_path :
  forall (datapoints : list DataPointValue) (w : World) (result : nat)
         (w' : World),
    setDatapoints datapoints w = ret (result, w') ->
    datapoints <> [] ->
    exists (path : string) (value : Value),
      issued w' = (issued w ++ [CreateJob {| job_thing := "vss";
                                            document := job_document path value |}])%list
      /\ (exists d, In d datapoints /\ getPath d = path
                    /\ toDuoValue d = ret value)
      /\ Forall (fun d => String.leb path (getPath d) = true) datapoints.
Proof.
  intros datapoints w result w' Hset Hne.
  unfold setDatapoints in Hset.
  destruct (setDatapoints_map datapoints []) as [ e | m ] eqn:Hmap;
    [ discriminate | ].
  destruct (setDatapoints_map_spec datapoints [] m Hmap (SSorted_nil _))
    as (Hsorted & Hkeys & _ & Horigin).
  destruct m as [ | [path value] rest ].
  - destruct datapoints as [ | d ds ]; [ now contradiction Hne | ].
    destruct (Hkeys d (or_introl eq_refl)).
  - injection Hset as <- <-. exists path, value. split; [ reflexivity | split ].
    + destruct (Horigin (path, value) (or_introl eq_refl))
        as [ [] | (d & Hd & Hp & Hv) ].
      now exists d.
    + apply Forall_forall. intros d Hd.
      specialize (Hkeys d Hd). cbn [map fst] in Hkeys.
      unfold String.leb.
      destruct Hkeys as [ <- | Hin ].
      * now rewrite string_compare_refl.
      * inversion Hsorted as [ | ? ? _ Hall ]; subst.
        apply in_map_iff in Hin. destruct Hin as (x & Hx & Hin).
        rewrite Forall_forall in Hall. specialize (Hall x Hin).
        unfold key_lt in Hall. cbn [fst] in Hall. rewrite Hx in Hall.
        now rewrite Hall.
Qed.

Lemma setDatapoints_targets_least_path_witness :
  let datapoints := [makeTypedValue STRING "Vehicle.Speed" "fast" 0;
                     makeTypedValue BOOL "Vehicle.Cabin" true 0] in
  exists w' : World,
    setDatapoints datapoints initial = ret (0%nat, w')
    /\ datapoints <> []
    /\ exists (path : string) (value : Value),
         issued w' = (issued initial
                        ++ [CreateJob {| job_thing := "vss";
                                         document := job_document path value |}])%list
         /\ (exists d, In d datapoints /\ getPath d = path
                       /\ toDuoValue d = ret value)
         /\ Forall (fun d => String.leb path (getPath d) = true) datapoints.
Proof.
  cbv zeta. eexists.
  split; [ reflexivity | split; [ discriminate | ] ].
  eapply (setDatapoints_targets_least_path
            [makeTypedValue STRING "Vehicle.Speed" "fast" 0;
             makeTypedValue BOOL "Vehicle.Cabin" true 0] initial 0%nat);
    [ reflexivity | discriminate ].
Defined.

(** ** A call from the request to its completion *)

Lemma substr_after_item (text : string) :
  substr_after text "item "
  = if reply_text_ok text
    then ret (substring
                (match index 0 "item " text with
                 | Some n => n + 5 | None => 4 end)%nat
                (String.length text
                 - match index 0 "item " text with
                   | Some n => n + 5 | None => 4 end)%nat text)
    else throw (std_exception
                  ("basic_string::substr: __pos (which is 4) > this->size() (which is "
                     ++ decimal (String.length text) ++ ")")).
Proof.
  unfold substr_after, reply_text_ok.
  destruct (index 0 "item " text) as [ n | ] eqn:Hindex.
  - apply index_bounds in Hindex. cbn [String.length] in *.
    destruct (Nat.ltb_spec (String.length text) (n + 5)); [ lia | reflexivity ].
  - cbn [String.length Nat.sub].
    destruct (Nat.ltb_spec (String.length text) 4),
             (Nat.leb_spec 4 (String.length text)); try lia; reflexivity.
Qed.

Lemma nth_error_snoc {A : Type} (l : list A) (x : A) :
  nth_error (l ++ [x]) (List.length l) = Some x.
Proof.
  rewrite nth_error_app2 by lia. now rewrite Nat.sub_diag.
Qed.

Lemma update_snoc {A : Type} (f : A -> A) (l : list A) (x : A) :
  update (List.length l) f (l ++ [x]) = (l ++ [f x])%list.
Proof.
  induction l as [ | y l IH ]; cbn; [ reflexivity | now rewrite IH ].
Qed.

(** X17.  A get from the call to the completion.  For a non-empty list of
    paths [getDatapoints] issues one request, for the first path in the Duo
    notation.  When the transport completes that call, the result the caller
    holds is: for a status that is not OK, the error with the text of the
    status; for an OK status, the reply built from the response, or still
    nothing when the text form of the response has no item marker and fewer
    than four characters, the exception of [substr] being caught.  In every
    case the call is marked complete and no exception leaves the closure. *)
Theorem getDatapoints_completion :
  forall (DebugString : GetResponse -> string) (front : string)
         (others : list string) (w : World) (status : grpc_Status)
         (response : GetResponse),
    let result := fst (getDatapoints DebugString (front :: others) w) in
    let index := List.length (m_activeCalls w) in
    let w' := deliver (snd (getDatapoints DebugString (front :: others) w))
                      (GetReport_done index status response) in
    nth_error (getResults (state w')) result
    = Some (if ok status then
              if reply_text_ok (DebugString response)
              then HasValue (get_reply front response)
              else Pending
            else HasError (failure_of "GetDatapoints" status))
    /\ is_complete w' index = Some true
    /\ escaped w' = escaped w
    /\ issued w'
       = (issued w ++ [GetReport {| get_thing := "vss";
                                    get_path := toDuoPath front |}])%list.
Proof.
  intros DebugString front others w status response.
  cbv zeta. unfold getDatapoints, GetDatapoints. cbn [fst snd deliver].
  unfold call_at. cbn [m_activeCalls issue addActiveCall with_state].
  rewrite nth_error_snoc. cbn [callData].
  unfold grpcResultHandler, is_complete.
  destruct (ok status).
  - unfold getDatapoints_replyHandler. rewrite substr_after_item.
    destruct (reply_text_ok (DebugString response)).
    + cbn [ret nth]. unfold get_reply.
      destruct (item response) as [ v | ];
        [ destruct (convertDuoResponseToDataPointValue front v) | ];
        cbn; rewrite !update_snoc, !nth_error_snoc; cbn; auto.
    + cbn. rewrite !update_snoc, !nth_error_snoc. cbn. auto.
  - cbn. rewrite !update_snoc, !nth_error_snoc. cbn. auto.
Qed.

(** X18.  A set from the call to the completion.  When the transport
    completes the call [setDatapoints] registered, the result the caller holds
    is: for a status that is not OK, the error with the text of the status;
    for an OK status, the empty error map, or still nothing when the text form
    of the response has no item marker and fewer than four characters.  In
    every case the call is marked complete and no exception leaves the
    closure. *)
Theorem setDatapoints_completion :
  forall (datapoints : list DataPointValue) (w issued_world : World)
         (result : nat) (status : grpc_Status) (response : CreateJobResponse),
    setDatapoints datapoints w = ret (result, issued_world) ->
    datapoints <> [] ->
    let index := List.length (m_activeCalls w) in
    let w' := deliver issued_world (CreateJob_done index status response) in
    nth_error (setResults (state w')) result
    = Some (if ok status then
              if reply_text_ok (CreateJobResponse_DebugString response)
              then HasValue []
              else Pending
            else HasError (failure_of "SetDatapoints" status))
    /\ is_complete w' index = Some true
    /\ escaped w' = escaped w.
Proof.
  intros datapoints w issued_world result status response Hset Hne.
  cbv zeta. unfold setDatapoints in Hset.
  destruct (setDatapoints_map datapoints []) as [ e | m ] eqn:Hmap;
    [ discriminate | ].
  destruct (setDatapoints_map_spec datapoints [] m Hmap
              (Sorted.SSorted_nil _)) as (_ & Hkeys & _ & _).
  destruct m as [ | [path value] rest ].
  { destruct datapoints as [ | d ds ]; [ now contradiction Hne | ].
    destruct (Hkeys d (or_introl eq_refl)). }
  injection Hset as <- <-.
  unfold SetDatapoints. cbn [deliver].
  unfold call_at. cbn [m_activeCalls issue addActiveCall with_state].
  rewrite nth_error_snoc. cbn [callData].
  unfold grpcResultHandler, is_complete.
  destruct (ok status).
  - unfold setDatapoints_replyHandler. rewrite substr_after_item.
    destruct (reply_text_ok (CreateJobResponse_DebugString response));
      cbn; rewrite !update_snoc, !nth_error_snoc; cbn; auto.
  - cbn. rewrite !update_snoc, !nth_error_snoc. cbn. auto.
Qed.

Lemma setDatapoints_completion_witness :
  let datapoints := [makeTypedValue STRING "Vehicle.Speed" "fast" 0] in
  let status := {| ok := true; error_message := "" |} in
  let response := {| CreateJobResponse_DebugString := "id" |} in
  exists issued_world : World,
    setDatapoints datapoints initial = ret (0%nat, issued_world)
    /\ datapoints <> []
    /\ nth_error
         (setResults (state (deliver issued_world
                                     (CreateJob_done 0 status response)))) 0
       = Some (if ok status then
                 if reply_text_ok (CreateJobResponse_DebugString response)
                 then HasValue []
                 else Pending
               else HasError (failure_of "SetDatapoints" status))
    /\ is_complete (deliver issued_world (CreateJob_done 0 status response)) 0
       = Some true
    /\ escaped (deliver issued_world (CreateJob_done 0 status response))
       = escaped initial.
Proof.
  cbv zeta. eexists.
  split; [ reflexivity | split; [ discriminate | ] ].
  eapply (setDatapoints_completion
            [makeTypedValue STRING "Vehicle.Speed" "fast" 0] initial _ 0%nat
            {| ok := true; error_message := "" |}
            {| CreateJobResponse_DebugString := "id" |});
    [ reflexivity | discriminate ].
Defined.

(** X19.  The data point built from the item of a get response takes its
    type from the kind of the item, not from the signal: text gives a STRING,
    a bool a BOOL, a number or a null a DOUBLE.  It carries the requested
    path and the timestamp zero, and is valid unless the item is null. *)
Theorem convertDuoResponseToDataPointValue_typed :
  forall (path : string) (value : Value) (converted : DataPointValue),
    convertDuoResponseToDataPointValue path value = ret converted ->
    getPath converted = path
    /\ getTimestamp converted = 0
    /\ getType converted
       = match value with
         | string_value _ => STRING
         | bool_value _ => BOOL
         | _ => DOUBLE
         end
    /\ isValid converted = negb (has_null_value value).
Proof.
  intros path value converted.
  destruct value; cbn; intros [= <-]; cbn; auto.
Qed.

Lemma convertDuoResponseToDataPointValue_typed_witness :
  convertDuoResponseToDataPointValue "Vehicle.Speed" null_value
  = ret (makeFailedValue DOUBLE "Vehicle.Speed" 0 NOT_AVAILABLE)
  /\ getType (makeFailedValue DOUBLE "Vehicle.Speed" 0 NOT_AVAILABLE) = DOUBLE
  /\ isValid (makeFailedValue DOUBLE "Vehicle.Speed" 0 NOT_AVAILABLE)
     = negb (has_null_value null_value).
Proof.
  split; [ reflexivity | ].
  assert (convertDuoResponseToDataPointValue "Vehicle.Speed" null_value
          = ret (makeFailedValue DOUBLE "Vehicle.Speed" 0 NOT_AVAILABLE))
    as Hconverted by reflexivity.
  destruct (convertDuoResponseToDataPointValue_typed "Vehicle.Speed" null_value
              (makeFailedValue DOUBLE "Vehicle.Speed" 0 NOT_AVAILABLE)
              Hconverted)
    as (_ & _ & Htype & Hvalid).
  split; [ exact Htype | exact Hvalid ].
Defined.

(** X20.  What the caller reads from the reply of a get: under the requested
    path the data point converted from the item, when the item is text, a
    bool, a number or a null; under any other path, and for a response
    without item or with an item that is a list, a struct or without kind,
    the lookup throws, the reply being empty exactly in these last cases. *)
Theorem get_reply_lookup :
  forall (front : string) (response : GetResponse) (path : string),
    getUntyped (get_reply front response) path
    = match item response with
      | Some kind_not_set | Some (list_value _) | Some (struct_value _)
      | None =>
          throw (InvalidValueException (path ++ " is not contained in reply!"))
      | Some v =>
          if String.eqb front path
          then convertDuoResponseToDataPointValue front v
          else throw (InvalidValueException
                        (path ++ " is not contained in reply!"))
      end
    /\ empty (get_reply front response)
       = match item response with
         | Some kind_not_set | Some (list_value _) | Some (struct_value _)
         | None => true
         | Some _ => false
         end.
Proof.
  intros front response path. unfold getUntyped, get_reply, empty.
  cbn [m_dataPointsMap].
  destruct (item response) as [ [ ] | ]; cbn;
    try destruct (String.eqb front path); auto.
Qed.

(** ** A subscription from the call to its end *)

Lemma subscribe_streamHandler_returns (platform : Platform)
  (subscription : nat) (query : string) (response : ListenResponse)
  (s : State) :
  exists s' : State,
    subscribe_streamHandler platform subscription query response s
    = Returned s'
    /\ subscriptions s'
       = update subscription
           (fun sub =>
              {| received := (received sub
                                ++ map subscribe_reply
                                     (flat_map (emitted query) (items response)))%list;
                 terminal := terminal sub |})
           (subscriptions s).
Proof.
  pose proof (subscribe_collect_pairs platform query (items response) [] s)
    as Hpairs.
  pose proof (subscribe_collect_state platform query (items response) [] s)
    as Hstate.
  cbn [app] in Hpairs. cbv zeta in Hstate.
  unfold subscribe_streamHandler.
  destruct (subscribe_collect platform query (items response) [] s)
    as [pathValueList s1] eqn:Hcollect.
  cbn [fst snd] in Hpairs, Hstate. destruct Hstate as (Hsubs & _ & _).
  eexists. split; [ reflexivity | ].
  rewrite (fold_left_through_map
             (fun s r => insertNewItem subscription r s) subscribe_reply).
  rewrite insertNewItem_all. cbn [subscriptions with_subscriptions].
  now rewrite Hsubs, Hpairs.
Qed.

Lemma stream_reads (platform : Platform) (subscription index : nat)
  (query : string) (request : ListenReportRequest)
  (responses : list ListenResponse) :
  forall (w : World) (before : list (AsyncSubscription DataPointReply))
         (got : list DataPointReply),
    nth_error (m_activeCalls w) index
    = Some {| callData :=
                ListenCall request
                  (subscribe_streamHandler platform subscription query)
                  (subscribe_errorHandler subscription);
              m_isComplete := false |} ->
    subscriptions (state w)
    = (before ++ [{| received := got; terminal := None |}])%list ->
    subscription = List.length before ->
    let w' := fold_left (fun w r => deliver w (ListenReport_read index r))
                        responses w in
    m_activeCalls w' = m_activeCalls w
    /\ issued w' = issued w
    /\ escaped w' = escaped w
    /\ subscriptions (state w')
       = (before
            ++ [{| received :=
                     (got ++ map subscribe_reply
                               (flat_map (emitted query)
                                         (flat_map items responses)))%list;
                   terminal := None |}])%list.
Proof.
  induction responses as [ | r responses IH ]; intros w before got Hcall Hsubs Hlen.
  - cbn. rewrite app_nil_r. auto.
  - cbn [fold_left flat_map].
    destruct (subscribe_streamHandler_returns platform subscription query r
                (state w)) as (s' & Hreturns & Hs').
    assert (deliver w (ListenReport_read index r) = with_state s' w) as Hstep.
    { cbn [deliver]. unfold call_at. rewrite Hcall. cbn [callData].
      unfold Subscribe_onData. now rewrite Hreturns. }
    rewrite Hstep.
    rewrite Hsubs, Hlen, update_snoc in Hs'. cbn [received terminal] in Hs'.
    destruct (IH (with_state s' w) before _ Hcall Hs' Hlen)
      as (Hcalls & Hissued & Hescaped & Hfinal).
    cbv zeta. rewrite Hcalls, Hissued, Hescaped, Hfinal.
    repeat split. rewrite flat_map_app, map_app, app_assoc. reflexivity.
Qed.

(** X21.  A subscription from the call to its end.  [subscribe] issues one
    listen request, for the query in the Duo notation, asking for the initial
    value.  The items of all messages read from the stream reach the
    subscription in the order of the messages and, within a message, of its
    values; none is lost or repeated.  While messages are read the call is
    not complete.  The end of the stream marks it complete, and leaves a
    terminal error with the text of the status exactly when the status is
    not OK. *)
Theorem subscribe_stream :
  forall (platform : Platform) (query : string) (w : World)
         (responses : list ListenResponse) (status : grpc_Status),
    let subscription := fst (subscribe platform query w) in
    let index := List.length (m_activeCalls w) in
    let streamed :=
      fold_left (fun w r => deliver w (ListenReport_read index r)) responses
                (snd (subscribe platform query w)) in
    let finished := deliver streamed (ListenReport_done index status) in
    nth_error (subscriptions (state finished)) subscription
    = Some {| received :=
                map subscribe_reply
                    (flat_map (emitted query) (flat_map items responses));
              terminal := if ok status then None
                          else Some (failure_of "Subscribe" status) |}
    /\ is_complete streamed index = Some false
    /\ is_complete finished index = Some true
    /\ escaped finished = escaped w
    /\ issued finished
       = (issued w ++ [ListenReport {| listen_thing := "vss";
                                       needs_initial_value := true;
                                       filters := [toDuoPath query] |}])%list.
Proof.
  intros platform query w responses status. cbv zeta.
  set (request := {| listen_thing := "vss"; needs_initial_value := true;
                     filters := [toDuoPath query] |}).
  set (subscription := List.length (subscriptions (state w))).
  set (call := {| callData :=
                    ListenCall request
                      (subscribe_streamHandler platform subscription query)
                      (subscribe_errorHandler subscription);
                  m_isComplete := false |}).
  assert (toDuoPath (toDuoPath query) = toDuoPath query) as Hidem
      by (apply replace_dot_free, toDuoPath_dot_free).
  assert (fst (subscribe platform query w) = subscription) as -> by reflexivity.
  assert (m_activeCalls (snd (subscribe platform query w))
          = (m_activeCalls w ++ [call])%list) as Hcalls1
      by (unfold subscribe, Subscribe; cbn; now rewrite Hidem).
  assert (issued (snd (subscribe platform query w))
          = (issued w ++ [ListenReport request])%list) as Hissued1
      by (unfold subscribe, Subscribe; cbn; now rewrite Hidem).
  assert (escaped (snd (subscribe platform query w)) = escaped w) as Hescaped1
      by reflexivity.
  assert (subscriptions (state (snd (subscribe platform query w)))
          = (subscriptions (state w)
               ++ [{| received := []; terminal := None |}])%list) as Hsubs1
      by reflexivity.
  set (w1 := snd (subscribe platform query w)) in *. clearbody w1.
  assert (nth_error (m_activeCalls w1) (List.length (m_activeCalls w))
          = Some call) as Hcall
      by (rewrite Hcalls1; apply nth_error_snoc).
  destruct (stream_reads platform subscription (List.length (m_activeCalls w))
              query request responses w1 (subscriptions (state w)) []
              Hcall Hsubs1 eq_refl) as (Hcalls & Hissued & Hescaped & Hsubs).
  cbn [app] in Hsubs.
  set (streamed := fold_left _ responses w1) in *. clearbody streamed.
  unfold is_complete. rewrite Hcalls, Hcall. cbn [option_map m_isComplete call].
  cbn [deliver]. unfold call_at. rewrite Hcalls, Hcall. cbn [callData call].
  unfold Subscribe_onFinish, subscribe_errorHandler, subscription.
  destruct (ok status); cbn [negb];
    cbn [set_complete with_state state m_activeCalls issued escaped
         insertSubscriptionError with_subscriptions subscriptions];
    rewrite ?Hcalls, ?Hsubs, ?Hissued, ?Hescaped, ?Hcalls1, ?Hissued1,
            ?Hescaped1, !update_snoc, !nth_error_snoc;
    cbn; auto.
Qed.

(** ** The requests the client sends *)

Lemma deliver_issued (w : World) (ev : TransportEvent) :
  issued (deliver w ev) = issued w
  /\ map callData (m_activeCalls (deliver w ev)) = map callData (m_activeCalls w).
Proof.
  destruct ev as [ index status response | index status response
                 | index response | index status ]; cbn [deliver];
    destruct (call_at w index) as [ [ req rh eh | req rh eh | req sh eh ] | ];
    auto.
  - unfold grpcResultHandler.
    destruct (if ok status then rh response (state w) else eh status (state w))
      as [ s | e s ]; [ | destruct (is_std_exception e) ];
      cbn; rewrite ?map_callData_update; auto.
  - unfold grpcResultHandler.
    destruct (if ok status then rh response (state w) else eh status (state w))
      as [ s | e s ]; [ | destruct (is_std_exception e) ];
      cbn; rewrite ?map_callData_update; auto.
  - destruct (Subscribe_onData sh response (state w)); cbn; auto.
  - unfold Subscribe_onFinish.
    destruct (negb (ok status)); [ destruct (eh status (state w)) | ];
      cbn; rewrite ?map_callData_update; auto.
Qed.

Lemma step_issued (platform : Platform) (DebugString : GetResponse -> string)
  (w : World) (ev : Event) :
  issued (step platform DebugString w ev) = issued w
  \/ exists r, well_formed_rpc r = true
               /\ issued (step platform DebugString w ev)
                  = (issued w ++ [r])%list.
Proof.
  destruct ev as [ datapoints | datapoints | query | ev ]; cbn [step].
  - unfold getDatapoints, GetDatapoints. cbn [snd].
    destruct datapoints as [ | front others ]; [ now left | ].
    right. eexists. split; [ | reflexivity ].
    cbn. apply toDuoPath_dot_free.
  - unfold setDatapoints.
    destruct (setDatapoints_map datapoints []) as [ e | [ | [path value] m ] ];
      cbn; [ now left | now left | ].
    right. eexists. split; [ | reflexivity ]. reflexivity.
  - right. unfold subscribe, Subscribe. cbn [snd].
    eexists. split; [ | reflexivity ].
    cbn. apply toDuoPath_dot_free.
  - left. apply deliver_issued.
Qed.

(** X23.  Every request the client ever sends is well formed, whatever the
    calls and the events before it: the thing is vss; a get names a path
    without dots; a job is a set action with a target and a value; a listen
    asks for the initial value and has exactly one filter, without dots. *)
Theorem issued_requests_well_formed :
  forall (platform : Platform) (DebugString : GetResponse -> string)
         (w : World),
    reachable platform DebugString w ->
    forallb well_formed_rpc (issued w) = true.
Proof.
  intros platform DebugString w [events ->].
  induction events as [ | ev events IH ] using rev_ind; [ reflexivity | ].
  unfold run in *. rewrite fold_left_app. cbn [fold_left].
  destruct (step_issued platform DebugString
              (fold_left (step platform DebugString) events initial) ev)
    as [ -> | (r & Hr & ->) ]; [ exact IH | ].
  rewrite forallb_app, IH. cbn. now rewrite Hr.
Qed.

Lemma issued_requests_well_formed_witness :
  let DebugString : GetResponse -> string := fun _ => "item " in
  let w := run bare_platform DebugString initial
               [call_getDatapoints ["Vehicle.Speed"; "Vehicle.Width"];
                call_subscribe "Vehicle.Cabin.Seat";
                call_setDatapoints [makeTypedValue BOOL "Vehicle.Open" true 0]] in
  reachable bare_platform DebugString w
  /\ List.length (issued w) = 3%nat
  /\ forallb well_formed_rpc (issued w) = true.
Proof.
  cbv zeta.
  assert (reachable bare_platform (fun _ => "item ")
            (run bare_platform (fun _ => "item ") initial
               [call_getDatapoints ["Vehicle.Speed"; "Vehicle.Width"];
                call_subscribe "Vehicle.Cabin.Seat";
                call_setDatapoints [makeTypedValue BOOL "Vehicle.Open" true 0]]))
    as Hreachable by (eexists; reflexivity).
  split; [ exact Hreachable | split; [ reflexivity | ] ].
  apply (issued_requests_well_formed bare_platform (fun _ => "item ") _
           Hreachable).
Defined.

(** ** The exceptions of the converter *)

Lemma convertList_loop_exception {A : Type} (P : Exn -> Prop)
  (converter : Value -> Result A) (values : list Value) (e : Exn) :
  (forall v e', converter v = throw e' -> P e') ->
  convertList_loop converter values = throw e -> P e.
Proof.
  intros Hconverter.
  induction values as [ | v values IH ]; [ discriminate | ].
  cbn [convertList_loop].
  destruct (converter v) as [ e' | x ] eqn:Hv; cbn [bind].
  - intros [= <-]. now apply (Hconverter v).
  - destruct (convertList_loop converter values) as [ e' | l ]; cbn [bind ret].
    + intros [= <-]. now apply IH.
    + discriminate.
Qed.

Lemma convertList_exception {A : Type} (converter : Value -> Result A)
  (value : Value) (e : Exn) :
  (forall v e', converter v = throw e' -> is_InvalidValueException e' = true) ->
  convertList value converter = throw e -> is_InvalidValueException e = true.
Proof.
  intros Hconverter. destruct value as [ | | d | s | b | fields | l ];
    cbn [convertList]; try (intros [= <-]; reflexivity).
  apply (convertList_loop_exception
           (fun e => is_InvalidValueException e = true) converter l e
           Hconverter).
Qed.

(** X24.  [convertToDouble] fails in two ways only: for a text, whatever is
    wrong with it, with the message of a failed parse, the exception for
    trailing characters being replaced by it on the way out; and for a null,
    a list, a struct or an unset value with the message of an unsupported
    type.  A number or a bool never fails. *)
Theorem convertToDouble_failures :
  forall (platform : Platform) (value : Value) (e : Exn),
    convertToDouble platform value = throw e ->
    match value with
    | string_value _ =>
        e = InvalidValueException
              "Failed to parse floating point value from string."
    | number_value _ | bool_value _ => False
    | _ =>
        e = InvalidValueException
              "Unsupported value type for floating point conversion."
    end.
Proof.
  intros platform value e.
  destruct value as [ | | d | s | b | fields | values ]; cbn [convertToDouble];
    try discriminate; try (now intros [= <-]).
  destruct (stod platform s) as [ [dbl idx] | ];
    [ destruct (Nat.eqb idx (String.length s)) | ];
    try discriminate; now intros [= <-].
Qed.

Lemma convertToDouble_failures_witness :
  let e := InvalidValueException
             "Failed to parse floating point value from string." in
  convertToDouble bare_platform (string_value "12 km") = throw e
  /\ e = InvalidValueException
           "Failed to parse floating point value from string.".
Proof.
  cbv zeta. split; [ reflexivity | ].
  apply (convertToDouble_failures bare_platform (string_value "12 km")).
  reflexivity.
Defined.

Lemma convertToDouble_exception (platform : Platform) (v : Value) (e : Exn) :
  convertToDouble platform v = throw e -> is_InvalidValueException e = true.
Proof.
  destruct v as [ | | d | s | b | fields | values ]; cbn [convertToDouble];
    try discriminate; try (now intros [= <-]).
  destruct (stod platform s) as [ [dbl idx] | ];
    [ destruct (Nat.eqb idx (String.length s)) | ];
    try discriminate; now intros [= <-].
Qed.

Lemma convertToFloat_exception (platform : Platform) (v : Value) (e : Exn) :
  convertToFloat platform v = throw e -> is_InvalidValueException e = true.
Proof.
  unfold convertToFloat.
  destruct (convertToDouble platform v) as [ e' | d ] eqn:Hd; cbn [bind ret];
    [ | discriminate ].
  intros [= <-]. now apply (convertToDouble_exception platform v).
Qed.

Lemma convertToString_exception (platform : Platform) (v : Value) (e : Exn) :
  convertToString platform v = throw e -> is_InvalidValueException e = true.
Proof.
  destruct v; cbn [convertToString]; try discriminate; now intros [= <-].
Qed.

Lemma convertToBool_exception (v : Value) (e : Exn) :
  convertToBool v = throw e -> is_InvalidValueException e = true.
Proof.
  destruct v as [ | | d | s | b | fields | values ]; cbn [convertToBool];
    try discriminate; try (now intros [= <-]).
  destruct (_ || _); [ discriminate | ].
  destruct (_ || _); [ discriminate | ]. now intros [= <-].
Qed.

Lemma convertToIntegral_exception (T : IntType) (v : Value) (e : Exn) :
  convertToIntegral T v = throw e -> is_InvalidValueException e = true.
Proof.
  destruct v as [ | | d | s | b | fields | values ]; cbn [convertToIntegral];
    try discriminate; try (now intros [= <-]).
  - destruct (negb (isfinite d)); [ now intros [= <-] | ].
    destruct (_ || _); [ now intros [= <-] | discriminate ].
  - destruct (is_unsigned T).
    + destruct (stoull s) as [ | | parsed idx ]; try (now intros [= <-]).
      destruct (negb _); [ now intros [= <-] | ].
      destruct (_ <? _); [ now intros [= <-] | discriminate ].
    + destruct (stoll s) as [ | | parsed idx ]; try (now intros [= <-]).
      destruct (negb _); [ now intros [= <-] | ].
      destruct (_ || _); [ now intros [= <-] | discriminate ].
Qed.

(** X25.  What [fromDuoValue] throws.  For each of the supported types every
    failure is an [InvalidValueException]: a missing path, or a leaf or an
    element that does not convert.  For the type INVALID it is the exception
    for a missing path or the [InvalidTypeException] for an unsupported
    type.  No other exception leaves the function. *)
Theorem fromDuoValue_exceptions :
  forall (platform : Platform) (path : string) (t : DataPointValue_Type)
         (value : Value) (timestamp : Timestamp) (e : Exn),
    fromDuoValue platform path t value timestamp = throw e ->
    if supported t
    then is_InvalidValueException e = true
    else e = InvalidValueException
               ("Requested datapoint path not present in Duo payload: " ++ path)
         \/ e = unsupported_type.
Proof.
  intros platform path t value timestamp e. unfold fromDuoValue.
  destruct (locateLeaf value (splitPath path)) as [ leaf | ].
  - destruct (has_null_value leaf).
    + destruct t; try discriminate. intros [= <-]. now right.
    + destruct (convertLeaf platform t leaf) as [ e' | data ] eqn:Hleaf;
        cbn [bind ret]; [ | discriminate ].
      intros [= <-].
      destruct t; cbn [convertLeaf supported] in Hleaf |- *;
        try (injection Hleaf as <-; now right);
        first
          [ exact (convertToBool_exception leaf e' Hleaf)
          | exact (convertToIntegral_exception _ leaf e' Hleaf)
          | exact (convertToFloat_exception platform leaf e' Hleaf)
          | exact (convertToDouble_exception platform leaf e' Hleaf)
          | exact (convertToString_exception platform leaf e' Hleaf)
          | refine (convertList_exception _ leaf e' _ Hleaf);
            intros v e0;
            first
              [ apply convertToBool_exception
              | apply convertToIntegral_exception
              | apply convertToFloat_exception
              | apply convertToDouble_exception
              | apply convertToString_exception ] ].
  - intros [= <-]. destruct (supported t); [ reflexivity | now left ].
Qed.

Lemma fromDuoValue_exceptions_witness :
  let e := InvalidValueException
             "Requested datapoint path not present in Duo payload: Vehicle.Speed" in
  fromDuoValue bare_platform "Vehicle.Speed" INT32
    (struct_value [("Vehicle", struct_value [])]) 0 = throw e
  /\ (if supported INT32 then is_InvalidValueException e = true
      else e = InvalidValueException
                 ("Requested datapoint path not present in Duo payload: "
                    ++ "Vehicle.Speed")
           \/ e = unsupported_type).
Proof.
  cbv zeta. split; [ reflexivity | ].
  apply (fromDuoValue_exceptions bare_platform "Vehicle.Speed" INT32
           (struct_value [("Vehicle", struct_value [])]) 0).
  reflexivity.
Defined.

(** ** A set request that cannot be encoded *)

Lemma toDuoValue_fails (d : DataPointValue) :
  match toDuoValue d with
  | inl e => e = unsupported_type
             /\ isValid d && negb (supported (getType d)) = true
  | inr _ => isValid d && negb (supported (getType d)) = false
  end.
Proof.
  destruct d as [t path timestamp [ failure | data ]]; [ reflexivity | ].
  destruct t; cbn; auto.
Qed.

Lemma setDatapoints_map_fails (datapoints : list DataPointValue) :
  forall m0 : list (string * Value),
    match setDatapoints_map datapoints m0 with
    | inl e =>
        e = unsupported_type
        /\ existsb (fun d => isValid d && negb (supported (getType d)))
                   datapoints = true
    | inr _ =>
        existsb (fun d => isValid d && negb (supported (getType d)))
                datapoints = false
    end.
Proof.
  induction datapoints as [ | d rest IH ]; intros m0; [ reflexivity | ].
  cbn [setDatapoints_map existsb].
  pose proof (toDuoValue_fails d) as Hd.
  destruct (toDuoValue d) as [ e | value ].
  - destruct Hd as [-> ->]. now split.
  - rewrite Hd. cbn [orb]. apply IH.
Qed.

(** X26.  [setDatapoints] throws exactly when one of the data points is
    valid and of a type without encoding, and the exception is then the
    [InvalidTypeException] of [toDuoValue]; it leaves before a result is
    created or anything is handed to the facade.  Otherwise it returns the
    one new result, the last of the results of the client. *)
Theorem setDatapoints_fails_iff :
  forall (datapoints : list DataPointValue) (w : World),
    match setDatapoints datapoints w with
    | inl e =>
        e = unsupported_type
        /\ existsb (fun d => isValid d && negb (supported (getType d)))
                   datapoints = true
    | inr (result, w') =>
        existsb (fun d => isValid d && negb (supported (getType d)))
                datapoints = false
        /\ result = List.length (setResults (state w))
        /\ List.length (setResults (state w'))
           = S (List.length (setResults (state w)))
    end.
Proof.
  intros datapoints w. unfold setDatapoints.
  pose proof (setDatapoints_map_fails datapoints []) as Hmap.
  destruct (setDatapoints_map datapoints []) as [ e | m ]; [ exact Hmap | ].
  cbn [ret]. split; [ exact Hmap | split; [ reflexivity | ] ].
  unfold SetDatapoints. destruct m as [ | [path value] rest ]; cbn;
    rewrite length_app; cbn; lia.
Qed.

(** ** What the stream closure writes *)

Lemma fold_left_log_output (f : string * Value -> string)
  (l : list (string * Value)) (s : State) :
  let s' := fold_left (fun s pl => log info (f pl) s) l s in
  logger s' = (logger s ++ map (fun pl => (info, f pl)) l)%list
  /\ stdout s' = stdout s.
Proof.
  revert s.
  induction l as [ | pl l IH ]; intros s.
  - cbn. now rewrite app_nil_r.
  - cbn [fold_left map]. destruct (IH (log info (f pl) s)) as [Hlog Hout].
    cbv zeta. rewrite Hlog, Hout. cbn. now rewrite <- app_assoc.
Qed.

Lemma subscribe_collect_output (platform : Platform) (query : string)
  (values : list Value) :
  forall (pathValueList : list (string * Value)) (s : State),
    let s' := snd (subscribe_collect platform query values pathValueList s) in
    logger s' = (logger s ++ flat_map (logged platform) values)%list
    /\ stdout s' = (stdout s ++ flat_map (printed platform) values)%list.
Proof.
  induction values as [ | value rest IH ]; intros pathValueList s.
  - cbn. now rewrite !app_nil_r.
  - destruct value as [ | | d | str | b | fields | vs ];
      cbn [subscribe_collect flat_map logged printed app]; try apply IH.
    + destruct (IH (pathValueList ++ [(query, number_value d)])%list
                   (print ("Number: " ++ ostream_double platform d ++ newline) s))
        as [Hlog Hout].
      cbv zeta. rewrite Hlog, Hout. cbn. now rewrite <- app_assoc.
    + destruct (IH (pathValueList ++ [(query, string_value str)])%list
                   (print ("String: " ++ str ++ newline) s))
        as [Hlog Hout].
      cbv zeta. rewrite Hlog, Hout. cbn. now rewrite <- app_assoc.
    + match goal with
      | |- context [subscribe_collect platform query rest ?pvl ?s0] =>
          destruct (IH pvl s0) as [Hlog Hout]
      end.
      cbv zeta. rewrite Hlog, Hout.
      match goal with
      | |- context [fold_left ?g ?l s] =>
          destruct (fold_left_log_output
                      (fun pl => "Received update. path: " ++ fst pl
                                   ++ " value: " ++ valueToString platform (snd pl))
                      l s) as [Hlog' Hout']
      end.
      cbv zeta in Hlog', Hout'. rewrite Hlog', Hout'.
      rewrite collectValuePaths_flattened, <- app_assoc. auto.
Qed.

(** X27.  What the stream closure of [subscribe] writes for a message: one
    line on the standard output per number and per text among its values,
    one line in the log per leaf of each struct, with the slash-joined path
    and the text of the leaf, all in the order of the values; for a bool, a
    null or a list nothing.  The results of get and set calls are left as
    they are. *)
Theorem subscribe_streamHandler_output :
  forall (platform : Platform) (subscription : nat) (query : string)
         (response : ListenResponse) (s : State),
    let s' := state_of (subscribe_streamHandler platform subscription query
                          response s) in
    logger s' = (logger s ++ flat_map (logged platform) (items response))%list
    /\ stdout s' = (stdout s ++ flat_map (printed platform) (items response))%list
    /\ getResults s' = getResults s
    /\ setResults s' = setResults s.
Proof.
  intros platform subscription query response s.
  pose proof (subscribe_collect_output platform query (items response) [] s)
    as Houtput.
  pose proof (subscribe_collect_state platform query (items response) [] s)
    as Hstate.
  unfold subscribe_streamHandler.
  destruct (subscribe_collect platform query (items response) [] s)
    as [pathValueList s1].
  cbv zeta in *. cbn [snd] in *. cbn [state_of].
  rewrite (fold_left_through_map
             (fun s r => insertNewItem subscription r s) subscribe_reply).
  rewrite insertNewItem_all. cbn.
  destruct Houtput as [-> ->]. destruct Hstate as (_ & -> & ->). auto.
Qed.

